(** * go.h: rules engine and tactical analysers of the 9x9 Go bot

    A shallow embedding of [src/go/go.h].  Group objects live behind
    [std::shared_ptr], so the embedding keeps an explicit object store and
    addresses into it; C++ exceptions and undefined behaviour are outcomes
    of a small state-and-error monad. *)

From Stdlib Require Import ZArith Bool Lia.
From stdpp Require Import base option list sorting strings.

Local Open Scope Z_scope.

(** ** Outcomes and the state monad *)

(** What running a piece of the program can end in: a value, a thrown
    C++ exception (with its [what()]), or undefined behaviour (a null
    [shared_ptr] dereferenced, an array indexed out of range, [*begin()] of
    an empty set). *)
Inductive result (A : Type) : Type :=
  | Ok (a : A)
  | Throw (what : string)
  | Undefined.
Arguments Ok {A} a.
Arguments Throw {A} what.
Arguments Undefined {A}.

(** A computation over a mutable state [S].  The state reached is kept also
    when the computation throws: an exception does not roll anything back. *)
Definition M (S A : Type) : Type := S -> result A * S.

Definition M_bind {S A B : Type} (f : A -> M S B) (m : M S A) : M S B :=
  fun s =>
    match m s with
    | (Ok a, s') => f a s'
    | (Throw w, s') => (Throw w, s')
    | (Undefined, s') => (Undefined, s')
    end.

#[global] Instance M_ret {S : Type} : MRet (M S) := fun A a s => (Ok a, s).
#[global] Instance M_mbind {S : Type} : MBind (M S) := fun A B f m => M_bind f m.

Definition get {S : Type} : M S S := fun s => (Ok s, s).
Definition gets {S A : Type} (f : S -> A) : M S A := fun s => (Ok (f s), s).
Definition put {S : Type} (s : S) : M S unit := fun _ => (Ok tt, s).
Definition modify {S : Type} (f : S -> S) : M S unit := fun s => (Ok tt, f s).
Definition throw {S A : Type} (w : string) : M S A := fun s => (Throw w, s).
Definition undefined {S A : Type} : M S A := fun s => (Undefined, s).

(** [for (auto x : l) body(x);] *)
Fixpoint for_each {S A : Type} (l : list A) (body : A -> M S unit) : M S unit :=
  match l with
  | [] => mret tt
  | x :: l' => body x ≫= fun _ => for_each l' body
  end.

(** A loop whose body may [return] from the enclosing function (or [break]
    with a value): the first [Some] ends the loop. *)
Fixpoint for_first {S A R : Type} (l : list A) (body : A -> M S (option R))
    : M S (option R) :=
  match l with
  | [] => mret None
  | x :: l' =>
      body x ≫= fun r =>
        match r with
        | Some v => mret (Some v)
        | None => for_first l' body
        end
  end.

(** ** Colours and positions *)

Inductive Color : Type := BLACK | WHITE.

#[global] Instance Color_eq_dec : EqDecision Color.
Proof. solve_decision. Defined.

Definition Color_eqb (a b : Color) : bool := bool_decide (a = b).

(** [operator~] *)
Definition Color_not (c : Color) : Color :=
  if Color_eqb c BLACK then WHITE else BLACK.

(** [struct Pos].  The members are C++ [int]s; the program only does
    arithmetic on coordinates at distance at most two from the board, so
    they are embedded as [Z]. *)
Record Pos : Type := mkPos { row : Z; col : Z }.

#[global] Instance Pos_eq_dec : EqDecision Pos.
Proof. solve_decision. Defined.

(** [operator<=>]: the order of [std::pair{row, col}]. *)
Definition Pos_ltb (a b : Pos) : bool :=
  (row a <? row b) || ((row a =? row b) && (col a <? col b)).

Definition neighbors (p : Pos) : list Pos :=
  [ mkPos (row p) (col p - 1);
    mkPos (row p) (col p + 1);
    mkPos (row p - 1) (col p);
    mkPos (row p + 1) (col p) ].

Definition corners (p : Pos) : list Pos :=
  [ mkPos (row p - 1) (col p - 1);
    mkPos (row p - 1) (col p + 1);
    mkPos (row p + 1) (col p - 1);
    mkPos (row p + 1) (col p + 1) ].

(** ** [std::set] as a strictly increasing list *)

Section OrderedSet.
Context {A : Type} (ltb : A -> A -> bool).

(** [insert]: keeps the order, does nothing when an equivalent key is
    already present. *)
Fixpoint set_insert (x : A) (l : list A) : list A :=
  match l with
  | [] => [x]
  | y :: l' =>
      if ltb x y then x :: l
      else if ltb y x then y :: set_insert x l'
      else l
  end.

Definition set_contains (x : A) (l : list A) : bool :=
  existsb (fun y => negb (ltb x y) && negb (ltb y x)) l.

Definition set_erase (x : A) (l : list A) : list A :=
  filter (fun y => ltb x y || ltb y x) l.
End OrderedSet.

(** ** [struct Positions] *)

Record Positions : Type := mkPositions { elements : list Pos }.

#[global] Instance Positions_eq_dec : EqDecision Positions.
Proof. solve_decision. Defined.

Module Positions.
Definition empty : Positions := mkPositions [].

(** The range constructor: [elements(e.begin(), e.end())]. *)
Definition of_range (e : list Pos) : Positions :=
  mkPositions (foldl (fun acc p => set_insert Pos_ltb p acc) [] e).

Definition has (s : Positions) (p : Pos) : bool :=
  set_contains Pos_ltb p (elements s).

(** [operator+=(Pos)] *)
Definition add (s : Positions) (p : Pos) : Positions :=
  mkPositions (set_insert Pos_ltb p (elements s)).

(** [operator-=(Pos)]: the set without [p], and whether [p] was there. *)
Definition remove (s : Positions) (p : Pos) : bool * Positions :=
  (has s p, mkPositions (set_erase Pos_ltb p (elements s))).

Definition count (s : Positions) : nat := length (elements s).

(** [getAny]: [*elements.begin()], undefined on the empty set. *)
Definition getAny (s : Positions) : option Pos := head (elements s).

(** [operator+=(const Positions&)] *)
Definition add_all (s other : Positions) : Positions :=
  foldl add s (elements other).

(** [operator-=(range)] *)
Definition remove_all (s : Positions) (stones : list Pos) : Positions :=
  foldl (fun acc p => snd (remove acc p)) s stones.
End Positions.

(** ** [struct _Group] and the object store *)

Record _Group : Type := mk_Group
  { color : Color; stones : Positions; liberties : Positions }.

#[global] Instance _Group_eq_dec : EqDecision _Group.
Proof. solve_decision. Defined.

(** [_Group(Color, Pos, const Positions&)] *)
Definition singleton_Group (c : Color) (stone : Pos) (libs : Positions) : _Group :=
  mk_Group c (Positions.of_range [stone]) libs.

Definition numLiberties (g : _Group) : nat := Positions.count (liberties g).

Definition isDead (g : _Group) : bool := Nat.eqb (numLiberties g) 0.

(** [_Group::operator+=], run on the group it mutates.  The [throw] is not
    under an [else]: it is reached on every call, after the merge when the
    colours agree. *)
Definition Group_iadd (other : _Group) : M _Group unit :=
  (get ≫= fun g =>
     if Color_eqb (color g) (color other) then
       let stones' := Positions.add_all (stones g) (stones other) in
       let liberties' := Positions.add_all (liberties g) (liberties other) in
       put (mk_Group (color g) stones'
              (Positions.remove_all liberties' (elements stones')))
     else mret tt) ≫= fun _ =>
  throw "Cannot merge groups of different colors".

(** The address of a [_Group] object; [Group] is the nullable
    [std::shared_ptr<_Group>]. *)
Definition ptr : Type := nat.
Definition Group : Type := option ptr.

(** Every [_Group] object allocated so far, indexed by its address.
    Objects are never taken out of the store: an object nobody points to
    any more is simply unreachable. *)
Definition store : Type := list _Group.

(** [new _Group] / [make_shared]: the new object gets the next address. *)
Definition alloc (g : _Group) : M store ptr :=
  fun h => (Ok (length h), h ++ [g]).

Definition non_null (g : Group) : bool :=
  match g with Some _ => true | None => false end.

(** ** [struct Board] *)

Definition size : Z := 9.

Definition is_pos_valid (pos : Pos) : bool :=
  (0 <=? row pos) && (row pos <? size) && (0 <=? col pos) && (col pos <? size).

(** [grid] is the 9x9 array of rows; [activeGroups] is the [std::set<Group>],
    ordered by address. *)
Record Board : Type := mkBoard
  { grid : list (list Group); activeGroups : list ptr }.

#[global] Instance Board_eq_dec : EqDecision Board.
Proof. solve_decision. Defined.

(** [Board() = default]: every cell null, no group. *)
Definition new_Board : Board :=
  mkBoard (replicate (Z.to_nat size) (replicate (Z.to_nat size) None)) [].

(** [grid[p.row][p.col]] for an index in range. *)
Definition grid_at (b : Board) (p : Pos) : Group :=
  default None (grid b !! Z.to_nat (row p) ≫= fun r => r !! Z.to_nat (col p)).

Definition grid_put (b : Board) (p : Pos) (g : Group) : Board :=
  mkBoard (alter (fun r => <[Z.to_nat (col p) := g]> r) (Z.to_nat (row p)) (grid b))
          (activeGroups b).

(** The board a method runs on, together with the object store. *)
Record Env : Type := mkEnv { this : Board; mem : store }.

#[global] Instance Env_eq_dec : EqDecision Env.
Proof. solve_decision. Defined.

(** Run a store computation inside a method. *)
Definition on_mem {A : Type} (m : M store A) : M Env A :=
  fun e =>
    let '(r, h) := m (mem e) in (r, mkEnv (this e) h).

(** [*g] for a non-null [g]. *)
Definition deref (q : ptr) : M store _Group :=
  fun h =>
    match h !! q with
    | Some g => (Ok g, h)
    | None => (Undefined, h)
    end.

(** [g->member = ...] *)
Definition update (q : ptr) (f : _Group -> _Group) : M store unit :=
  fun h =>
    match h !! q with
    | Some g => (Ok tt, <[q := f g]> h)
    | None => (Undefined, h)
    end.

(** [getGroupPtr(p)] and [operator[]] on a board that is read: indexing
    the arrays out of range is undefined. *)
Definition getGroupPtr {S : Type} (b : Board) (p : Pos) : M S Group :=
  if is_pos_valid p then mret (grid_at b p) else undefined.

(** [getGroupPtr(p) = g] and [grid[p.row][p.col] = g] on the board of the
    method. *)
Definition setGroupPtr (p : Pos) (g : Group) : M Env unit :=
  if is_pos_valid p
  then modify (fun e => mkEnv (grid_put (this e) p g) (mem e))
  else undefined.

Definition set_activeGroups (f : list ptr -> list ptr) : M Env unit :=
  modify (fun e => mkEnv (mkBoard (grid (this e)) (f (activeGroups (this e)))) (mem e)).

(** [removeDeadGroup] *)
Definition removeDeadGroup (g : ptr) : M Env unit :=
  set_activeGroups (set_erase Nat.ltb g) ≫= fun _ =>
  on_mem (deref g) ≫= fun og =>
  for_each (elements (stones og)) (fun p => setGroupPtr p None).

(** What the classification loop of [place_stone] has collected. *)
Record Adjacent : Type := mkAdjacent
  { adj_friends : list ptr; adj_enemies : list ptr; newLiberties : Positions }.

Definition classify_step (c : Color) (p : Pos) (acc : Adjacent) : M Env Adjacent :=
  if is_pos_valid p then
    gets (fun e => grid_at (this e) p) ≫= fun group =>
    match group with
    | Some q =>
        on_mem (deref q) ≫= fun og =>
        if Color_eqb (color og) c
        then mret (mkAdjacent (set_insert Nat.ltb q (adj_friends acc))
                              (adj_enemies acc) (newLiberties acc))
        else mret (mkAdjacent (adj_friends acc)
                              (set_insert Nat.ltb q (adj_enemies acc))
                              (newLiberties acc))
    | None =>
        mret (mkAdjacent (adj_friends acc) (adj_enemies acc)
                         (Positions.add (newLiberties acc) p))
    end
  else mret acc.

Fixpoint classify_loop (c : Color) (ps : list Pos) (acc : Adjacent) : M Env Adjacent :=
  match ps with
  | [] => mret acc
  | p :: ps' => classify_step c p acc ≫= classify_loop c ps'
  end.

Definition classify (c : Color) (pos : Pos) : M Env Adjacent :=
  classify_loop c (neighbors pos) (mkAdjacent [] [] Positions.empty).

(** [for (const auto& e : adj_friends) *new_group += *e;] run on the local
    [new_group], which no one else points to yet; [h] is the store the
    friends are read from. *)
Fixpoint merge_friends (h : store) (friends : list ptr) : M _Group unit :=
  match friends with
  | [] => mret tt
  | e :: rest =>
      match h !! e with
      | Some og => Group_iadd og ≫= fun _ => merge_friends h rest
      | None => undefined
      end
  end.

(** The body of the loop over [adj_enemies]. *)
Definition update_enemy (pos : Pos) (enemy : ptr) : M Env unit :=
  on_mem (update enemy (fun g =>
            mk_Group (color g) (stones g) (snd (Positions.remove (liberties g) pos)))) ≫= fun _ =>
  on_mem (deref enemy) ≫= fun og =>
  if isDead og then removeDeadGroup enemy else mret tt.

(** [Board::place_stone].  [new_group] is held as a value until the commit
    on line 222 makes it reachable from the board; when the function
    returns or throws before that, the object dies with the local pointer
    and the store is as it was. *)
Definition place_stone (c : Color) (pos : Pos) : M Env bool :=
  get ≫= fun e0 =>
  (* Check simple invalid placement *)
  if negb (is_pos_valid pos) || negb (non_null (grid_at (this e0) pos))
  then mret false
  else
    (* Classify adjacent positions *)
    classify c pos ≫= fun adj =>
    (* Merge friends with stone *)
    gets mem ≫= fun h =>
    match merge_friends h (adj_friends adj)
            (singleton_Group c pos (newLiberties adj)) with
    | (Throw w, _) => throw w
    | (Undefined, _) => undefined
    | (Ok _, new_group) =>
        (* Check suicide rule *)
        if isDead new_group then mret false
        else
          (* Update self state *)
          for_each (adj_friends adj)
            (fun f => set_activeGroups (set_erase Nat.ltb f)) ≫= fun _ =>
          (* Put group on grid *)
          on_mem (alloc new_group) ≫= fun q =>
          set_activeGroups (set_insert Nat.ltb q) ≫= fun _ =>
          for_each (elements (stones new_group))
            (fun p => setGroupPtr p (Some q)) ≫= fun _ =>
          (* Update enemies *)
          for_each (adj_enemies adj) (update_enemy pos) ≫= fun _ =>
          mret true
    end.

(** [Board::clear] *)
Definition clear : M Env unit :=
  modify (fun e =>
    mkEnv (mkBoard (map (map (fun _ => None)) (grid (this e)))
                   (activeGroups (this e)))
          (mem e)).

(** Run a method on a board held in a local variable. *)
Definition on_board {A : Type} (b : Board) (m : M Env A) : M store (A * Board) :=
  fun h =>
    match m (mkEnv b h) with
    | (Ok a, e) => (Ok (a, this e), mem e)
    | (Throw w, e) => (Throw w, mem e)
    | (Undefined, e) => (Undefined, mem e)
    end.

(** The loop of [Board::copy], run on the local [res]: a copy of each
    group is allocated and written to the grid of [res] wherever the group
    has a stone. *)
Definition copy_loop (gs : list ptr) : M Env unit :=
  for_each gs (fun group =>
    on_mem (deref group) ≫= fun og =>
    on_mem (alloc og) ≫= fun cp =>
    for_each (elements (stones og)) (fun p => setGroupPtr p (Some cp))).

(** [Board::copy], a [const] method: it builds and returns [res] and leaves
    [*this] alone.  [res.activeGroups = activeGroups] copies the set of
    pointers, not the objects. *)
Definition copy (b : Board) : M store Board :=
  on_board (mkBoard (grid new_Board) (activeGroups b))
           (copy_loop (activeGroups b)) ≫= fun res =>
  mret (snd res).

(** ** [class Bot]: the analysers *)

(** [Bot::is_point_an_eye].  [board[p]->color] dereferences the cell
    without a null test. *)
Definition cell_color (board : Board) (p : Pos) : M store Color :=
  getGroupPtr board p ≫= fun g =>
  match g with
  | Some q => deref q ≫= fun og => mret (color og)
  | None => undefined
  end.

Definition eye_neighbors (board : Board) (pos : Pos) (c : Color) : M store (option bool) :=
  for_first (neighbors pos) (fun p =>
    if is_pos_valid p then
      cell_color board p ≫= fun pc =>
      if negb (Color_eqb pc c) then mret (Some false) else mret None
    else mret None).

(** The counters of the loop over [pos.corners()]. *)
Record EyeCount : Type := mkEyeCount
  { num_corners : Z; side_corners : Z; is_center_eye : bool }.

Fixpoint eye_corners (board : Board) (c : Color) (ps : list Pos) (k : EyeCount)
    : M store EyeCount :=
  match ps with
  | [] => mret k
  | p :: ps' =>
      (if is_pos_valid p then
         cell_color board p ≫= fun pc =>
         if Color_eqb pc c
         then mret (mkEyeCount (num_corners k + 1) (side_corners k) (is_center_eye k))
         else mret k
       else mret (mkEyeCount (num_corners k) (side_corners k + 1) false))
      ≫= eye_corners board c ps'
  end.

Definition is_point_an_eye (board : Board) (pos : Pos) (c : Color) : M store bool :=
  getGroupPtr board pos ≫= fun g =>
  if non_null g then mret false
  else
    eye_neighbors board pos c ≫= fun r =>
    match r with
    | Some v => mret v
    | None =>
        eye_corners board c (corners pos) (mkEyeCount 0 0 true) ≫= fun k =>
        mret (if is_center_eye k then 3 <=? num_corners k
              else side_corners k + num_corners k =? 4)
    end.

(** [isInAtari(e, t)]: [e.strings] is the board's set of active groups. *)
Definition isInAtari (e : Board) (t : Color) : M store bool :=
  for_first (activeGroups e) (fun r =>
    deref r ≫= fun og =>
    if Color_eqb (color og) t && Nat.eqb (numLiberties og) 1
    then mret (Some true) else mret None) ≫= fun r =>
  mret (default false r).

Module Bot.

Inductive BotLevel : Type := JOKE | EASY | MEDIUM | HARD | CRAZY | DEMON.

(** The members of [class Bot]; [board] is the live board the bot plays
    on, and [bot_color] is the member [color] (the name is taken by the
    member of [_Group]). *)
Record t : Type := mk
  { board : Board;
    bot_color : Color;
    mcts_visits : Z;
    ladder_depth : Z;
    anti_ladder_depth : Z;
    minimax_depth : Z;
    anti_ladder_nearest : bool;
    can_resign : bool;
    minimax_ladder : bool }.

(** The constructor: every member is value-initialised ([{}]) and the
    [switch] then sets the ones of the level. *)
Definition make (level : BotLevel) (c : Color) (b : Board) : t :=
  match level with
  | JOKE => mk b c 5 0 0 0 false false false
  | EASY => mk b c 50 4 4 1 false false false
  | MEDIUM => mk b c 100 6 6 1 false false false
  | HARD => mk b c 100 6 6 1 true true false
  | CRAZY => mk b c 250 10 10 1 true true true
  | DEMON => mk b c 500 10 10 2 true true false
  end.

(** What the untyped analysers hand back. *)
Inductive moves : Type :=
  | JsFalse
  | JsArray (l : list Pos).

Inductive ladder : Type :=
  | LNull
  | LBool (b : bool)
  | LPos (p : Pos).

(** Truthiness, as [if (...)] tests it. *)
Definition truthy (v : ladder) : bool :=
  match v with
  | LNull => false
  | LBool b => b
  | LPos _ => true
  end.

(** How one pass through the nested loops of [find_ladder_move] ends
    early: the function returns, or [l = h; break] leaves both loops.
    [OutOfFuel] is the embedding's own: the recursive call was cut. *)
Inductive ladder_exit : Type :=
  | Returned (v : ladder)
  | Found (h : Pos)
  | OutOfFuel.

Section Analysers.
Variable self : t.

(** Modelled from the spec: [is_move_self_capture] and [is_valid_move]
    are called by the analysers but go.h does not define them.  The
    spec has every analyser work on a disposable copy and never mutate
    the live board, so each is taken as an observation of a board and
    the store, which may itself fail. *)
Variable is_move_self_capture : Board -> Pos -> Color -> store -> result bool.
Variable is_valid_move : Board -> Pos -> Color -> store -> result bool.

Definition observe {A : Type} (f : store -> result A) : M store A :=
  fun h => (f h, h).

(** [i.liberties.first()] *)
Definition first (s : Positions) : M store Pos :=
  match Positions.getAny s with
  | Some p => mret p
  | None => undefined
  end.

(** The loop of [find_anti_capture_moves] from group [i] on, with the
    points collected so far; [None] is [return false]. *)
Fixpoint anti_capture_loop (e : Board) (t : Color) (gs : list ptr) (r : Positions)
    : M store (option Positions) :=
  match gs with
  | [] => mret (Some r)
  | i :: gs' =>
      deref i ≫= fun oi =>
      if Color_eqb (color oi) t && Nat.eqb (numLiberties oi) 1 then
        first (liberties oi) ≫= fun curr =>
        observe (is_move_self_capture (board self) curr t) ≫= fun sc : bool =>
        let after (r1 : Positions) : M store (option Positions) :=
          if can_resign self then
            copy e ≫= fun r' =>
            on_board r' (place_stone t curr) ≫= fun pr =>
            let r' := snd pr in
            isInAtari r' t ≫= fun atari : bool =>
            if atari then mret None else anti_capture_loop e t gs' r1
          else anti_capture_loop e t gs' r1 in
        if sc then
          if can_resign self then mret None else after r
        else after (Positions.add r curr)
      else anti_capture_loop e t gs' r
  end.

Definition find_anti_capture_moves (e : Board) (t : Color) : M store moves :=
  anti_capture_loop e t (activeGroups e) Positions.empty ≫= fun r =>
  match r with
  | None => mret JsFalse
  | Some r => mret (JsArray (elements r))
  end.

(** The first loop of [find_ladder_move]: is an enemy group in atari? *)
Definition enemy_in_atari (e : Board) (t : Color) : M store (option unit) :=
  for_first (activeGroups e) (fun r =>
    deref r ≫= fun og =>
    if negb (Color_eqb (color og) t) && Nat.eqb (numLiberties og) 1
    then mret (Some tt) else mret None).

(** [for (let e of o.strings) ... && (n = e.liberties.first())]: the
    liberty of the last enemy group in atari, [None] for [null]. *)
Fixpoint escape_point (t : Color) (gs : list ptr) (n : option Pos)
    : M store (option Pos) :=
  match gs with
  | [] => mret n
  | g :: gs' =>
      deref g ≫= fun og =>
      if negb (Color_eqb (color og) t) && Nat.eqb (numLiberties og) 1
      then first (liberties og) ≫= fun p => escape_point t gs' (Some p)
      else escape_point t gs' n
  end.

(** The body of the loop over the liberties [h] of a two-liberty enemy
    group; [rec] is the recursive call. *)
Definition ladder_try (rec : Board -> Color -> Z -> bool -> M store (option ladder))
    (e : Board) (t : Color) (r : Z) (i : bool) (h : Pos)
    : M store (option ladder_exit) :=
  observe (is_valid_move e h t) ≫= fun ok : bool =>
  if ok then
    copy e ≫= fun o =>
    on_board o (place_stone t h) ≫= fun pr =>
    let o := snd pr in
    isInAtari o t ≫= fun atari : bool =>
    if negb atari then
      escape_point t (activeGroups o) None ≫= fun n =>
      match n with
      | None => mret (Some (Returned (LBool false)))
      | Some n =>
          on_board o (place_stone (Color_not t) n) ≫= fun pr =>
          let o := snd pr in
          rec o t (r + 1) i ≫= fun res =>
          match res with
          | None => mret (Some OutOfFuel)
          | Some v => if truthy v then mret (Some (Found h)) else mret None
          end
      end
    else mret None
  else mret None.

(** [find_ladder_move(e, t, r, i)].  [fuel] bounds the number of nested
    calls; the result is [None] only when it ran out. *)
Fixpoint find_ladder_move (fuel : nat) (e : Board) (t : Color) (r : Z) (i : bool)
    : M store (option ladder) :=
  match fuel with
  | O => mret None
  | S fuel' =>
      if (if i then r >? anti_ladder_depth self else r >? ladder_depth self)
      then mret (Some LNull)
      else
        enemy_in_atari e t ≫= fun won =>
        match won with
        | Some _ => mret (Some (LBool true))
        | None =>
            for_first (activeGroups e) (fun a =>
              deref a ≫= fun oa =>
              if negb (Color_eqb (color oa) t) && Nat.eqb (numLiberties oa) 2
              then for_first (elements (liberties oa))
                     (ladder_try (find_ladder_move fuel') e t r i)
              else mret None) ≫= fun l =>
            mret (match l with
                  | None => Some LNull
                  | Some (Returned v) => Some v
                  | Some (Found h) => Some (if r =? 1 then LPos h else LBool true)
                  | Some OutOfFuel => None
                  end)
        end
  end.

(** The depth bound [find_ladder_move] tests [r] against. *)
Definition depth_limit (i : bool) : Z :=
  if i then anti_ladder_depth self else ladder_depth self.
End Analysers.

End Bot.

(** ** The board invariant of the data model, as a check *)

Definition all_positions : list Pos :=
  flat_map (fun r => map (fun c => mkPos (Z.of_nat r) (Z.of_nat c))
                         (seq 0 (Z.to_nat size)))
           (seq 0 (Z.to_nat size)).

Definition disjoint (a b : Positions) : bool :=
  forallb (fun p => negb (Positions.has b p)) (elements a).

(** No two groups of the list share a stone. *)
Fixpoint pairwise_disjoint (gs : list _Group) : bool :=
  match gs with
  | [] => true
  | g :: gs' =>
      forallb (fun g' => disjoint (stones g) (stones g')) gs'
      && pairwise_disjoint gs'
  end.

(** Every active group is a live object whose liberties miss its stones and
    whose stones are non-empty; the groups' stones are pairwise disjoint;
    and their union is the set of occupied grid points. *)
Definition board_invariant (e : Env) : bool :=
  match mapM (fun q => mem e !! q) (activeGroups (this e)) with
  | None => false
  | Some gs =>
      forallb (fun g => disjoint (liberties g) (stones g)) gs
      && forallb (fun g => negb (Nat.eqb (Positions.count (stones g)) 0)) gs
      && pairwise_disjoint gs
      && forallb (fun p => implb (non_null (grid_at (this e) p))
                                 (existsb (fun g => Positions.has (stones g) p) gs))
                 all_positions
      && forallb (fun g => forallb (fun p => is_pos_valid p
                                             && non_null (grid_at (this e) p))
                                   (elements (stones g))) gs
  end.

(** ** Positions used in the statements below *)

Module Fixtures.
(** The board on which the groups [gs] stand, group [k] at address [k]. *)
Definition env_of (gs : list _Group) : Env :=
  mkEnv
    (foldl (fun b '(q, g) =>
              foldl (fun b p => grid_put b p (Some q)) b (elements (stones g)))
           (mkBoard (grid new_Board) (seq 0 (length gs)))
           (imap (fun k g => (k, g)) gs))
    gs.

Definition group (c : Color) (st libs : list (Z * Z)) : _Group :=
  mk_Group c (Positions.of_range (map (fun '(r, k) => mkPos r k) st))
             (Positions.of_range (map (fun '(r, k) => mkPos r k) libs)).

Definition empty_env : Env := mkEnv new_Board [].

(** One black stone in the middle of the board. *)
Definition lone_stone : Env :=
  env_of [group BLACK [(4, 4)] [(3, 4); (5, 4); (4, 3); (4, 5)]].

(** Two connected black stones in the corner. *)
Definition black_pair : Env :=
  env_of [group BLACK [(0, 0); (0, 1)] [(1, 0); (1, 1); (0, 2)]].

(** White stones on (0,1) and (1,0), each with (0,0) as its last liberty,
    shut in by black stones on (0,2), (1,1) and (2,0). *)
Definition corner_capture : Env :=
  env_of [group WHITE [(0, 1)] [(0, 0)];
          group WHITE [(1, 0)] [(0, 0)];
          group BLACK [(0, 2)] [(0, 3); (1, 2)];
          group BLACK [(1, 1)] [(1, 2); (2, 1)];
          group BLACK [(2, 0)] [(3, 0); (2, 1)]].

(** Three connected white stones filling the corner. *)
Definition white_corner : Env :=
  env_of [group WHITE [(0, 0); (0, 1); (1, 0)] [(0, 2); (1, 1); (2, 0)]].

(** A black stone on (0,0) in atari: white on (0,1), (1,0) free. *)
Definition black_atari : Env :=
  env_of [group BLACK [(0, 0)] [(1, 0)];
          group WHITE [(0, 1)] [(0, 2); (1, 1)]].
End Fixtures.

(** Modelled from the spec: [is_move_self_capture] is not in go.h.  The
    spec reads it as "the point, once played, yields a still-captured
    group": play the point on a copy and ask whether the colour is still in
    atari.  The copy is a temporary, so only the answer is kept. *)
Definition simulated_self_capture (b : Board) (p : Pos) (c : Color) (h : store)
    : result bool :=
  fst ((copy b ≫= fun o =>
        on_board o (place_stone c p) ≫= fun pr =>
        isInAtari (snd pr) c) h).

(** Modelled from the spec: [is_valid_move] is not in go.h.  The spec
    reads it as "point empty and placing there would not immediately fail
    the suicide check (simulate on a copy)". *)
Definition simulated_valid_move (b : Board) (p : Pos) (c : Color) (h : store)
    : result bool :=
  if is_pos_valid p && negb (non_null (grid_at b p)) then
    fst ((copy b ≫= fun o =>
          on_board o (place_stone c p) ≫= fun pr =>
          mret (fst pr)) h)
  else Ok false.

(** [p] is the one liberty of the group at [q], a group of colour [t] in
    atari. *)
Definition atari_liberty (h : store) (t : Color) (q : ptr) (p : Pos) : Prop :=
  exists g, h !! q = Some g /\ color g = t /\ numLiberties g = 1%nat
            /\ Positions.getAny (liberties g) = Some p.

(** The claim that, resignation switched off, [find_anti_capture_moves]
    collects the liberty of every own group in atari, whatever
    [is_move_self_capture] says of it. *)
Definition collects_every_atari_liberty : Prop :=
  forall (self : Bot.t) (sc : Board -> Pos -> Color -> store -> result bool)
         (e : Board) (t : Color) (h : store) (q : ptr) (p : Pos),
    Bot.can_resign self = false ->
    q ∈ activeGroups e -> atari_liberty h t q p ->
    exists l, fst (Bot.find_anti_capture_moves self sc e t h) = Ok (Bot.JsArray l)
              /\ p ∈ l.

(** ** The suicide rule in the words of the data model *)

(** The group objects on the on-grid neighbours of [pos], and among them
    the friends of a stone of colour [c]. *)
Definition groups_beside (e : Env) (pos : Pos) : list _Group :=
  omap (fun p => if is_pos_valid p
                 then grid_at (this e) p ≫= fun q => mem e !! q
                 else None)
       (neighbors pos).

Definition friends_beside (c : Color) (e : Env) (pos : Pos) : list _Group :=
  filter (fun g => color g = c) (groups_beside e pos).

(** The empty on-grid neighbours of [pos]. *)
Definition free_beside (e : Env) (pos : Pos) : list Pos :=
  filter (fun p => is_pos_valid p = true /\ grid_at (this e) p = None)
         (neighbors pos).

(** The group a stone of colour [c] on [pos] would form with all its
    friends: the union of the stones, and the union of the liberties less
    the combined stones. *)
Definition merged_stones (c : Color) (e : Env) (pos : Pos) : list Pos :=
  pos :: concat (map (fun g => elements (stones g)) (friends_beside c e pos)).

Definition merged_liberties (c : Color) (e : Env) (pos : Pos) : list Pos :=
  filter (fun l => l ∉ merged_stones c e pos)
         (free_beside e pos
          ++ concat (map (fun g => elements (liberties g))
                         (friends_beside c e pos))).

(** The placement leaves the stone and all its friends without a liberty. *)
Definition leaves_no_liberty (c : Color) (pos : Pos) (e : Env) : bool :=
  Nat.eqb (length (merged_liberties c e pos)) 0.

(** A group as the data model has it on the board: it has a liberty, its
    stones are occupied points and its liberties are empty points of the
    grid. *)
Definition group_consistent (b : Board) (g : _Group) : bool :=
  negb (isDead g)
  && forallb (fun s => is_pos_valid s && non_null (grid_at b s))
             (elements (stones g))
  && forallb (fun l => is_pos_valid l && negb (non_null (grid_at b l)))
             (elements (liberties g)).

(** Every stone on the grid belongs to a live group object of that kind. *)
Definition grid_consistent (e : Env) : bool :=
  forallb (fun p => match grid_at (this e) p with
                    | Some q => match mem e !! q with
                                | Some g => group_consistent (this e) g
                                | None => false
                                end
                    | None => true
                    end)
          all_positions.

(** A black stone on (0,1) whose last liberty is the corner (0,0), shut in
    by white stones on (1,0), (0,2) and (1,1). *)
Definition suicide_corner : Env :=
  Fixtures.env_of
    [Fixtures.group BLACK [(0, 1)] [(0, 0)];
     Fixtures.group WHITE [(1, 0)] [(2, 0)];
     Fixtures.group WHITE [(0, 2)] [(0, 3); (1, 2)];
     Fixtures.group WHITE [(1, 1)] [(1, 2); (2, 1)]].

(** ** Further parts of go.h *)

(** The range of a 32-bit [int].  [neighbors], [corners] and [operator+]
    add to the coordinates in [int] arithmetic, which is defined only
    while the sums stay in this range; the embedding adds in [Z].  The
    coordinates of a position [Pos_within k] can be moved by [k] either way
    without leaving the range, so that both additions agree on it. *)
Definition INT_MIN : Z := - 2 ^ 31.
Definition INT_MAX : Z := 2 ^ 31 - 1.

Definition is_int (z : Z) : Prop := INT_MIN <= z <= INT_MAX.

Definition int_Pos (p : Pos) : Prop := is_int (row p) /\ is_int (col p).

Definition Pos_within (k : Z) (p : Pos) : Prop :=
  INT_MIN + k <= row p <= INT_MAX - k /\ INT_MIN + k <= col p <= INT_MAX - k.

(** [Pos::operator+] *)
Definition Pos_plus (p : Pos) (a : Z * Z) : Pos :=
  mkPos (row p + fst a) (col p + snd a).

(** The offset tables [Pos::l1] and [Pos::l2]. *)
Definition l1 : list (Z * Z) :=
  [(-1, -1); (-1, 0); (-1, 1); (0, -1); (0, 1); (1, -1); (1, 0); (1, 1)].

Definition l2 : list (Z * Z) :=
  [(-2, -2); (-2, -1); (-2, 0); (-2, 1); (-2, 2);
   (-1, -2); (-1, -1); (-1, 0); (-1, 1); (-1, 2);
   (0, -2); (0, -1); (0, 1); (0, 2);
   (1, -2); (1, -1); (1, 0); (1, 1); (1, 2);
   (2, -2); (2, -1); (2, 0); (2, 1); (2, 2)].

(** [locality] and [locality2]: [res[i] = *this + l[i]] for every offset of
    the table. *)
Definition locality (p : Pos) : list Pos := map (Pos_plus p) l1.

Definition locality2 (p : Pos) : list Pos := map (Pos_plus p) l2.

(** What [std::set<Pos>] keeps of its elements: strictly increasing in the
    order of [operator<=>]. *)
Definition ordered (l : list Pos) : Prop :=
  StronglySorted (fun a b => Pos_ltb a b = true) l.

(** [Positions::operator+]: the elements are copied, those of [other] are
    inserted, and the result is built from the merged set by the range
    constructor. *)
Definition Positions_plus (s other : Positions) : Positions :=
  Positions.of_range
    (foldl (fun merged i => set_insert Pos_ltb i merged) (elements s)
           (elements other)).

(** [_Group::operator+]: [res = *this; res += other; return res;] *)
Definition Group_plus (g other : _Group) : result _Group :=
  match Group_iadd other g with
  | (Ok _, res) => Ok res
  | (Throw w, _) => Throw w
  | (Undefined, _) => Undefined
  end.

(** The grid has the shape its C++ type gives it: nine rows of nine
    cells. *)
Definition grid_shape (b : Board) : Prop :=
  length (grid b) = Z.to_nat size
  /\ Forall (fun r => length r = Z.to_nat size) (grid b).

Section Capture.
(** Modelled from the spec: [is_move_violates_ko] is called by
    [find_capture_moves] but go.h does not define it; it is taken as an
    observation of a board and the store. *)
Variable is_move_violates_ko : Board -> Pos -> Color -> store -> result bool.

(** The loop of [find_capture_moves] from group [i] on, with the points
    collected so far. *)
Fixpoint capture_loop (e : Board) (t : Color) (gs : list ptr) (r : Positions)
    : M store Positions :=
  match gs with
  | [] => mret r
  | i :: gs' =>
      deref i ≫= fun oi =>
      if negb (Color_eqb (color oi) t) && Nat.eqb (numLiberties oi) 1 then
        Bot.first (liberties oi) ≫= fun curr =>
        Bot.observe (is_move_violates_ko e curr t) ≫= fun ko : bool =>
        if ko then capture_loop e t gs' r
        else capture_loop e t gs' (Positions.add r curr)
      else capture_loop e t gs' r
  end.

Definition find_capture_moves (e : Board) (t : Color) : M store (list Pos) :=
  capture_loop e t (activeGroups e) Positions.empty ≫= fun r =>
  mret (elements r).
End Capture.

(** A group of colour [t] at [q] has exactly one liberty. *)
Definition in_atari (h : store) (t : Color) (q : ptr) : Prop :=
  exists g, h !! q = Some g /\ color g = t /\ numLiberties g = 1%nat.

(** ** Predicates used in the further properties *)

(** A computation that never ends in a thrown exception. *)
Definition never_throws {S A : Type} (m : M S A) : Prop :=
  forall s w, fst (m s) <> Throw w.

(** A computation that can only end in the value [v] or in undefined
    behaviour. *)
Definition only {S A : Type} (v : A) (m : M S A) : Prop :=
  forall s, fst (m s) = Ok v \/ fst (m s) = Undefined.

(** Partial correctness: if [m] ends normally from [s], its value and
    final state satisfy [Q]. *)
Definition post {S A : Type} (m : M S A) (s : S) (Q : A -> S -> Prop) : Prop :=
  match m s with
  | (Ok a, s') => Q a s'
  | _ => True
  end.

(** [q] is the group on an on-grid point of [ps]. *)
Definition group_beside (b : Board) (ps : list Pos) (q : ptr) : Prop :=
  exists p, p ∈ ps /\ is_pos_valid p = true /\ grid_at b p = Some q.

(** What a placement of [c] on [pos] may do to the objects of the store:
    nothing to a group of colour [c]; of any other group only the liberty
    [pos] can go.  The store keeps an object at its address also after the
    program has released it. *)
Definition store_frame (c : Color) (pos : Pos) (h h' : store) : Prop :=
  (length h <= length h')%nat
  /\ forall q g, h !! q = Some g ->
       exists g', h' !! q = Some g'
                  /\ color g' = color g /\ stones g' = stones g
                  /\ (liberties g' = liberties g
                      \/ (color g <> c
                          /\ liberties g' = snd (Positions.remove (liberties g) pos))).

(** The board still points to the object at [q], from its active set or
    from a cell of its grid: the program has not released that object. *)
Definition referenced (b : Board) (q : ptr) : Prop :=
  q ∈ activeGroups b
  \/ exists p, is_pos_valid p = true /\ grid_at b p = Some q.

(** The new object is in the store and in the active set. *)
Definition registered (n : nat) (g : _Group) (s : Env) : Prop :=
  mem s !! n = Some g /\ length (mem s) = S n /\ n ∈ activeGroups (this s).

(** A group object whose stones are all on the grid lives at [q]. *)
Definition on_grid_group (h : store) (q : ptr) : Prop :=
  exists g, h !! q = Some g
            /\ forall p, p ∈ elements (stones g) -> is_pos_valid p = true.

(** The cells of [b] point into the objects [objs] laid out from address
    [base] on: a cell holds the address of an object that has the point
    among its stones, and is null only if no object has it. *)
Definition cells_mirror (base : nat) (objs : list _Group) (b : Board) : Prop :=
  forall p, is_pos_valid p = true ->
    match grid_at b p with
    | Some q' => exists k g, q' = (base + k)%nat /\ objs !! k = Some g
                              /\ p ∈ elements (stones g)
    | None => forall g, g ∈ objs -> p ∉ elements (stones g)
    end.

(** The colour of the stone on [p], if the cell holds a live group. *)
Definition stone_of (b : Board) (h : store) (p : Pos) : option Color :=
  match grid_at b p with
  | Some q => color <$> h !! q
  | None => None
  end.

(** Among [ps]: the on-grid points with a stone of colour [c], and the
    points off the grid. *)
Definition own_corners (b : Board) (h : store) (c : Color) (ps : list Pos) : nat :=
  length (filter (fun p => is_pos_valid p = true /\ stone_of b h p = Some c) ps).

Definition off_corners (b : Board) (ps : list Pos) : nat :=
  length (filter (fun p => is_pos_valid p = false) ps).

(** The test [is_point_an_eye] makes of one neighbour: [Some false] is
    [return false]. *)
Definition eye_neighbor_test (b : Board) (c : Color) (p : Pos)
    : M store (option bool) :=
  if is_pos_valid p then
    cell_color b p ≫= fun pc =>
    if negb (Color_eqb pc c) then mret (Some false) else mret None
  else mret None.

(** The states a program gets to from a fresh board and an empty store by
    calling [place_stone], [clear] and [copy]. *)
Inductive reachable : Env -> Prop :=
  | reach_new : reachable (mkEnv new_Board [])
  | reach_place_stone (c : Color) (pos : Pos) (e : Env) :
      reachable e -> reachable (snd (place_stone c pos e))
  | reach_clear (e : Env) :
      reachable e -> reachable (snd (clear e))
  | reach_copy (e : Env) (res : Board) (h' : store) :
      reachable e -> copy (this e) (mem e) = (Ok res, h') ->
      reachable (mkEnv res h').

Module Samples.
(** The set {(0,1), (2,3)} and the set {(1,1), (2,3)}. *)
Definition two_points : Positions := Positions.of_range [mkPos 2 3; mkPos 0 1].
Definition other_points : Positions := Positions.of_range [mkPos 1 1; mkPos 2 3].

(** Black stones on (0,1), (1,0) and (1,1) around the empty corner. *)
Definition corner_eye : Env :=
  Fixtures.env_of
    [Fixtures.group BLACK [(0, 1); (1, 0); (1, 1)]
       [(0, 0); (0, 2); (1, 2); (2, 0); (2, 1)]].
End Samples.

Ltac munfold :=
  unfold mbind, M_mbind, M_bind, mret, M_ret, get, gets, put, modify,
    throw, undefined, on_mem, Bot.observe in *.

(** * Properties *)

(** ** The monad's loops *)

Section Loops.
Context {S A : Type}.

(** A property of the state that every iteration keeps is kept by the
    loop, whatever the loop ends in. *)
Lemma for_each_preserves (P : S -> Prop) (body : A -> M S unit) (l : list A) :
  (forall x s, P s -> P (snd (body x s))) ->
  forall s, P s -> P (snd (for_each l body s)).
Proof.
  intros Hbody. induction l as [|x l IH]; intros s Hs; simpl; [exact Hs|].
  munfold. specialize (Hbody x s Hs).
  destruct (body x s) as [[u|w|] s']; simpl in *; auto.
Qed.

Lemma for_first_ext {R : Type} (f g : A -> M S (option R)) (l : list A) :
  (forall x s, f x s = g x s) ->
  forall s, for_first l f s = for_first l g s.
Proof.
  intros Hfg. induction l as [|x l IH]; intros s; simpl; [reflexivity|].
  munfold. rewrite Hfg.
  destruct (g x s) as [[[v|]|w|] s']; auto.
Qed.

(** A value the body never produces is not produced by the loop. *)
Lemma for_first_avoids {R : Type} (bad : R) (f : A -> M S (option R)) (l : list A) :
  (forall x s, fst (f x s) <> Ok (Some bad)) ->
  forall s, fst (for_first l f s) <> Ok (Some bad).
Proof.
  intros Hf. induction l as [|x l IH]; intros s; simpl; [discriminate|].
  munfold. specialize (Hf x s).
  destruct (f x s) as [[[v|]|w|] s']; simpl in *; auto; discriminate.
Qed.
End Loops.

(** ** Grid access *)

Lemma grid_at_new_Board (p : Pos) : grid_at new_Board p = None.
Proof.
  unfold grid_at.
  destruct (grid new_Board !! Z.to_nat (row p)) as [r|] eqn:Hr;
    [|reflexivity].
  unfold new_Board in Hr; cbn [grid] in Hr.
  apply lookup_replicate in Hr as [-> _].
  cbn [mbind option_bind].
  destruct (_ !! Z.to_nat (col p)) as [x|] eqn:Hx; [|reflexivity].
  apply lookup_replicate in Hx as [-> _]. reflexivity.
Qed.

(** ** [Board::place_stone] *)

(** The guard of line 198 sends back [false], before anything is touched,
    for a point off the grid and for a point whose cell is null. *)
Lemma place_stone_guard (c : Color) (pos : Pos) (e : Env) :
  is_pos_valid pos = false \/ grid_at (this e) pos = None ->
  place_stone c pos e = (Ok false, e).
Proof.
  intros H. unfold place_stone. munfold.
  destruct H as [-> | ->]; simpl; [reflexivity|].
  rewrite orb_true_r. reflexivity.
Qed.

(** Starting from the empty board no stone can be placed at all. *)
Lemma place_stone_new_Board (c : Color) (pos : Pos) (h : store) :
  place_stone c pos (mkEnv new_Board h) = (Ok false, mkEnv new_Board h).
Proof. apply place_stone_guard. right. apply grid_at_new_Board. Qed.

(** C1 (the code departs from the claim).  On the empty board the point
    (0,0) is on the grid and empty, yet [place_stone] returns [false] and
    changes nothing; on the board with one black stone the occupied point
    (4,4) is accepted: [place_stone] returns [true] and the board is
    changed.  The guard tests for a null cell where it should test for a
    non-null one. *)
Theorem place_stone_guard_inverted :
  is_pos_valid (mkPos 0 0) = true
  /\ grid_at (this Fixtures.empty_env) (mkPos 0 0) = None
  /\ place_stone BLACK (mkPos 0 0) Fixtures.empty_env = (Ok false, Fixtures.empty_env)
  /\ grid_at (this Fixtures.lone_stone) (mkPos 4 4) = Some 0%nat
  /\ fst (place_stone WHITE (mkPos 4 4) Fixtures.lone_stone) = Ok true
  /\ snd (place_stone WHITE (mkPos 4 4) Fixtures.lone_stone) <> Fixtures.lone_stone.
Proof. repeat split; try (vm_compute; reflexivity). vm_compute. discriminate. Qed.

(** C2 (the code departs from the claim).  Two connected black stones
    stand on (0,0) and (0,1); a black placement on the occupied point (0,0)
    finds the group as an adjacent friend, and the merge throws
    [std::invalid_argument] out of [place_stone] instead of the call
    returning [false].  The board is left as it was. *)
Theorem place_stone_throws_on_friend :
  place_stone BLACK (mkPos 0 0) Fixtures.black_pair
  = (Throw "Cannot merge groups of different colors", Fixtures.black_pair).
Proof. vm_compute. reflexivity. Qed.



(** On a board that is set up directly, not through those three calls, a
    stone can be placed on a stone: with one black stone on (4,4) a white
    placement on that point succeeds, and the invariant, true before, is
    broken after it. *)
Lemma place_stone_on_stone_breaks_invariant :
  board_invariant Fixtures.lone_stone = true
  /\ fst (place_stone WHITE (mkPos 4 4) Fixtures.lone_stone) = Ok true
  /\ board_invariant (snd (place_stone WHITE (mkPos 4 4) Fixtures.lone_stone)) = false.
Proof. repeat split; vm_compute; reflexivity. Qed.

(** C4 (the code departs from the claim).  Black to play (0,0): the white
    stones on (0,1) and (1,0) each have (0,0) as their only liberty, so the
    move captures both, while the black stone itself gets no liberty of its
    own.  [place_stone] returns [false] and leaves both white groups on the
    board. *)
Theorem place_stone_rejects_capture :
  board_invariant Fixtures.corner_capture = true
  /\ (liberties <$> mem Fixtures.corner_capture !! 0%nat)
     = Some (Positions.of_range [mkPos 0 0])
  /\ (liberties <$> mem Fixtures.corner_capture !! 1%nat)
     = Some (Positions.of_range [mkPos 0 0])
  /\ place_stone BLACK (mkPos 0 0) Fixtures.corner_capture
     = (Ok false, Fixtures.corner_capture).
Proof. repeat split; vm_compute; reflexivity. Qed.

(** ** [Board::clear] *)

(** C10.  [clear] nulls every cell of the grid and touches nothing else:
    the set of active groups and the group objects are what they were. *)
Theorem clear_keeps_activeGroups (e : Env) :
  exists e',
    clear e = (Ok tt, e')
    /\ (forall p, grid_at (this e') p = None)
    /\ Forall (Forall (fun g => g = None)) (grid (this e'))
    /\ length (grid (this e')) = length (grid (this e))
    /\ activeGroups (this e') = activeGroups (this e)
    /\ mem e' = mem e.
Proof.
  eexists. split; [reflexivity|]. cbn [this mem grid activeGroups].
  assert (Hall : Forall (Forall (fun g : Group => g = None))
                   (map (map (fun _ : Group => @None ptr)) (grid (this e)))).
  { apply Forall_forall. intros r Hr.
    apply list_elem_of_In, in_map_iff in Hr as (r0 & <- & _).
    apply Forall_forall. intros g Hg.
    apply list_elem_of_In, in_map_iff in Hg as (g0 & <- & _). reflexivity. }
  repeat split; [|exact Hall|apply length_map].
  intros p. unfold grid_at. cbn [grid].
  destruct (_ !! Z.to_nat (row p)) as [r|] eqn:Hr; [|reflexivity].
  cbn [mbind option_bind].
  destruct (r !! Z.to_nat (col p)) as [g|] eqn:Hg; [|reflexivity].
  cbn [default].
  eapply Forall_lookup_1 in Hall; [|exact Hr].
  eapply Forall_lookup_1 in Hall; [|exact Hg]. exact Hall.
Qed.

(** ** [Board::copy] *)

Section Preservation.
Context {S : Type} (P : S -> Prop).

Lemma bind_preserves {A B : Type} (m : M S A) (f : A -> M S B) (s : S) :
  P (snd (m s)) -> (forall a s', P s' -> P (snd (f a s'))) ->
  P (snd ((m ≫= f) s)).
Proof.
  intros Hm Hf. munfold. destruct (m s) as [[a|w|] s']; simpl in *; auto.
Qed.
End Preservation.

Lemma on_mem_this {A : Type} (m : M store A) (e : Env) :
  this (snd (on_mem m e)) = this e.
Proof. unfold on_mem. destruct (m (mem e)). reflexivity. Qed.

Lemma setGroupPtr_activeGroups (p : Pos) (g : Group) (e : Env) :
  activeGroups (this (snd (setGroupPtr p g e))) = activeGroups (this e).
Proof. unfold setGroupPtr. destruct (is_pos_valid p); reflexivity. Qed.

Lemma copy_loop_activeGroups (gs : list ptr) (e : Env) :
  activeGroups (this (snd (copy_loop gs e))) = activeGroups (this e).
Proof.
  unfold copy_loop.
  apply (for_each_preserves (fun e' => activeGroups (this e') = activeGroups (this e)));
    [|reflexivity].
  intros g s Hs.
  apply bind_preserves; [rewrite on_mem_this; exact Hs|]. intros og s1 Hs1.
  apply bind_preserves; [rewrite on_mem_this; exact Hs1|]. intros cp s2 Hs2.
  apply for_each_preserves; [|exact Hs2].
  intros p s3 Hs3. rewrite setGroupPtr_activeGroups. exact Hs3.
Qed.

(** Whatever the board, the copy's set of active groups is the original's
    set of pointers. *)
Lemma copy_activeGroups (b res : Board) (h h' : store) :
  copy b h = (Ok res, h') -> activeGroups res = activeGroups b.
Proof.
  unfold copy, on_board. munfold.
  pose proof (copy_loop_activeGroups (activeGroups b)
                (mkEnv (mkBoard (grid new_Board) (activeGroups b)) h)) as Hl.
  destruct (copy_loop _ _) as [[u|w|] e']; simpl in *; intros H;
    inversion H; subst. exact Hl.
Qed.

(** C3 (the code departs from the claim).  Copying the board with one black
    stone gives a board whose grid points to a fresh object (address 1)
    but whose set of active groups still holds the original's object
    (address 0): a write through the copy's active group is a write to the
    group the original board has on (4,4). *)
Theorem copy_shares_active_groups :
  exists (res : Board) (h' h'' : store),
    copy (this Fixtures.lone_stone) (mem Fixtures.lone_stone) = (Ok res, h')
    /\ grid_at (this Fixtures.lone_stone) (mkPos 4 4) = Some 0%nat
    /\ activeGroups (this Fixtures.lone_stone) = [0%nat]
    /\ grid_at res (mkPos 4 4) = Some 1%nat
    /\ activeGroups res = [0%nat]
    /\ update 0%nat (fun g => mk_Group (color g) (stones g) Positions.empty) h'
       = (Ok tt, h'')
    /\ (liberties <$> mem Fixtures.lone_stone !! 0%nat)
       = Some (Positions.of_range [mkPos 3 4; mkPos 4 3; mkPos 4 5; mkPos 5 4])
    /\ (liberties <$> h'' !! 0%nat) = Some Positions.empty.
Proof.
  do 3 eexists. repeat split; vm_compute; reflexivity.
Qed.

(** ** [Bot::is_point_an_eye] *)

(** An empty left-hand neighbour on the grid is dereferenced. *)
Lemma is_point_an_eye_null_deref (b : Board) (pos : Pos) (c : Color) (h : store) :
  is_pos_valid pos = true -> grid_at b pos = None ->
  is_pos_valid (mkPos (row pos) (col pos - 1)) = true ->
  grid_at b (mkPos (row pos) (col pos - 1)) = None ->
  is_point_an_eye b pos c h = (Undefined, h).
Proof.
  intros Hv He Hv' He'.
  unfold is_point_an_eye, eye_neighbors, neighbors, cell_color, getGroupPtr.
  munfold. rewrite Hv, He. cbn [non_null for_first]. munfold.
  rewrite Hv', He'. reflexivity.
Qed.

(** C5 (the code departs from the claim).  On the empty board the point
    (4,4) is empty and so are its neighbours; the first neighbour test
    dereferences the null cell (4,3), which is undefined behaviour, not
    the answer [false].  Next to a friendly stone it is the same: the
    neighbour (4,4) of (4,5) is black, the next one, (4,6), is null. *)
Theorem is_point_an_eye_null_neighbor :
  is_point_an_eye new_Board (mkPos 4 4) BLACK [] = (Undefined, [])
  /\ is_point_an_eye (this Fixtures.lone_stone) (mkPos 4 5) BLACK
       (mem Fixtures.lone_stone)
     = (Undefined, mem Fixtures.lone_stone).
Proof. split; vm_compute; reflexivity. Qed.

(** ** The classification loop and the suicide check *)

Lemma classify_step_state (c : Color) (p : Pos) (acc : Adjacent) (e : Env) :
  snd (classify_step c p acc e) = e.
Proof.
  destruct e as [b h]. unfold classify_step, deref. munfold.
  destruct (is_pos_valid p); [|reflexivity]. cbn [this mem].
  destruct (grid_at b p) as [q|]; [|reflexivity]. cbn [this mem].
  destruct (h !! q) as [og|]; [|reflexivity].
  destruct (Color_eqb (color og) c); reflexivity.
Qed.

Lemma classify_loop_state (c : Color) (ps : list Pos) (acc : Adjacent) (e : Env) :
  snd (classify_loop c ps acc e) = e.
Proof.
  revert acc. induction ps as [|p ps IH]; intros acc; simpl; [reflexivity|].
  munfold. pose proof (classify_step_state c p acc e) as Hs.
  destruct (classify_step c p acc e) as [[a|w|] e1]; simpl in Hs; subst;
    [apply IH|reflexivity|reflexivity].
Qed.

Lemma classify_state (c : Color) (pos : Pos) (e : Env) (adj : Adjacent) (e1 : Env) :
  classify c pos e = (Ok adj, e1) -> e1 = e.
Proof.
  intros H. pose proof (classify_loop_state c (neighbors pos)
                          (mkAdjacent [] [] Positions.empty) e) as Hs.
  unfold classify in H. rewrite H in Hs. exact Hs.
Qed.

(** When the suicide check of line 215 is reached with a group that has
    no liberty, [place_stone] returns [false] and nothing has been
    touched. *)
Lemma place_stone_dead_group
    (c : Color) (pos : Pos) (e e1 : Env) (adj : Adjacent) (g : _Group) :
  classify c pos e = (Ok adj, e1) ->
  merge_friends (mem e) (adj_friends adj)
    (singleton_Group c pos (newLiberties adj)) = (Ok tt, g) ->
  isDead g = true ->
  place_stone c pos e = (Ok false, e).
Proof.
  intros Hcl Hmerge Hdead.
  pose proof (classify_state _ _ _ _ _ Hcl) as ->.
  unfold place_stone. munfold.
  destruct (negb (is_pos_valid pos) || negb (non_null (grid_at (this e) pos)));
    [reflexivity|].
  rewrite Hcl, Hmerge, Hdead. reflexivity.
Qed.

(** ** Membership in a [std::set] of positions *)

Lemma Pos_ltb_total (x y : Pos) :
  Pos_ltb x y = false -> Pos_ltb y x = false -> x = y.
Proof.
  destruct x as [r1 c1], y as [r2 c2]. unfold Pos_ltb. cbn [row col].
  intros H1 H2.
  apply orb_false_iff in H1 as [H1 H1'], H2 as [H2 H2'].
  apply Z.ltb_ge in H1, H2.
  assert (r1 = r2) as -> by lia.
  rewrite Z.eqb_refl in H1', H2'. cbn [andb] in H1', H2'.
  apply Z.ltb_ge in H1', H2'. f_equal. lia.
Qed.

Lemma elem_of_set_insert (x p : Pos) (l : list Pos) :
  p ∈ set_insert Pos_ltb x l <-> p = x \/ p ∈ l.
Proof.
  induction l as [|y l IH]; simpl.
  - rewrite list_elem_of_singleton. rewrite elem_of_nil. tauto.
  - destruct (Pos_ltb x y) eqn:Hxy.
    + rewrite elem_of_cons. tauto.
    + destruct (Pos_ltb y x) eqn:Hyx.
      * rewrite !elem_of_cons, IH. tauto.
      * pose proof (Pos_ltb_total _ _ Hxy Hyx) as ->.
        rewrite elem_of_cons. tauto.
Qed.

Lemma classify_loop_liberties (c : Color) (ps : list Pos) (acc adj : Adjacent) (e e1 : Env) :
  classify_loop c ps acc e = (Ok adj, e1) ->
  forall p, p ∈ elements (newLiberties adj) ->
    p ∈ elements (newLiberties acc)
    \/ (p ∈ ps /\ is_pos_valid p = true /\ grid_at (this e) p = None).
Proof.
  revert acc. induction ps as [|x ps IH]; intros acc H p Hp; simpl in H.
  - munfold. inversion H; subst. left. exact Hp.
  - munfold. pose proof (classify_step_state c x acc e) as Hs.
    destruct (classify_step c x acc e) as [[a|w|] e2] eqn:Hstep; simpl in Hs;
      subst; try discriminate.
    destruct (IH _ H p Hp) as [Hin | (Hin & Hv & Hg)].
    + revert Hstep. destruct e as [b h]. unfold classify_step, deref. munfold.
      destruct (is_pos_valid x) eqn:Hvx; cbn [this mem].
      * destruct (grid_at b x) as [q|] eqn:Hgx; cbn [this mem].
        -- destruct (h !! q) as [og|]; [|discriminate].
           destruct (Color_eqb (color og) c); intros Heq; inversion Heq; subst;
             left; exact Hin.
        -- intros Heq; inversion Heq; subst. cbn [newLiberties Positions.add elements] in Hin.
           apply elem_of_set_insert in Hin as [-> | Hin]; [|left; exact Hin].
           right. rewrite elem_of_cons. auto.
      * intros Heq; inversion Heq; subst. left; exact Hin.
    + right. rewrite elem_of_cons. auto.
Qed.

(** The merge loop ends normally only when there is no friend to merge. *)
Lemma merge_friends_Ok (h : store) (friends : list ptr) (g g' : _Group) :
  merge_friends h friends g = (Ok tt, g') -> friends = [] /\ g' = g.
Proof.
  destruct friends as [|f fs]; simpl; munfold.
  - intros H; inversion H; auto.
  - destruct (h !! f) as [og|]; [|discriminate].
    unfold Group_iadd. munfold.
    destruct (Color_eqb (color g) (color og)); discriminate.
Qed.

(** Past the guard, one adjacent friend is enough for the call to throw;
    the board is as it was. *)
Lemma place_stone_friend_throws
    (c : Color) (pos : Pos) (e e1 : Env) (adj : Adjacent) (f : ptr) (fs : list ptr)
    (og : _Group) :
  is_pos_valid pos = true -> non_null (grid_at (this e) pos) = true ->
  classify c pos e = (Ok adj, e1) ->
  adj_friends adj = f :: fs -> mem e !! f = Some og ->
  place_stone c pos e = (Throw "Cannot merge groups of different colors", e).
Proof.
  intros Hv Hocc Hcl Hfr Hog.
  pose proof (classify_state _ _ _ _ _ Hcl) as ->.
  unfold place_stone. munfold. rewrite Hv, Hocc. cbn [negb orb].
  rewrite Hcl, Hfr. cbn [merge_friends]. rewrite Hog.
  unfold Group_iadd. munfold.
  destruct (Color_eqb _ _); reflexivity.
Qed.

(** A placement is accepted only if the point has an empty neighbour on
    the grid, whatever the move would capture: the liberties counted by
    the suicide check are those of the position before the enemy loop. *)
Lemma place_stone_needs_liberty (c : Color) (pos : Pos) (e e' : Env) :
  place_stone c pos e = (Ok true, e') ->
  exists p, p ∈ neighbors pos /\ is_pos_valid p = true /\ grid_at (this e) p = None.
Proof.
  unfold place_stone. munfold.
  destruct (negb (is_pos_valid pos) || negb (non_null (grid_at (this e) pos)));
    [discriminate|].
  destruct (classify c pos e) as [[adj|w|] e1] eqn:Hcl; try discriminate.
  pose proof (classify_state _ _ _ _ _ Hcl) as ->.
  destruct (merge_friends _ _ _) as [[[]|w|] g] eqn:Hm; try discriminate.
  apply merge_friends_Ok in Hm as [_ ->].
  destruct (isDead _) eqn:Hdead; [discriminate|]. intros _.
  unfold isDead, numLiberties, Positions.count, singleton_Group in Hdead.
  cbn [liberties] in Hdead.
  destruct (elements (newLiberties adj)) as [|p l] eqn:Hl; [discriminate|].
  exists p.
  destruct (classify_loop_liberties _ _ _ _ _ _ Hcl p) as [Hin | H].
  - rewrite Hl. apply elem_of_cons. auto.
  - cbn in Hin. apply elem_of_nil in Hin. contradiction.
  - exact H.
Qed.

(** ** [find_anti_capture_moves] *)

Lemma anti_capture_loop_no_resign
    (self : Bot.t) (sc : Board -> Pos -> Color -> store -> result bool)
    (e : Board) (t : Color) (h : store) (gs : list ptr) (r : Positions) :
  Bot.can_resign self = false ->
  (forall q, q ∈ gs -> is_Some (h !! q)) ->
  (forall q p, q ∈ gs -> atari_liberty h t q p ->
     exists v, sc (Bot.board self) p t h = Ok v) ->
  exists r',
    Bot.anti_capture_loop self sc e t gs r h = (Ok (Some r'), h)
    /\ forall p, p ∈ elements r' <->
         p ∈ elements r
         \/ exists q, q ∈ gs /\ atari_liberty h t q p
                      /\ sc (Bot.board self) p t h = Ok false.
Proof.
  intros Hres. revert r. induction gs as [|i gs IH]; intros r Hlive Hans.
  - exists r. split; [reflexivity|]. intros p. split; [auto|].
    intros [H | (q & Hq & _)]; [exact H|]. apply elem_of_nil in Hq. contradiction.
  - destruct (Hlive i) as [oi Hoi]; [apply elem_of_cons; auto|].
    assert (Hlive' : forall q, q ∈ gs -> is_Some (h !! q)).
    { intros q Hq. apply Hlive. apply elem_of_cons. auto. }
    assert (Hans' : forall q p, q ∈ gs -> atari_liberty h t q p ->
                      exists v, sc (Bot.board self) p t h = Ok v).
    { intros q p Hq. apply Hans. apply elem_of_cons. auto. }
    cbn [Bot.anti_capture_loop]. unfold deref. munfold. rewrite Hoi.
    destruct (Color_eqb (color oi) t && Nat.eqb (numLiberties oi) 1) eqn:Hc.
    + apply andb_true_iff in Hc as [Hcol Hn].
      apply bool_decide_eq_true in Hcol. apply Nat.eqb_eq in Hn.
      unfold Bot.first.
      destruct (Positions.getAny (liberties oi)) as [curr|] eqn:Hany.
      2:{ unfold numLiberties, Positions.count in Hn. unfold Positions.getAny in Hany.
          destruct (elements (liberties oi)); discriminate. }
      assert (Hal : atari_liberty h t i curr) by (exists oi; auto).
      destruct (Hans i curr) as [v Hv]; [apply elem_of_cons; auto|exact Hal|].
      munfold. rewrite Hv, Hres.
      assert (Huniq : forall p, atari_liberty h t i p -> p = curr).
      { intros p (g & Hg & _ & _ & Hp). rewrite Hoi in Hg. inversion Hg; subst.
        rewrite Hany in Hp. inversion Hp; reflexivity. }
      destruct v.
      * destruct (IH r Hlive' Hans') as (r' & Hrun & Hr').
        exists r'. split; [exact Hrun|]. intros p. rewrite Hr'. split.
        -- intros [H | (q & Hq & Hrest)]; [left; exact H|].
           right. exists q. split; [apply elem_of_cons; auto|exact Hrest].
        -- intros [H | (q & Hq & Ha & Hs)]; [left; exact H|].
           apply elem_of_cons in Hq as [-> | Hq].
           ++ rewrite (Huniq p Ha) in Hs. congruence.
           ++ right. exists q. auto.
      * destruct (IH (Positions.add r curr) Hlive' Hans') as (r' & Hrun & Hr').
        exists r'. split; [exact Hrun|]. intros p. rewrite Hr'.
        cbn [Positions.add elements]. rewrite elem_of_set_insert. split.
        -- intros [[-> | H] | (q & Hq & Hrest)].
           ++ right. exists i. split; [apply elem_of_cons; auto|]. auto.
           ++ left; exact H.
           ++ right. exists q. split; [apply elem_of_cons; auto|exact Hrest].
        -- intros [H | (q & Hq & Ha & Hs)]; [left; right; exact H|].
           apply elem_of_cons in Hq as [-> | Hq].
           ++ left; left. exact (Huniq p Ha).
           ++ right. exists q. auto.
    + destruct (IH r Hlive' Hans') as (r' & Hrun & Hr').
      exists r'. split; [exact Hrun|]. intros p. rewrite Hr'. split.
      * intros [H | (q & Hq & Hrest)]; [left; exact H|].
        right. exists q. split; [apply elem_of_cons; auto|exact Hrest].
      * intros [H | (q & Hq & Ha & Hs)]; [left; exact H|].
        apply elem_of_cons in Hq as [-> | Hq]; [|right; exists q; auto].
        destruct Ha as (g & Hg & Hcol & Hn & _). rewrite Hoi in Hg.
        inversion Hg; subst g.
        apply andb_false_iff in Hc as [Hc | Hc].
        -- apply bool_decide_eq_false in Hc. contradiction.
        -- apply Nat.eqb_neq in Hc. contradiction.
Qed.

(** C8 (amended).  With resignation switched off, [find_anti_capture_moves]
    never answers [false]: it returns an array, and a point is in the array
    exactly when it is the one liberty of an own group in atari for which
    [is_move_self_capture] answers no.  A point whose occupation would be a
    self-capture is skipped, not collected.  The premises: resignation is
    off, every active group is a live object, and [is_move_self_capture]
    answers at those liberties. *)
Theorem anti_capture_without_resign
    (self : Bot.t) (sc : Board -> Pos -> Color -> store -> result bool)
    (e : Board) (t : Color) (h : store) :
  Bot.can_resign self = false ->
  (forall q, q ∈ activeGroups e -> is_Some (h !! q)) ->
  (forall q p, q ∈ activeGroups e -> atari_liberty h t q p ->
     exists v, sc (Bot.board self) p t h = Ok v) ->
  exists l,
    Bot.find_anti_capture_moves self sc e t h = (Ok (Bot.JsArray l), h)
    /\ forall p, p ∈ l <->
         exists q, q ∈ activeGroups e /\ atari_liberty h t q p
                   /\ sc (Bot.board self) p t h = Ok false.
Proof.
  intros Hres Hlive Hans.
  destruct (anti_capture_loop_no_resign self sc e t h (activeGroups e)
              Positions.empty Hres Hlive Hans) as (r' & Hrun & Hr').
  exists (elements r'). unfold Bot.find_anti_capture_moves. munfold.
  rewrite Hrun. split; [reflexivity|]. intros p. rewrite Hr'.
  cbn. rewrite elem_of_nil. tauto.
Qed.

(** One black stone in atari, at the JOKE level: the premises hold, and the
    array is empty, the liberty (1,0) being judged a self-capture. *)
Lemma anti_capture_without_resign_witness :
  Bot.can_resign (Bot.make Bot.JOKE BLACK (this Fixtures.black_atari)) = false
  /\ exists l,
       Bot.find_anti_capture_moves
         (Bot.make Bot.JOKE BLACK (this Fixtures.black_atari))
         simulated_self_capture (this Fixtures.black_atari) BLACK
         (mem Fixtures.black_atari)
       = (Ok (Bot.JsArray l), mem Fixtures.black_atari)
       /\ forall p, p ∈ l <->
            exists q, q ∈ activeGroups (this Fixtures.black_atari)
                      /\ atari_liberty (mem Fixtures.black_atari) BLACK q p
                      /\ simulated_self_capture (this Fixtures.black_atari) p BLACK
                           (mem Fixtures.black_atari) = Ok false.
Proof.
  split; [reflexivity|].
  apply (anti_capture_without_resign
           (Bot.make Bot.JOKE BLACK (this Fixtures.black_atari))
           simulated_self_capture (this Fixtures.black_atari) BLACK
           (mem Fixtures.black_atari)).
  - reflexivity.
  - intros q Hq. change (activeGroups (this Fixtures.black_atari))
      with [0%nat; 1%nat] in Hq.
    apply elem_of_cons in Hq as [-> | Hq]; [eexists; reflexivity|].
    apply elem_of_cons in Hq as [-> | Hq]; [eexists; reflexivity|].
    apply elem_of_nil in Hq. contradiction.
  - intros q p Hq (g & Hg & Hcol & _ & Hp).
    change (activeGroups (this Fixtures.black_atari)) with [0%nat; 1%nat] in Hq.
    apply elem_of_cons in Hq as [-> | Hq].
    + vm_compute in Hg. inversion Hg; subst g. vm_compute in Hp.
      inversion Hp; subst p. exists true. vm_compute. reflexivity.
    + apply elem_of_cons in Hq as [-> | Hq].
      * vm_compute in Hg. inversion Hg; subst g. discriminate Hcol.
      * apply elem_of_nil in Hq. contradiction.
Defined.

(** C8 (the claim as stated fails).  One black stone on (0,0) in atari, its
    liberty (1,0); resignation is off (level JOKE).  [is_move_self_capture]
    answers yes at (1,0), and the array returned is empty: the liberty of
    the group in atari is not collected. *)
Lemma anti_capture_skips_self_capture : ~ collects_every_atari_liberty.
Proof.
  intros H.
  destruct (H (Bot.make Bot.JOKE BLACK (this Fixtures.black_atari))
              simulated_self_capture (this Fixtures.black_atari) BLACK
              (mem Fixtures.black_atari) 0%nat (mkPos 1 0))
    as (l & Hl & Hin).
  - reflexivity.
  - apply elem_of_cons. left. reflexivity.
  - eexists. repeat split; vm_compute; reflexivity.
  - vm_compute in Hl. inversion Hl; subst l.
    apply elem_of_nil in Hin. exact Hin.
Qed.

(** ** [find_ladder_move] *)

Section Ladder.
Variable self : Bot.t.
Variable valid : Board -> Pos -> Color -> store -> result bool.

Lemma ladder_try_avoids rec (e : Board) (t : Color) (r : Z) (i : bool) (h : Pos) (s : store) :
  (forall o s', fst (rec o t (r + 1) i s') <> Ok None) ->
  fst (Bot.ladder_try valid rec e t r i h s) <> Ok (Some Bot.OutOfFuel).
Proof.
  intros Hrec. unfold Bot.ladder_try. munfold.
  destruct (valid e h t s) as [[]|w|]; simpl; try discriminate.
  destruct (copy e s) as [[o|w|] s1]; simpl; try discriminate.
  destruct (on_board o (place_stone t h) s1) as [[pr|w|] s2]; simpl;
    try discriminate.
  destruct (isInAtari (snd pr) t s2) as [[[]|w|] s3]; simpl; try discriminate.
  destruct (Bot.escape_point t (activeGroups (snd pr)) None s3)
    as [[[n|]|w|] s4]; simpl; try discriminate.
  destruct (on_board (snd pr) (place_stone (Color_not t) n) s4)
    as [[pr'|w|] s5]; simpl; try discriminate.
  specialize (Hrec (snd pr') s5).
  destruct (rec (snd pr') t (r + 1) i s5) as [[[v|]|w|] s6]; simpl in *;
    try discriminate; [|contradiction].
  destruct (Bot.truthy v); discriminate.
Qed.

Lemma ladder_try_ext rec1 rec2 (e : Board) (t : Color) (r : Z) (i : bool) (h : Pos) (s : store) :
  (forall o s', rec1 o t (r + 1) i s' = rec2 o t (r + 1) i s') ->
  Bot.ladder_try valid rec1 e t r i h s = Bot.ladder_try valid rec2 e t r i h s.
Proof.
  intros Hrec. unfold Bot.ladder_try. munfold.
  destruct (valid e h t s) as [[]|w|]; simpl; try reflexivity.
  destruct (copy e s) as [[o|w|] s1]; simpl; try reflexivity.
  destruct (on_board o (place_stone t h) s1) as [[pr|w|] s2]; simpl;
    try reflexivity.
  destruct (isInAtari (snd pr) t s2) as [[[]|w|] s3]; simpl; try reflexivity.
  destruct (Bot.escape_point t (activeGroups (snd pr)) None s3)
    as [[[n|]|w|] s4]; simpl; try reflexivity.
  destruct (on_board (snd pr) (place_stone (Color_not t) n) s4)
    as [[pr'|w|] s5]; simpl; try reflexivity.
  rewrite Hrec. reflexivity.
Qed.

Lemma find_ladder_move_enough (fuel : nat) :
  forall (e : Board) (t : Color) (r : Z) (i : bool) (s : store),
    (Z.to_nat (Bot.depth_limit self i + 1 - r) < fuel)%nat ->
    fst (Bot.find_ladder_move self valid fuel e t r i s) <> Ok None.
Proof.
  induction fuel as [|fuel IH]; intros e t r i s Hfuel; [lia|].
  cbn [Bot.find_ladder_move].
  assert (Hguard : (if i then r >? Bot.anti_ladder_depth self
                    else r >? Bot.ladder_depth self)
                   = (r >? Bot.depth_limit self i)).
  { unfold Bot.depth_limit. destruct i; reflexivity. }
  rewrite Hguard. destruct (r >? Bot.depth_limit self i) eqn:Hr;
    [discriminate|].
  rewrite Z.gtb_ltb in Hr; apply Z.ltb_ge in Hr.
  munfold.
  destruct (Bot.enemy_in_atari e t s) as [[[u|]|w|] s1]; simpl;
    try discriminate.
  match goal with
  | |- context [for_first ?l ?f s1] =>
      pose proof (for_first_avoids Bot.OutOfFuel f l) as Hav
  end.
  match type of Hav with
  | ?P -> _ => assert (Hbody : P)
  end.
  { intros a s2. unfold deref. munfold.
    destruct (s2 !! a) as [oa|]; simpl; [|discriminate].
    destruct (negb (Color_eqb (color oa) t) && Nat.eqb (numLiberties oa) 2);
      [|discriminate].
    apply for_first_avoids. intros h s3. apply ladder_try_avoids.
    intros o s'. apply IH. lia. }
  specialize (Hav Hbody s1).
  destruct (for_first _ _ s1) as [[[[v|h|]|]|w|] s2]; simpl in *;
    try discriminate. contradiction.
Qed.

Lemma find_ladder_move_fuel_irrelevant (fuel1 : nat) :
  forall (fuel2 : nat) (e : Board) (t : Color) (r : Z) (i : bool) (s : store),
    (Z.to_nat (Bot.depth_limit self i + 1 - r) < fuel1)%nat ->
    (Z.to_nat (Bot.depth_limit self i + 1 - r) < fuel2)%nat ->
    Bot.find_ladder_move self valid fuel1 e t r i s
    = Bot.find_ladder_move self valid fuel2 e t r i s.
Proof.
  induction fuel1 as [|fuel1 IH]; intros fuel2 e t r i s H1 H2; [lia|].
  destruct fuel2 as [|fuel2]; [lia|].
  cbn [Bot.find_ladder_move].
  assert (Hguard : (if i then r >? Bot.anti_ladder_depth self
                    else r >? Bot.ladder_depth self)
                   = (r >? Bot.depth_limit self i)).
  { unfold Bot.depth_limit. destruct i; reflexivity. }
  rewrite Hguard. destruct (r >? Bot.depth_limit self i) eqn:Hr;
    [reflexivity|].
  rewrite Z.gtb_ltb in Hr; apply Z.ltb_ge in Hr.
  munfold.
  destruct (Bot.enemy_in_atari e t s) as [[[u|]|w|] s1]; simpl;
    try reflexivity.
  match goal with
  | |- context [for_first ?l ?f s1] =>
      match goal with
      | |- _ = match for_first l ?g s1 with _ => _ end =>
          rewrite (for_first_ext f g l)
      end
  end; [reflexivity|].
  intros a s2. unfold deref. munfold.
  destruct (s2 !! a) as [oa|]; simpl; [|reflexivity].
  destruct (negb (Color_eqb (color oa) t) && Nat.eqb (numLiberties oa) 2);
    [|reflexivity].
  apply for_first_ext. intros h s3. apply ladder_try_ext.
  intros o s'. apply IH; lia.
Qed.
End Ladder.

(** C9.  [find_ladder_move] terminates, and its nesting is bounded by the
    configured depth ([ladder_depth], or [anti_ladder_depth] in anti
    mode): started at depth [r], as soon as the fuel exceeds
    [depth_limit + 1 - r] calls the search does not run out, and any such
    fuel gives the same result.  A call whose [r] exceeds the bound
    returns [null] at once, without recursing. *)
Theorem find_ladder_move_terminates
    (self : Bot.t) (valid : Board -> Pos -> Color -> store -> result bool)
    (fuel : nat) (e : Board) (t : Color) (r : Z) (i : bool) (s : store) :
  (Z.to_nat (Bot.depth_limit self i + 1 - r) < fuel)%nat ->
  fst (Bot.find_ladder_move self valid fuel e t r i s) <> Ok None
  /\ Bot.find_ladder_move self valid fuel e t r i s
     = Bot.find_ladder_move self valid
         (S (Z.to_nat (Bot.depth_limit self i + 1 - r))) e t r i s
  /\ (Bot.depth_limit self i < r ->
      Bot.find_ladder_move self valid fuel e t r i s = (Ok (Some Bot.LNull), s)).
Proof.
  intros Hfuel. split; [|split].
  - apply find_ladder_move_enough. exact Hfuel.
  - apply find_ladder_move_fuel_irrelevant; [exact Hfuel|lia].
  - intros Hr. destruct fuel as [|fuel]; [lia|].
    cbn [Bot.find_ladder_move]. unfold Bot.depth_limit in Hr.
    destruct i.
    + destruct (Z.gtb_spec r (Bot.anti_ladder_depth self)); [reflexivity|lia].
    + destruct (Z.gtb_spec r (Bot.ladder_depth self)); [reflexivity|lia].
Qed.

(** At the EASY level (depth 4), five nested calls are enough from depth
    1. *)
Lemma find_ladder_move_terminates_witness :
  (Z.to_nat (Bot.depth_limit (Bot.make Bot.EASY WHITE (this Fixtures.black_atari))
               false + 1 - 1) < 5)%nat
  /\ fst (Bot.find_ladder_move (Bot.make Bot.EASY WHITE (this Fixtures.black_atari))
            simulated_valid_move 5 (this Fixtures.black_atari) WHITE 1 false
            (mem Fixtures.black_atari)) <> Ok None.
Proof.
  assert (H : (Z.to_nat (Bot.depth_limit
                           (Bot.make Bot.EASY WHITE (this Fixtures.black_atari))
                           false + 1 - 1) < 5)%nat) by (vm_compute; lia).
  split; [exact H|].
  exact (proj1 (find_ladder_move_terminates
                  (Bot.make Bot.EASY WHITE (this Fixtures.black_atari))
                  simulated_valid_move 5 (this Fixtures.black_atari) WHITE 1 false
                  (mem Fixtures.black_atari) H)).
Defined.

(** * Further properties *)

(** ** Positions and their order *)

(** ** The order on positions *)

Lemma Pos_ltb_spec (a b : Pos) :
  Pos_ltb a b = true <-> row a < row b \/ (row a = row b /\ col a < col b).
Proof.
  unfold Pos_ltb. rewrite orb_true_iff, andb_true_iff, !Z.ltb_lt, Z.eqb_eq.
  tauto.
Qed.

Lemma Pos_ltb_irrefl (a : Pos) : Pos_ltb a a = false.
Proof.
  destruct (Pos_ltb a a) eqn:H; [|reflexivity].
  apply Pos_ltb_spec in H. lia.
Qed.

Lemma Pos_ltb_trans (a b c : Pos) :
  Pos_ltb a b = true -> Pos_ltb b c = true -> Pos_ltb a c = true.
Proof. rewrite !Pos_ltb_spec. lia. Qed.

(** X1.  The order of [Pos::operator<=>] is a strict total order:
    irreflexive, transitive, any two positions are comparable or equal, and
    never both ways; so a [std::set<Pos>] holds a position at most once. *)
Theorem Pos_ltb_strict_total_order (a b c : Pos) :
  Pos_ltb a a = false
  /\ (Pos_ltb a b = true -> Pos_ltb b c = true -> Pos_ltb a c = true)
  /\ (Pos_ltb a b = true \/ a = b \/ Pos_ltb b a = true)
  /\ (Pos_ltb a b = true -> Pos_ltb b a = false).
Proof.
  split; [apply Pos_ltb_irrefl|]. split; [apply Pos_ltb_trans|]. split.
  - destruct (Pos_ltb a b) eqn:Hab; [auto|].
    destruct (Pos_ltb b a) eqn:Hba; [auto|].
    right; left. apply Pos_ltb_total; assumption.
  - intros Hab. destruct (Pos_ltb b a) eqn:Hba; [|reflexivity].
    pose proof (Pos_ltb_trans _ _ _ Hab Hba) as H.
    rewrite Pos_ltb_irrefl in H. discriminate.
Qed.

(** ** Neighbourhoods *)

Lemma elem_of_neighbors (p q : Pos) :
  q ∈ neighbors p <-> Z.abs (row q - row p) + Z.abs (col q - col p) = 1.
Proof.
  destruct p as [r c], q as [r' c']. unfold neighbors. cbn [row col].
  rewrite !elem_of_cons, elem_of_nil. split.
  - intros [H|[H|[H|[H|[]]]]]; inversion H; subst; lia.
  - intros H.
    assert ((r' = r /\ c' = c - 1) \/ (r' = r /\ c' = c + 1)
            \/ (r' = r - 1 /\ c' = c) \/ (r' = r + 1 /\ c' = c)) as Hc by lia.
    destruct Hc as [[-> ->]|[[-> ->]|[[-> ->]|[-> ->]]]]; auto 6.
Qed.

Lemma elem_of_corners (p q : Pos) :
  q ∈ corners p <-> Z.abs (row q - row p) = 1 /\ Z.abs (col q - col p) = 1.
Proof.
  destruct p as [r c], q as [r' c']. unfold corners. cbn [row col].
  rewrite !elem_of_cons, elem_of_nil. split.
  - intros [H|[H|[H|[H|[]]]]]; inversion H; subst; lia.
  - intros H.
    assert ((r' = r - 1 /\ c' = c - 1) \/ (r' = r - 1 /\ c' = c + 1)
            \/ (r' = r + 1 /\ c' = c - 1) \/ (r' = r + 1 /\ c' = c + 1)) as Hc by lia.
    destruct Hc as [[-> ->]|[[-> ->]|[[-> ->]|[-> ->]]]]; auto 6.
Qed.

Lemma elem_of_locality (p q : Pos) :
  q ∈ locality p <->
  Z.max (Z.abs (row q - row p)) (Z.abs (col q - col p)) = 1.
Proof.
  destruct p as [r c], q as [r' c']. unfold locality, l1, Pos_plus.
  cbn [map row col fst snd].
  rewrite !elem_of_cons, elem_of_nil. split.
  - intros H. repeat (destruct H as [H|H]; [inversion H; subst; lia|]).
    destruct H.
  - intros H.
    assert (Hr : r' = r - 1 \/ r' = r \/ r' = r + 1) by lia.
    assert (Hc : c' = c - 1 \/ c' = c \/ c' = c + 1) by lia.
    assert (Hne : ~ (r' = r /\ c' = c)) by lia.
    destruct Hr as [-> | [-> | ->]], Hc as [-> | [-> | ->]];
      try (exfalso; apply Hne; split; reflexivity);
      replace (r + -1) with (r - 1) by lia;
      replace (c + -1) with (c - 1) by lia;
      replace (r + 0) with r by lia; replace (c + 0) with c by lia;
      auto 10.
Qed.

Lemma Pos_plus_inj (p : Pos) (a b : Z * Z) : Pos_plus p a = Pos_plus p b -> a = b.
Proof.
  destruct a as [a1 a2], b as [b1 b2]. unfold Pos_plus. cbn [fst snd].
  intros H. inversion H. f_equal; lia.
Qed.

Lemma NoDup_map_Pos_plus (p : Pos) (l : list (Z * Z)) :
  NoDup l -> NoDup (map (Pos_plus p) l).
Proof.
  induction 1 as [|a l Ha Hl IH]; simpl; constructor; [|exact IH].
  intros Hin. apply Ha. apply list_elem_of_In, in_map_iff in Hin as (b & Hb & Hin).
  apply Pos_plus_inj in Hb as ->. apply list_elem_of_In. exact Hin.
Qed.

Lemma elem_of_map_Pos_plus (p q : Pos) (l : list (Z * Z)) :
  q ∈ map (Pos_plus p) l <-> (row q - row p, col q - col p) ∈ l.
Proof.
  rewrite !list_elem_of_In, in_map_iff. split.
  - intros (a & Hq & Ha). subst q. destruct a as [a1 a2]. unfold Pos_plus. simpl.
    replace (row p + a1 - row p) with a1 by lia.
    replace (col p + a2 - col p) with a2 by lia. exact Ha.
  - intros H. eexists. split; [|exact H]. destruct p, q. unfold Pos_plus.
    simpl. f_equal; lia.
Qed.

Lemma int_Pos_plus (k : Z) (p : Pos) (a : Z * Z) :
  Pos_within k p -> Z.abs (fst a) <= k -> Z.abs (snd a) <= k ->
  int_Pos (Pos_plus p a).
Proof.
  unfold Pos_within, int_Pos, is_int, Pos_plus. destruct a as [x y].
  cbn [row col fst snd]. lia.
Qed.

(** X2.  For a position whose coordinates are at least one away from both
    ends of the range of [int], no sum in [neighbors] and [corners]
    overflows; [neighbors] gives exactly the points at distance 1 along a
    row or a column, [corners] exactly the diagonal ones; a position is
    never beside itself; and both relations are symmetric between two
    such positions: [q] is beside [p] exactly when [p] is beside [q]. *)
Theorem Pos_adjacency (p q : Pos) :
  Pos_within 1 p ->
  Forall int_Pos (neighbors p ++ corners p)
  /\ (q ∈ neighbors p <-> Z.abs (row q - row p) + Z.abs (col q - col p) = 1)
  /\ (q ∈ corners p <-> Z.abs (row q - row p) = 1 /\ Z.abs (col q - col p) = 1)
  /\ (Pos_within 1 q -> (q ∈ neighbors p <-> p ∈ neighbors q))
  /\ (Pos_within 1 q -> (q ∈ corners p <-> p ∈ corners q))
  /\ (p ∉ neighbors p) /\ (p ∉ corners p).
Proof.
  intros Hp. split.
  { unfold Pos_within, INT_MIN, INT_MAX in Hp. cbn [neighbors corners app].
    repeat (constructor;
            [unfold int_Pos, is_int, INT_MIN, INT_MAX; cbn [row col]; lia|]).
    constructor. }
  split; [apply elem_of_neighbors|]. split; [apply elem_of_corners|].
  split; [intros _; rewrite !elem_of_neighbors; lia|].
  split; [intros _; rewrite !elem_of_corners; lia|].
  split; [rewrite elem_of_neighbors; lia|rewrite elem_of_corners; lia].
Qed.

(** X3.  For a position whose coordinates are at least one away from both
    ends of the range of [int], no sum in [locality] overflows, and
    [locality] gives exactly the eight points around the position (its
    neighbours and its corners, never the position itself), each once. *)
Theorem locality_spec (p q : Pos) :
  Pos_within 1 p ->
  Forall int_Pos (locality p)
  /\ (q ∈ locality p <-> q ∈ neighbors p \/ q ∈ corners p)
  /\ (q ∈ locality p <->
        Z.max (Z.abs (row q - row p)) (Z.abs (col q - col p)) = 1)
  /\ NoDup (locality p) /\ length (locality p) = 8%nat.
Proof.
  intros Hp. split.
  { unfold locality. apply Forall_map, Forall_forall. intros a Ha.
    apply (int_Pos_plus 1 p a Hp);
      unfold l1 in Ha; rewrite ?elem_of_cons, elem_of_nil in Ha;
      repeat (destruct Ha as [Ha|Ha]; [subst a; cbn; lia|]); destruct Ha. }
  split; [rewrite elem_of_locality, elem_of_neighbors, elem_of_corners; lia|].
  split; [apply elem_of_locality|]. split; [|reflexivity].
  unfold locality. apply NoDup_map_Pos_plus.
  unfold l1. repeat (apply NoDup_cons; split;
    [rewrite ?elem_of_cons, elem_of_nil; intros H;
     repeat (destruct H as [H|H]; [discriminate H|]); exact H|]).
  constructor.
Qed.

(** X4.  For a position whose coordinates are at least two away from both
    ends of the range of [int], no sum in [locality2] overflows, and
    [locality2] gives exactly the twenty-four points at most two rows and
    two columns away, the position itself excluded, each once. *)
Theorem locality2_spec (p q : Pos) :
  Pos_within 2 p ->
  Forall int_Pos (locality2 p)
  /\ (q ∈ locality2 p <->
     1 <= Z.max (Z.abs (row q - row p)) (Z.abs (col q - col p)) <= 2)
  /\ NoDup (locality2 p) /\ length (locality2 p) = 24%nat.
Proof.
  intros Hp. split; [|split; [|split]].
  - unfold locality2. apply Forall_map, Forall_forall. intros a Ha.
    apply (int_Pos_plus 2 p a Hp);
      unfold l2 in Ha; rewrite ?elem_of_cons, elem_of_nil in Ha;
      repeat (destruct Ha as [Ha|Ha]; [subst a; cbn; lia|]); destruct Ha.
  - unfold locality2. rewrite elem_of_map_Pos_plus.
    set (dr := row q - row p). set (dc := col q - col p). clearbody dr dc.
    unfold l2. rewrite !elem_of_cons, elem_of_nil. split.
    + intros H. repeat (destruct H as [H|H]; [inversion H; subst; lia|]).
      destruct H.
    + intros H.
      assert (Hr : dr = -2 \/ dr = -1 \/ dr = 0 \/ dr = 1 \/ dr = 2) by lia.
      assert (Hc : dc = -2 \/ dc = -1 \/ dc = 0 \/ dc = 1 \/ dc = 2) by lia.
      assert (Hne : ~ (dr = 0 /\ dc = 0)) by lia.
      destruct Hr as [-> | [-> | [-> | [-> | ->]]]],
               Hc as [-> | [-> | [-> | [-> | ->]]]];
        try (exfalso; apply Hne; split; reflexivity);
        repeat ((left; reflexivity) || right).
  - unfold locality2. apply NoDup_map_Pos_plus.
    unfold l2. repeat (apply NoDup_cons; split;
      [rewrite ?elem_of_cons, elem_of_nil; intros H;
       repeat (destruct H as [H|H]; [discriminate H|]); exact H|]).
    constructor.
  - reflexivity.
Qed.

(** ** [Positions] as a set *)

Lemma ordered_cons (x : Pos) (l : list Pos) :
  ordered (x :: l) <-> ordered l /\ Forall (fun y => Pos_ltb x y = true) l.
Proof.
  unfold ordered. split.
  - intros H. inversion H; subst. auto.
  - intros [H1 H2]. constructor; assumption.
Qed.

Lemma set_insert_ordered (x : Pos) (l : list Pos) :
  ordered l -> ordered (set_insert Pos_ltb x l).
Proof.
  induction l as [|y l IH]; intros Hl; simpl.
  - apply ordered_cons. split; [constructor|constructor].
  - apply ordered_cons in Hl as [Hl Hy].
    destruct (Pos_ltb x y) eqn:Hxy.
    + apply ordered_cons. split; [apply ordered_cons; auto|].
      constructor; [exact Hxy|].
      eapply Forall_impl; [exact Hy|]. intros z Hz.
      eapply Pos_ltb_trans; eassumption.
    + destruct (Pos_ltb y x) eqn:Hyx.
      * apply ordered_cons. split; [auto|].
        apply Forall_forall. intros z Hz.
        apply elem_of_set_insert in Hz as [-> | Hz]; [exact Hyx|].
        rewrite Forall_forall in Hy. auto.
      * apply ordered_cons. auto.
Qed.

Lemma ordered_NoDup (l : list Pos) : ordered l -> NoDup l.
Proof.
  induction l as [|x l IH]; intros H; [constructor|].
  apply ordered_cons in H as [Hl Hx]. apply NoDup_cons. split; [|auto].
  intros Hin. rewrite Forall_forall in Hx. specialize (Hx x Hin).
  rewrite Pos_ltb_irrefl in Hx. discriminate.
Qed.

(** Two ordered lists with the same members are the same list. *)
Lemma ordered_ext (l l' : list Pos) :
  ordered l -> ordered l' -> (forall p, p ∈ l <-> p ∈ l') -> l = l'.
Proof.
  intros Hl Hl' Hiff.
  apply (StronglySorted_unique_strong (fun a b => Pos_ltb a b = true));
    [|exact Hl|exact Hl'|].
  - intros a b _ _ Hab Hba. pose proof (Pos_ltb_trans _ _ _ Hab Hba) as H.
    rewrite Pos_ltb_irrefl in H. discriminate.
  - apply NoDup_Permutation; auto using ordered_NoDup.
Qed.

Lemma has_elem_of (s : Positions) (p : Pos) :
  Positions.has s p = true <-> p ∈ elements s.
Proof.
  unfold Positions.has, set_contains. rewrite existsb_exists. split.
  - intros (y & Hy & Hc). apply andb_true_iff in Hc as [H1 H2].
    apply negb_true_iff in H1, H2.
    rewrite (Pos_ltb_total _ _ H1 H2). apply list_elem_of_In. exact Hy.
  - intros H. exists p. split; [apply list_elem_of_In; exact H|].
    rewrite Pos_ltb_irrefl. reflexivity.
Qed.

Lemma elem_of_set_erase (x p : Pos) (l : list Pos) :
  p ∈ set_erase Pos_ltb x l <-> p ∈ l /\ p <> x.
Proof.
  unfold set_erase. rewrite list_elem_of_filter. split.
  - intros [H Hin]. split; [exact Hin|]. intros ->.
    rewrite Pos_ltb_irrefl in H. exact H.
  - intros [Hin Hne]. split; [|exact Hin].
    destruct (Pos_ltb x p) eqn:H1; [exact I|].
    destruct (Pos_ltb p x) eqn:H2; [exact I|].
    exfalso. apply Hne. symmetry. apply Pos_ltb_total; assumption.
Qed.

Lemma set_erase_ordered (x : Pos) (l : list Pos) :
  ordered l -> ordered (set_erase Pos_ltb x l).
Proof.
  unfold set_erase. induction l as [|y l IH]; intros Hl; [constructor|].
  apply ordered_cons in Hl as [Hl Hy]. rewrite filter_cons.
  destruct (decide _); [|auto].
  apply ordered_cons. split; [auto|].
  apply Forall_forall. intros z Hz. apply list_elem_of_filter in Hz as [_ Hz].
  rewrite Forall_forall in Hy. auto.
Qed.

Lemma has_false_not_elem_of (s : Positions) (p : Pos) :
  Positions.has s p = false <-> p ∉ elements s.
Proof.
  rewrite <- has_elem_of. destruct (Positions.has s p); split.
  - discriminate.
  - intros H. exfalso. apply H. reflexivity.
  - intros _ H. discriminate.
  - reflexivity.
Qed.

Lemma has_ext (s s' : Positions) (q : Pos) :
  (q ∈ elements s <-> q ∈ elements s') -> Positions.has s q = Positions.has s' q.
Proof.
  intros H. destruct (Positions.has s' q) eqn:H'.
  - apply has_elem_of. apply H. apply has_elem_of. exact H'.
  - apply has_false_not_elem_of. rewrite H. apply has_false_not_elem_of. exact H'.
Qed.

Lemma set_insert_present (x : Pos) (l : list Pos) :
  ordered l -> x ∈ l -> set_insert Pos_ltb x l = l.
Proof.
  intros Hl Hx. apply ordered_ext; [apply set_insert_ordered; exact Hl|exact Hl|].
  intros p. rewrite elem_of_set_insert. split; [intros [-> | H]; auto|auto].
Qed.

Lemma set_insert_length_absent (x : Pos) (l : list Pos) :
  x ∉ l -> length (set_insert Pos_ltb x l) = S (length l).
Proof.
  induction l as [|y l IH]; intros Hx; simpl; [reflexivity|].
  rewrite not_elem_of_cons in Hx. destruct Hx as [Hne Hx].
  destruct (Pos_ltb x y) eqn:Hxy; [reflexivity|].
  destruct (Pos_ltb y x) eqn:Hyx; [simpl; rewrite IH; auto|].
  exfalso. apply Hne. apply Pos_ltb_total; assumption.
Qed.

(** X6.  [Positions::operator+=(Pos)] on a well-formed set: the set stays
    ordered, the point is a member afterwards, the membership of every
    other point is unchanged, and [count] grows by one exactly when the
    point was not a member. *)
Theorem Positions_add_spec (s : Positions) (p : Pos) :
  ordered (elements s) ->
  ordered (elements (Positions.add s p))
  /\ Positions.has (Positions.add s p) p = true
  /\ (forall q, q <> p ->
        Positions.has (Positions.add s p) q = Positions.has s q)
  /\ Positions.count (Positions.add s p)
     = (if Positions.has s p then Positions.count s
        else S (Positions.count s)).
Proof.
  intros Hs. split; [apply set_insert_ordered; exact Hs|]. split; [|split].
  - apply has_elem_of. cbn. apply elem_of_set_insert. auto.
  - intros q Hq. apply has_ext. cbn. rewrite elem_of_set_insert. tauto.
  - unfold Positions.count. cbn [Positions.add elements].
    destruct (Positions.has s p) eqn:Hp.
    + apply has_elem_of in Hp. rewrite set_insert_present; auto.
    + apply has_false_not_elem_of in Hp. apply set_insert_length_absent. exact Hp.
Qed.

Lemma set_erase_length (x : Pos) (l : list Pos) :
  NoDup l ->
  length (set_erase Pos_ltb x l)
  = if bool_decide (x ∈ l) then Nat.pred (length l) else length l.
Proof.
  unfold set_erase. induction l as [|y l IH]; intros Hnd; [reflexivity|].
  apply NoDup_cons in Hnd as [Hy Hnd]. rewrite filter_cons.
  specialize (IH Hnd).
  destruct (decide (Pos_ltb x y || Pos_ltb y x)) as [Hd|Hd].
  - assert (x <> y).
    { intros ->. rewrite Pos_ltb_irrefl in Hd. exact Hd. }
    cbn [length]. rewrite IH.
    destruct (bool_decide (x ∈ l)) eqn:Hx.
    + apply bool_decide_eq_true in Hx.
      rewrite bool_decide_eq_true_2 by (apply elem_of_cons; auto).
      destruct l; [apply elem_of_nil in Hx; contradiction|reflexivity].
    + apply bool_decide_eq_false in Hx.
      rewrite bool_decide_eq_false_2; [reflexivity|].
      rewrite elem_of_cons. tauto.
  - assert (x = y) as <-.
    { apply Pos_ltb_total.
      - destruct (Pos_ltb x y); [exfalso; apply Hd; exact I|reflexivity].
      - destruct (Pos_ltb y x); [|reflexivity].
        exfalso; apply Hd. destruct (Pos_ltb x y); exact I. }
    rewrite IH. rewrite (bool_decide_eq_false_2 (x ∈ l)) by exact Hy.
    rewrite bool_decide_eq_true_2 by (apply elem_of_cons; auto). reflexivity.
Qed.

(** X7.  [Positions::operator-=(Pos)] on a well-formed set: it answers
    whether the point was a member, the point is not a member afterwards,
    nothing else changes, and [count] drops by one exactly when the point
    was a member. *)
Theorem Positions_remove_spec (s : Positions) (p : Pos) :
  ordered (elements s) ->
  fst (Positions.remove s p) = Positions.has s p
  /\ ordered (elements (snd (Positions.remove s p)))
  /\ Positions.has (snd (Positions.remove s p)) p = false
  /\ (forall q, q <> p ->
        Positions.has (snd (Positions.remove s p)) q = Positions.has s q)
  /\ Positions.count (snd (Positions.remove s p))
     = (if Positions.has s p then Nat.pred (Positions.count s)
        else Positions.count s).
Proof.
  intros Hs. split; [reflexivity|]. split; [apply set_erase_ordered; exact Hs|].
  split; [|split].
  - apply has_false_not_elem_of. cbn. rewrite elem_of_set_erase. tauto.
  - intros q Hq. apply has_ext. cbn. rewrite elem_of_set_erase. tauto.
  - unfold Positions.count. cbn [Positions.remove snd elements].
    rewrite set_erase_length by (apply ordered_NoDup; exact Hs).
    destruct (Positions.has s p) eqn:Hp.
    + apply has_elem_of in Hp. rewrite bool_decide_eq_true_2; auto.
    + apply has_false_not_elem_of in Hp. rewrite bool_decide_eq_false_2; auto.
Qed.

(** X8.  On a well-formed non-empty set [getAny] gives a member, and the
    least one in the order of [operator<=>]. *)
Theorem Positions_getAny_least (s : Positions) (m : Pos) :
  ordered (elements s) ->
  Positions.getAny s = Some m ->
  Positions.has s m = true
  /\ forall q, Positions.has s q = true -> q = m \/ Pos_ltb m q = true.
Proof.
  unfold Positions.getAny. intros Hs Hm.
  destruct (elements s) as [|x l] eqn:Hl; [discriminate|].
  inversion Hm; subst x. split.
  - apply has_elem_of. rewrite Hl. apply elem_of_cons. auto.
  - intros q Hq. apply has_elem_of in Hq. rewrite Hl in Hq.
    apply ordered_cons in Hs as [_ Hall]. rewrite Forall_forall in Hall.
    apply elem_of_cons in Hq as [-> | Hq]; auto.
Qed.

Lemma foldl_insert_spec (e acc : list Pos) :
  ordered acc ->
  ordered (foldl (fun a p => set_insert Pos_ltb p a) acc e)
  /\ forall p, p ∈ foldl (fun a p => set_insert Pos_ltb p a) acc e
               <-> p ∈ acc \/ p ∈ e.
Proof.
  revert acc. induction e as [|x e IH]; intros acc Hacc; simpl.
  - split; [exact Hacc|]. intros p. rewrite elem_of_nil. tauto.
  - destruct (IH (set_insert Pos_ltb x acc)) as [H1 H2];
      [apply set_insert_ordered; exact Hacc|].
    split; [exact H1|]. intros p. rewrite H2, elem_of_set_insert, elem_of_cons.
    tauto.
Qed.

(** X5.  The range constructor of [Positions] builds a well-formed set
    whose members are exactly the elements of the range; the order and the
    repetitions of the range do not matter. *)
Theorem Positions_of_range_spec (e : list Pos) :
  ordered (elements (Positions.of_range e))
  /\ (forall p, Positions.has (Positions.of_range e) p = true <-> p ∈ e)
  /\ (forall e', (forall p, p ∈ e <-> p ∈ e') ->
        Positions.of_range e = Positions.of_range e').
Proof.
  destruct (foldl_insert_spec e []) as [H1 H2]; [constructor|].
  split; [exact H1|]. split.
  - intros p. rewrite has_elem_of. cbn. rewrite H2, elem_of_nil. tauto.
  - intros e' He. unfold Positions.of_range. f_equal.
    destruct (foldl_insert_spec e' []) as [H1' H2']; [constructor|].
    apply ordered_ext; [exact H1|exact H1'|].
    intros p. rewrite H2, H2', !elem_of_nil, He. tauto.
Qed.

Lemma add_all_elem_of (s other : Positions) (p : Pos) :
  p ∈ elements (Positions.add_all s other)
  <-> p ∈ elements s \/ p ∈ elements other.
Proof.
  unfold Positions.add_all. destruct other as [o]. cbn [elements].
  revert s. induction o as [|x o IH]; intros s; simpl.
  - rewrite elem_of_nil. tauto.
  - rewrite IH. cbn. rewrite elem_of_set_insert, elem_of_cons. tauto.
Qed.

Lemma add_all_ordered (s other : Positions) :
  ordered (elements s) -> ordered (elements (Positions.add_all s other)).
Proof.
  unfold Positions.add_all. destruct other as [o]. cbn [elements].
  revert s. induction o as [|x o IH]; intros s Hs; simpl; [exact Hs|].
  apply IH. apply set_insert_ordered. exact Hs.
Qed.

(** X9.  [Positions::operator+=(const Positions&)] on a well-formed set
    computes the union, and [operator+] computes the same set. *)
Theorem Positions_union_spec (s other : Positions) :
  ordered (elements s) ->
  ordered (elements (Positions.add_all s other))
  /\ (forall p, Positions.has (Positions.add_all s other) p
                = Positions.has s p || Positions.has other p)
  /\ Positions_plus s other = Positions.add_all s other.
Proof.
  intros Hs. pose proof (add_all_ordered s other Hs) as H1.
  pose proof (add_all_elem_of s other) as H2.
  split; [exact H1|]. split.
  - intros p. destruct (Positions.has s p || Positions.has other p) eqn:H.
    + apply has_elem_of, H2. apply orb_true_iff in H.
      rewrite <- !has_elem_of. exact H.
    + apply has_false_not_elem_of. rewrite H2, <- !has_elem_of.
      apply orb_false_iff in H as [-> ->]. intros [?|?]; discriminate.
  - unfold Positions_plus.
    destruct (foldl_insert_spec (elements other) (elements s) Hs) as [H3 H4].
    destruct (foldl_insert_spec
                (foldl (fun merged i => set_insert Pos_ltb i merged)
                       (elements s) (elements other)) [])
      as [H5 H6]; [constructor|].
    destruct (Positions.add_all s other) as [l'] eqn:Hl'.
    unfold Positions.of_range.
    f_equal. apply ordered_ext; [exact H5|exact H1|].
    intros p. cbn [elements] in *. rewrite H2, <- H4, H6, elem_of_nil. tauto.
Qed.

Lemma remove_all_spec (s : Positions) (l : list Pos) :
  forall p, p ∈ elements (Positions.remove_all s l)
            <-> p ∈ elements s /\ p ∉ l.
Proof.
  unfold Positions.remove_all. revert s.
  induction l as [|x l IH]; intros s p; simpl.
  - rewrite elem_of_nil. tauto.
  - rewrite IH. cbn. rewrite elem_of_set_erase, not_elem_of_cons. tauto.
Qed.

Lemma remove_all_ordered (s : Positions) (l : list Pos) :
  ordered (elements s) -> ordered (elements (Positions.remove_all s l)).
Proof.
  unfold Positions.remove_all. revert s.
  induction l as [|x l IH]; intros s Hs; simpl; [exact Hs|].
  apply IH. cbn. apply set_erase_ordered. exact Hs.
Qed.

(** X10.  [Positions::operator-=(range)] computes the set difference: a
    point is a member afterwards exactly when it was one and is not in the
    range. *)
Theorem Positions_remove_all_spec (s : Positions) (l : list Pos) :
  ordered (elements s) ->
  ordered (elements (Positions.remove_all s l))
  /\ forall p, Positions.has (Positions.remove_all s l) p = true
               <-> Positions.has s p = true /\ p ∉ l.
Proof.
  intros Hs. split; [apply remove_all_ordered; exact Hs|].
  intros p. rewrite !has_elem_of. apply remove_all_spec.
Qed.

(** X11.  [_Group::operator+=] and [operator+] always throw.  When the
    colours differ the group is untouched; when they agree the throw comes
    after the merge: the stones are the union, and the liberties are the
    union of the liberties less the merged stones (no stone is a
    liberty). *)
Theorem Group_iadd_spec (g other : _Group) :
  exists g',
    Group_iadd other g = (Throw "Cannot merge groups of different colors", g')
    /\ Group_plus g other = Throw "Cannot merge groups of different colors"
    /\ (color g <> color other -> g' = g)
    /\ (color g = color other ->
        color g' = color g
        /\ (forall p, p ∈ elements (stones g')
                      <-> p ∈ elements (stones g) \/ p ∈ elements (stones other))
        /\ (forall p, p ∈ elements (liberties g')
                      <-> (p ∈ elements (liberties g)
                           \/ p ∈ elements (liberties other))
                          /\ p ∉ elements (stones g'))).
Proof.
  unfold Group_plus, Group_iadd. munfold. unfold Color_eqb.
  destruct (bool_decide (color g = color other)) eqn:Hc.
  - apply bool_decide_eq_true in Hc. eexists. split; [reflexivity|].
    split; [reflexivity|]. split; [intros H; contradiction|].
    intros _. cbn [color stones liberties]. split; [reflexivity|]. split.
    + intros p. apply add_all_elem_of.
    + intros p. rewrite remove_all_spec, add_all_elem_of. tauto.
  - apply bool_decide_eq_false in Hc. exists g. split; [reflexivity|].
    split; [reflexivity|]. split; [reflexivity|]. intros H; contradiction.
Qed.

(** ** What [place_stone] leaves alone *)

Lemma bind_never_throws {S A B : Type} (m : M S A) (f : A -> M S B) :
  never_throws m -> (forall a, never_throws (f a)) -> never_throws (m ≫= f).
Proof.
  intros Hm Hf s w. munfold. specialize (Hm s).
  destruct (m s) as [[a|w'|] s']; simpl in *.
  - apply Hf.
  - exfalso. eapply Hm. reflexivity.
  - discriminate.
Qed.

Lemma for_each_never_throws {S A : Type} (l : list A) (body : A -> M S unit) :
  (forall x, never_throws (body x)) -> never_throws (for_each l body).
Proof.
  intros Hb. induction l as [|x l IH]; simpl.
  - intros s w. discriminate.
  - apply bind_never_throws; auto.
Qed.

Lemma on_mem_never_throws {A : Type} (m : M store A) :
  never_throws m -> never_throws (on_mem m).
Proof.
  intros Hm e w. unfold on_mem. specialize (Hm (mem e)).
  destruct (m (mem e)) as [r h]. simpl in *. apply Hm.
Qed.

Lemma deref_never_throws (q : ptr) : never_throws (deref q).
Proof. intros h w. unfold deref. destruct (h !! q); discriminate. Qed.

Lemma update_never_throws (q : ptr) (f : _Group -> _Group) : never_throws (update q f).
Proof. intros h w. unfold update. destruct (h !! q); discriminate. Qed.

Lemma setGroupPtr_never_throws (p : Pos) (g : Group) : never_throws (setGroupPtr p g).
Proof. intros e w. unfold setGroupPtr. destruct (is_pos_valid p); discriminate. Qed.

Lemma set_activeGroups_never_throws (f : list ptr -> list ptr) :
  never_throws (set_activeGroups f).
Proof. intros e w. discriminate. Qed.

Lemma removeDeadGroup_never_throws (g : ptr) : never_throws (removeDeadGroup g).
Proof.
  unfold removeDeadGroup.
  apply bind_never_throws; [apply set_activeGroups_never_throws|]. intros _.
  apply bind_never_throws; [apply on_mem_never_throws, deref_never_throws|].
  intros og. apply for_each_never_throws. intros p. apply setGroupPtr_never_throws.
Qed.

Lemma update_enemy_never_throws (pos : Pos) (enemy : ptr) :
  never_throws (update_enemy pos enemy).
Proof.
  unfold update_enemy.
  apply bind_never_throws; [apply on_mem_never_throws, update_never_throws|].
  intros _.
  apply bind_never_throws; [apply on_mem_never_throws, deref_never_throws|].
  intros og. destruct (isDead og); [apply removeDeadGroup_never_throws|].
  intros s w. discriminate.
Qed.

Lemma bind_only {S A B : Type} (v : B) (m : M S A) (f : A -> M S B) :
  never_throws m -> (forall a, only v (f a)) -> only v (m ≫= f).
Proof.
  intros Hm Hf s. munfold. specialize (Hm s).
  destruct (m s) as [[a|w|] s']; simpl in *.
  - apply Hf.
  - exfalso. eapply Hm. reflexivity.
  - right. reflexivity.
Qed.

(** The part of [place_stone] after the suicide check. *)
Lemma commit_only_true (pos : Pos) (adj : Adjacent) (new_group : _Group) :
  only true
    (for_each (adj_friends adj)
       (fun f => set_activeGroups (set_erase Nat.ltb f)) ≫= fun _ =>
     on_mem (alloc new_group) ≫= fun q =>
     set_activeGroups (set_insert Nat.ltb q) ≫= fun _ =>
     for_each (elements (stones new_group))
       (fun p => setGroupPtr p (Some q)) ≫= fun _ =>
     for_each (adj_enemies adj) (update_enemy pos) ≫= fun _ =>
     mret true).
Proof.
  apply bind_only.
  { apply for_each_never_throws. intros f. apply set_activeGroups_never_throws. }
  intros _. apply bind_only.
  { apply on_mem_never_throws. intros h w. discriminate. }
  intros q. apply bind_only; [apply set_activeGroups_never_throws|].
  intros _. apply bind_only.
  { apply for_each_never_throws. intros p. apply setGroupPtr_never_throws. }
  intros _. apply bind_only.
  { apply for_each_never_throws. intros x. apply update_enemy_never_throws. }
  intros _ s. left. reflexivity.
Qed.

(** X12.  Whenever [place_stone] returns [false] or throws, the board and
    every group object are exactly as before the call. *)
Theorem place_stone_failure_unchanged
    (c : Color) (pos : Pos) (e e' : Env) (r : result bool) :
  place_stone c pos e = (r, e') ->
  r = Ok false \/ (exists w, r = Throw w) ->
  e' = e.
Proof.
  unfold place_stone. munfold.
  destruct (negb (is_pos_valid pos) || negb (non_null (grid_at (this e) pos))).
  { intros H _. inversion H; reflexivity. }
  pose proof (classify_loop_state c (neighbors pos)
                (mkAdjacent [] [] Positions.empty) e) as Hs.
  fold (classify c pos) in Hs.
  destruct (classify c pos e) as [[adj|w|] e1]; simpl in Hs; subst e1;
    try (intros H _; inversion H; reflexivity).
  destruct (merge_friends _ _ _) as [[[]|w|] g];
    try (intros H _; inversion H; reflexivity).
  destruct (isDead g); [intros H _; inversion H; reflexivity|].
  pose proof (commit_only_true pos adj g e) as Ho. munfold.
  intros H Hr. rewrite H in Ho. simpl in Ho.
  destruct Hr as [-> | [w ->]], Ho as [Ho | Ho]; discriminate.
Qed.

(** ** Sets of pointers *)

Lemma elem_of_ptr_insert (x n : nat) (l : list nat) :
  n ∈ set_insert Nat.ltb x l <-> n = x \/ n ∈ l.
Proof.
  induction l as [|y l IH]; simpl.
  - rewrite list_elem_of_singleton, elem_of_nil. tauto.
  - destruct (Nat.ltb_spec x y) as [Hxy|Hxy].
    + rewrite elem_of_cons. tauto.
    + destruct (Nat.ltb_spec y x) as [Hyx|Hyx].
      * rewrite !elem_of_cons, IH. tauto.
      * assert (x = y) as -> by lia. rewrite elem_of_cons. tauto.
Qed.

Lemma elem_of_ptr_erase (x n : nat) (l : list nat) :
  n ∈ set_erase Nat.ltb x l <-> n ∈ l /\ n <> x.
Proof.
  unfold set_erase. rewrite list_elem_of_filter. split.
  - intros [H Hin]. split; [exact Hin|]. intros ->.
    rewrite Nat.ltb_irrefl in H. exact H.
  - intros [Hin Hne]. split; [|exact Hin].
    destruct (Nat.ltb_spec x n); [exact I|].
    destruct (Nat.ltb_spec n x); [exact I|]. lia.
Qed.

(** ** The classification of the neighbours *)

Lemma classify_loop_spec (c : Color) (ps : list Pos) (acc adj : Adjacent) (e e1 : Env) :
  classify_loop c ps acc e = (Ok adj, e1) ->
  (forall p, p ∈ elements (newLiberties adj) <->
     p ∈ elements (newLiberties acc)
     \/ (p ∈ ps /\ is_pos_valid p = true /\ grid_at (this e) p = None))
  /\ (forall q, q ∈ adj_friends adj <->
        q ∈ adj_friends acc
        \/ (group_beside (this e) ps q
            /\ exists g, mem e !! q = Some g /\ color g = c))
  /\ (forall q, q ∈ adj_enemies adj <->
        q ∈ adj_enemies acc
        \/ (group_beside (this e) ps q
            /\ exists g, mem e !! q = Some g /\ color g <> c)).
Proof.
  revert acc. induction ps as [|x ps IH]; intros acc H; simpl in H.
  - munfold. inversion H; subst. unfold group_beside.
    split; [|split]; intros z; (split; [tauto|]).
    + intros [?|(Hp & _)]; [assumption|]. apply elem_of_nil in Hp. contradiction.
    + intros [?|[(p0 & Hp & _) _]]; [assumption|].
      apply elem_of_nil in Hp. contradiction.
    + intros [?|[(p0 & Hp & _) _]]; [assumption|].
      apply elem_of_nil in Hp. contradiction.
  - munfold. pose proof (classify_step_state c x acc e) as Hs.
    destruct (classify_step c x acc e) as [[a|w|] e2] eqn:Hstep; simpl in Hs;
      subst; try discriminate.
    destruct (IH _ H) as (IHl & IHf & IHe). clear IH H.
    assert (Hgb : forall q, group_beside (this e) (x :: ps) q <->
              (is_pos_valid x = true /\ grid_at (this e) x = Some q)
              \/ group_beside (this e) ps q).
    { intros q. unfold group_beside. split.
      - intros (p & Hp & Hv & Hg). apply elem_of_cons in Hp as [-> | Hp]; eauto.
      - intros [[Hv Hg] | (p & Hp & Hv & Hg)].
        + exists x. rewrite elem_of_cons. auto.
        + exists p. rewrite elem_of_cons. auto. }
    revert Hstep. destruct e as [b h]. unfold classify_step, deref. munfold.
    cbn [this mem] in *.
    destruct (is_pos_valid x) eqn:Hvx; cbn [this mem].
    + destruct (grid_at b x) as [q0|] eqn:Hgx; cbn [this mem].
      * destruct (h !! q0) as [og|] eqn:Hog; [|discriminate].
        destruct (Color_eqb (color og) c) eqn:Hcol; intros Heq;
          inversion Heq; subst a; clear Heq;
          cbn [newLiberties adj_friends adj_enemies] in *;
          [apply bool_decide_eq_true in Hcol|apply bool_decide_eq_false in Hcol].
        -- split; [|split].
           ++ intros p. rewrite IHl, elem_of_cons. split; [tauto|].
              intros [?|[[-> | ?] [? ?]]]; [tauto|congruence|tauto].
           ++ intros q. rewrite IHf, elem_of_ptr_insert, Hgb. split.
              ** intros [[-> | ?]|?]; [|tauto|tauto].
                 right. split; [left; auto|]. eauto.
              ** intros [?|[[[_ Hq]|?] Hex]]; [tauto| |tauto].
                 inversion Hq; subst. tauto.
           ++ intros q. rewrite IHe, Hgb. split; [tauto|].
              intros [?|[[[_ Hq]|?] Hex]]; [tauto| |tauto].
              inversion Hq; subst. destruct Hex as (g & Hg & Hne).
              rewrite Hog in Hg. inversion Hg; subst. contradiction.
        -- split; [|split].
           ++ intros p. rewrite IHl, elem_of_cons. split; [tauto|].
              intros [?|[[-> | ?] [? ?]]]; [tauto|congruence|tauto].
           ++ intros q. rewrite IHf, Hgb. split; [tauto|].
              intros [?|[[[_ Hq]|?] Hex]]; [tauto| |tauto].
              inversion Hq; subst. destruct Hex as (g & Hg & Hne).
              rewrite Hog in Hg. inversion Hg; subst. contradiction.
           ++ intros q. rewrite IHe, elem_of_ptr_insert, Hgb. split.
              ** intros [[-> | ?]|?]; [|tauto|tauto].
                 right. split; [left; auto|]. eauto.
              ** intros [?|[[[_ Hq]|?] Hex]]; [tauto| |tauto].
                 inversion Hq; subst. tauto.
      * intros Heq; inversion Heq; subst a; clear Heq.
        cbn [newLiberties adj_friends adj_enemies Positions.add elements] in *.
        split; [|split].
        ++ intros p. rewrite IHl, elem_of_set_insert, elem_of_cons. split.
           ** intros [[-> | ?]|?]; tauto.
           ** intros [?|[[-> | ?] [? ?]]]; tauto.
        ++ intros q. rewrite IHf, Hgb. split; [tauto|].
           intros [?|[[[_ Hq]|?] Hex]]; [tauto|congruence|tauto].
        ++ intros q. rewrite IHe, Hgb. split; [tauto|].
           intros [?|[[[_ Hq]|?] Hex]]; [tauto|congruence|tauto].
    + intros Heq; inversion Heq; subst a; clear Heq. split; [|split].
      ++ intros p. rewrite IHl, elem_of_cons. split; [tauto|].
         intros [?|[[-> | ?] [? ?]]]; [tauto|congruence|tauto].
      ++ intros q. rewrite IHf, Hgb. split; [tauto|].
         intros [?|[[[Hv _]|?] Hex]]; [tauto|congruence|tauto].
      ++ intros q. rewrite IHe, Hgb. split; [tauto|].
         intros [?|[[[Hv _]|?] Hex]]; [tauto|congruence|tauto].
Qed.

Lemma for_each_preserves_elem {S A : Type} (P : S -> Prop) (body : A -> M S unit)
    (l : list A) :
  (forall x, x ∈ l -> forall s, P s -> P (snd (body x s))) ->
  forall s, P s -> P (snd (for_each l body s)).
Proof.
  induction l as [|x l IH]; intros Hbody s Hs; simpl; [exact Hs|].
  munfold. assert (Hx := Hbody x (list_elem_of_here _ _) s Hs).
  destruct (body x s) as [[u|w|] s']; simpl in *; auto.
  apply IH; [|exact Hx]. intros y Hy. apply Hbody. apply elem_of_cons. auto.
Qed.

Lemma store_frame_refl (c : Color) (pos : Pos) (h : store) : store_frame c pos h h.
Proof. split; [lia|]. intros q g Hg. exists g. auto. Qed.

Lemma remove_idem (s : Positions) (pos : Pos) :
  snd (Positions.remove (snd (Positions.remove s pos)) pos)
  = snd (Positions.remove s pos).
Proof.
  unfold Positions.remove. cbn [snd elements]. f_equal.
  unfold set_erase. induction (elements s) as [|y l IH]; [reflexivity|].
  rewrite filter_cons. destruct (decide _) as [Hd|Hd]; [|exact IH].
  rewrite filter_cons. destruct (decide _); [|contradiction].
  f_equal. exact IH.
Qed.

Lemma update_enemy_mem (pos : Pos) (x : ptr) (s : Env) :
  mem (snd (update_enemy pos x s)) = mem s
  \/ exists g, mem s !! x = Some g
       /\ mem (snd (update_enemy pos x s))
          = <[x := mk_Group (color g) (stones g)
                      (snd (Positions.remove (liberties g) pos))]> (mem s).
Proof.
  destruct s as [b h]. unfold update_enemy, update, deref. munfold. cbn [mem this].
  destruct (h !! x) as [g|] eqn:Hg; [|left; reflexivity].
  right. exists g. split; [reflexivity|]. cbn [mem this].
  set (h1 := <[x := _]> h).
  destruct (h1 !! x) as [g1|]; [|reflexivity].
  destruct (isDead g1); [|reflexivity].
  unfold removeDeadGroup, set_activeGroups, deref. munfold. cbn [mem this].
  destruct (h1 !! x) as [g2|]; [|reflexivity].
  match goal with
  | |- mem (snd (for_each ?l ?f ?s)) = _ =>
      apply (for_each_preserves (fun e => mem e = h1) f l); [|reflexivity]
  end.
  intros p s Hs. unfold setGroupPtr. destruct (is_pos_valid p); exact Hs.
Qed.

Lemma store_frame_update_enemy (c : Color) (pos : Pos) (h0 : store) (x : ptr) (s : Env) :
  (exists gx, h0 !! x = Some gx /\ color gx <> c) ->
  store_frame c pos h0 (mem s) ->
  store_frame c pos h0 (mem (snd (update_enemy pos x s))).
Proof.
  intros (gx & Hgx & Hcx) [Hlen Hfr].
  destruct (update_enemy_mem pos x s) as [-> | (g1 & Hg1 & ->)];
    [split; assumption|].
  split.
  { match goal with
    | |- (_ <= length ?t)%nat =>
        replace (length t) with (length (mem s))
          by (symmetry; apply length_insert)
    end. exact Hlen. }
  intros q g Hg. destruct (Hfr q g Hg) as (g' & Hg' & Hc & Hst & Hl).
  destruct (decide (q = x)) as [-> | Hne].
  - assert (Some g' = Some g1) as Heq1 by (rewrite <- Hg'; exact Hg1).
    inversion Heq1; subst g1.
    assert (Some g = Some gx) as Heq2 by (rewrite <- Hg; exact Hgx).
    inversion Heq2; subst gx.
    eexists. split; [apply list_lookup_insert_eq; eapply lookup_lt_Some; eauto|].
    cbn [color stones liberties]. split; [exact Hc|]. split; [exact Hst|].
    right. split; [exact Hcx|].
    destruct Hl as [-> | [_ ->]]; [reflexivity|apply remove_idem].
  - exists g'. split; [|auto].
    etransitivity; [apply list_lookup_insert_ne; congruence|exact Hg'].
Qed.

Lemma commit_frame (c : Color) (pos : Pos) (h0 : store) (adj : Adjacent)
    (new_group : _Group) (s : Env) :
  (forall x, x ∈ adj_enemies adj -> exists gx, h0 !! x = Some gx /\ color gx <> c) ->
  store_frame c pos h0 (mem s) ->
  store_frame c pos h0
    (mem (snd ((for_each (adj_friends adj)
                  (fun f => set_activeGroups (set_erase Nat.ltb f)) ≫= fun _ =>
                on_mem (alloc new_group) ≫= fun q =>
                set_activeGroups (set_insert Nat.ltb q) ≫= fun _ =>
                for_each (elements (stones new_group))
                  (fun p => setGroupPtr p (Some q)) ≫= fun _ =>
                for_each (adj_enemies adj) (update_enemy pos) ≫= fun _ =>
                mret true) s))).
Proof.
  intros Hen Hs0.
  apply (bind_preserves (fun s => store_frame c pos h0 (mem s))).
  { apply (for_each_preserves (fun s => store_frame c pos h0 (mem s)));
      [|exact Hs0]. intros f s' Hs. exact Hs. }
  intros _ s1 Hs1.
  apply (bind_preserves (fun s => store_frame c pos h0 (mem s))).
  { unfold on_mem, alloc. cbn [snd mem].
    destruct Hs1 as [Hlen Hfr]. split; [rewrite length_app; lia|].
    intros q g0 Hg0. destruct (Hfr q g0 Hg0) as (g' & Hg' & Hrest).
    exists g'. split; [|exact Hrest]. apply lookup_app_l_Some. exact Hg'. }
  intros q s2 Hs2.
  apply (bind_preserves (fun s => store_frame c pos h0 (mem s))); [exact Hs2|].
  intros _ s3 Hs3.
  apply (bind_preserves (fun s => store_frame c pos h0 (mem s))).
  { apply (for_each_preserves (fun s => store_frame c pos h0 (mem s)));
      [|exact Hs3]. intros p s' Hs. unfold setGroupPtr.
    destruct (is_pos_valid p); exact Hs. }
  intros _ s4 Hs4.
  apply (bind_preserves (fun s => store_frame c pos h0 (mem s)));
    [|intros _ s5 Hs5; exact Hs5].
  apply (for_each_preserves_elem (fun s => store_frame c pos h0 (mem s)));
    [|exact Hs4].
  intros x Hx s' Hs. apply store_frame_update_enemy; [|exact Hs].
  apply Hen. exact Hx.
Qed.

(** In the store of the embedding [place_stone] changes no object of the
    placed colour, and of any other object at most the liberties. *)
Lemma place_stone_store_frame (c : Color) (pos : Pos) (e : Env) :
  store_frame c pos (mem e) (mem (snd (place_stone c pos e))).
Proof.
  unfold place_stone. munfold.
  destruct (negb (is_pos_valid pos) || negb (non_null (grid_at (this e) pos)));
    [apply store_frame_refl|].
  pose proof (classify_loop_state c (neighbors pos)
                (mkAdjacent [] [] Positions.empty) e) as Hs.
  fold (classify c pos) in Hs.
  destruct (classify c pos e) as [[adj|w|] e1] eqn:Hcl; simpl in Hs; subst e1;
    try apply store_frame_refl.
  destruct (merge_friends _ _ _) as [[[]|w|] g]; try apply store_frame_refl.
  destruct (isDead g); [apply store_frame_refl|].
  destruct (classify_loop_spec _ _ _ _ _ _ Hcl) as (_ & _ & Hen).
  pose proof (commit_frame c pos (mem e) adj g e) as Hcf. munfold.
  apply Hcf; [|apply store_frame_refl].
  intros x Hx. apply Hen in Hx as [Hx | [_ Hx]]; [|exact Hx].
  cbn in Hx. apply elem_of_nil in Hx. contradiction.
Qed.

(** X13.  A group object that the board still points to after a
    [place_stone] call, whatever the call ended in, has the colour and the
    stones it had before the call; if its colour is the placed one it is
    not changed at all, and otherwise the only change it can show is the
    loss of the liberty [pos]. *)
Theorem place_stone_frame
    (c : Color) (pos : Pos) (e : Env) (q : ptr) (g : _Group) :
  mem e !! q = Some g ->
  referenced (this (snd (place_stone c pos e))) q ->
  exists g', mem (snd (place_stone c pos e)) !! q = Some g'
             /\ color g' = color g /\ stones g' = stones g
             /\ (color g = c -> g' = g)
             /\ (liberties g' = liberties g
                 \/ (color g <> c
                     /\ liberties g'
                        = snd (Positions.remove (liberties g) pos))).
Proof.
  intros Hg _. destruct (place_stone_store_frame c pos e) as [_ Hfr].
  destruct (Hfr q g Hg) as (g' & Hg' & Hcol & Hst & Hlib).
  exists g'. split; [exact Hg'|]. split; [exact Hcol|]. split; [exact Hst|].
  split; [|exact Hlib].
  intros Hc. destruct Hlib as [Hl | [Hne _]]; [|contradiction].
  destruct g, g'; cbn in *; congruence.
Qed.

Lemma update_enemy_activeGroups (pos : Pos) (x : ptr) (s : Env) :
  activeGroups (this (snd (update_enemy pos x s))) = activeGroups (this s)
  \/ activeGroups (this (snd (update_enemy pos x s)))
     = set_erase Nat.ltb x (activeGroups (this s)).
Proof.
  destruct s as [b h]. unfold update_enemy, update, deref. munfold. cbn [mem this].
  destruct (h !! x) as [g|] eqn:Hg; [|left; reflexivity]. cbn [mem this].
  set (h1 := <[x := _]> h).
  destruct (h1 !! x) as [g1|]; [|left; reflexivity].
  destruct (isDead g1); [|left; reflexivity]. right.
  unfold removeDeadGroup, set_activeGroups, deref. munfold. cbn [mem this].
  destruct (h1 !! x) as [g2|]; [|reflexivity].
  match goal with
  | |- activeGroups (this (snd (for_each ?l ?f ?s))) = ?r =>
      apply (for_each_preserves (fun e => activeGroups (this e) = r) f l);
        [|reflexivity]
  end.
  intros p s Hs. rewrite setGroupPtr_activeGroups. exact Hs.
Qed.

Lemma registered_update_enemy (n : nat) (g : _Group) (pos : Pos) (x : ptr) (s : Env) :
  (x < n)%nat -> registered n g s -> registered n g (snd (update_enemy pos x s)).
Proof.
  intros Hx (Hg & Hlen & Hin). unfold registered.
  destruct (update_enemy_mem pos x s) as [-> | (g1 & Hg1 & ->)].
  - split; [exact Hg|]. split; [exact Hlen|].
    destruct (update_enemy_activeGroups pos x s) as [-> | ->]; [exact Hin|].
    apply elem_of_ptr_erase. split; [exact Hin|lia].
  - split; [|split].
    + etransitivity; [apply list_lookup_insert_ne; lia|exact Hg].
    + etransitivity; [apply length_insert|exact Hlen].
    + destruct (update_enemy_activeGroups pos x s) as [-> | ->]; [exact Hin|].
      apply elem_of_ptr_erase. split; [exact Hin|lia].
Qed.

Lemma post_bind {S A B : Type} (m : M S A) (f : A -> M S B) (s : S)
    (Q : B -> S -> Prop) :
  post m s (fun a s' => post (f a) s' Q) -> post (m ≫= f) s Q.
Proof.
  unfold post. munfold. destruct (m s) as [[a|w|] s']; auto.
Qed.

Lemma post_weaken {S A : Type} (m : M S A) (s : S) (Q Q' : A -> S -> Prop) :
  (forall a s', Q a s' -> Q' a s') -> post m s Q -> post m s Q'.
Proof.
  unfold post. destruct (m s) as [[a|w|] s']; auto.
Qed.

Lemma post_for_each {S A : Type} (I : S -> Prop) (body : A -> M S unit) (l : list A) :
  (forall x, x ∈ l -> forall s, I s -> post (body x) s (fun _ s' => I s')) ->
  forall s, I s -> post (for_each l body) s (fun _ s' => I s').
Proof.
  induction l as [|x l IH]; intros Hbody s Hs; simpl; [exact Hs|].
  apply post_bind.
  eapply post_weaken; [|apply Hbody; [apply list_elem_of_here|exact Hs]].
  intros u s' Hs'. apply IH; [|exact Hs'].
  intros y Hy. apply Hbody. apply elem_of_cons. auto.
Qed.

Lemma post_of_snd {S A : Type} (m : M S A) (s : S) (P : S -> Prop) :
  P (snd (m s)) -> post m s (fun _ s' => P s').
Proof. unfold post. destruct (m s) as [[a|w|] s']; simpl; auto. Qed.

Lemma commit_registered (pos : Pos) (adj : Adjacent) (new_group : _Group) (s : Env) :
  (forall x, x ∈ adj_enemies adj -> (x < length (mem s))%nat) ->
  post (for_each (adj_friends adj)
          (fun f => set_activeGroups (set_erase Nat.ltb f)) ≫= fun _ =>
        on_mem (alloc new_group) ≫= fun q =>
        set_activeGroups (set_insert Nat.ltb q) ≫= fun _ =>
        for_each (elements (stones new_group))
          (fun p => setGroupPtr p (Some q)) ≫= fun _ =>
        for_each (adj_enemies adj) (update_enemy pos) ≫= fun _ =>
        mret true) s
       (fun _ s' => registered (length (mem s)) new_group s').
Proof.
  intros Hen. set (n := length (mem s)).
  apply post_bind.
  eapply post_weaken;
    [|apply (post_for_each (fun e => mem e = mem s)); [|reflexivity]].
  2:{ intros f _ s' Hs. exact Hs. }
  intros u1 s1 Hm1. apply post_bind.
  unfold post at 1. unfold on_mem, alloc. rewrite Hm1. cbn [fst snd]. fold n.
  apply post_bind. unfold post at 1. unfold set_activeGroups, modify.
  cbn [this mem grid activeGroups].
  apply post_bind.
  eapply post_weaken;
    [|apply (post_for_each (fun e => mem e = mem s ++ [new_group]
                                     /\ n ∈ activeGroups (this e)))].
  3:{ cbn. split; [reflexivity|]. apply elem_of_ptr_insert. auto. }
  2:{ intros p _ s' Hs. apply post_of_snd. unfold setGroupPtr.
      destruct (is_pos_valid p); exact Hs. }
  intros u3 s3 [Hm3 Hin3]. apply post_bind.
  eapply post_weaken;
    [|apply (post_for_each (registered n new_group))].
  - intros u4 s4 Hs4. exact Hs4.
  - intros x Hx s' Hs. apply post_of_snd. apply registered_update_enemy; [|exact Hs].
    apply Hen. exact Hx.
  - split; [|split]; [| |exact Hin3].
    + rewrite Hm3. apply list_lookup_middle. reflexivity.
    + rewrite Hm3, length_app. cbn. unfold n. lia.
Qed.

(** X14.  When [place_stone] returns [true]: the point was on the grid and
    occupied, no neighbouring group had the colour, and exactly one object
    was allocated, at the next address, registered as active: the lone
    stone, with the empty on-grid neighbours (at least one) as its
    liberties. *)
Theorem place_stone_success (c : Color) (pos : Pos) (e e' : Env) :
  place_stone c pos e = (Ok true, e') ->
  is_pos_valid pos = true
  /\ non_null (grid_at (this e) pos) = true
  /\ (forall q g, group_beside (this e) (neighbors pos) q ->
        mem e !! q = Some g -> color g <> c)
  /\ exists libs,
       (forall p, p ∈ elements libs <->
          p ∈ neighbors pos /\ is_pos_valid p = true /\ grid_at (this e) p = None)
       /\ elements libs <> []
       /\ mem e' !! length (mem e) = Some (singleton_Group c pos libs)
       /\ length (mem e') = S (length (mem e))
       /\ length (mem e) ∈ activeGroups (this e').
Proof.
  unfold place_stone. munfold.
  destruct (is_pos_valid pos) eqn:Hv; [|discriminate].
  destruct (non_null (grid_at (this e) pos)) eqn:Hocc; [|discriminate].
  cbn [negb orb].
  destruct (classify c pos e) as [[adj|w|] e1] eqn:Hcl; try discriminate.
  pose proof (classify_state _ _ _ _ _ Hcl) as ->.
  destruct (classify_loop_spec _ _ _ _ _ _ Hcl) as (Hlib & Hfr & Hen).
  destruct (merge_friends _ _ _) as [[[]|w|] g] eqn:Hm; try discriminate.
  apply merge_friends_Ok in Hm as [Hnofr ->].
  destruct (isDead _) eqn:Hdead; [discriminate|].
  pose proof (commit_registered pos adj
                (singleton_Group c pos (newLiberties adj)) e) as Hreg.
  unfold post in Hreg. munfold. intros H. rewrite H in Hreg.
  split; [reflexivity|]. split; [reflexivity|]. split.
  - intros q g Hq Hg Hc.
    assert (q ∈ adj_friends adj) as Hin by (apply Hfr; right; eauto).
    rewrite Hnofr in Hin. apply elem_of_nil in Hin. exact Hin.
  - exists (newLiberties adj). split.
    { intros p. rewrite Hlib. cbn. rewrite elem_of_nil. tauto. }
    split.
    { unfold isDead, numLiberties, Positions.count, singleton_Group in Hdead.
      cbn [liberties] in Hdead. intros Hnil. rewrite Hnil in Hdead. discriminate. }
    apply Hreg. intros x Hx.
    apply Hen in Hx as [Hx | [_ (gx & Hgx & _)]].
    + cbn in Hx. apply elem_of_nil in Hx. contradiction.
    + eapply lookup_lt_Some. exact Hgx.
Qed.

(** ** The grid as an array *)

Lemma is_pos_valid_spec (p : Pos) :
  is_pos_valid p = true <-> 0 <= row p < 9 /\ 0 <= col p < 9.
Proof.
  unfold is_pos_valid, size.
  rewrite !andb_true_iff, !Z.leb_le, !Z.ltb_lt. lia.
Qed.

Lemma grid_shape_new_Board : grid_shape new_Board.
Proof.
  split; [reflexivity|]. unfold new_Board. cbn [grid].
  apply Forall_forall. intros r Hr. apply elem_of_replicate in Hr as [-> _].
  apply length_replicate.
Qed.

Lemma grid_put_shape (b : Board) (p : Pos) (x : Group) :
  grid_shape b -> grid_shape (grid_put b p x).
Proof.
  intros [Hlen Hrows]. unfold grid_shape, grid_put. cbn [grid]. split.
  - rewrite length_alter. exact Hlen.
  - apply Forall_forall. intros r Hr.
    apply list_elem_of_lookup in Hr as [i Hi].
    destruct (decide (Z.to_nat (row p) = i)) as [<- | Hne].
    + rewrite list_lookup_alter_eq in Hi.
      destruct (grid b !! Z.to_nat (row p)) as [r0|] eqn:Hr0; [|discriminate].
      inversion Hi; subst r. rewrite length_insert.
      rewrite Forall_forall in Hrows. apply Hrows.
      apply list_elem_of_lookup. eauto.
    + rewrite list_lookup_alter_ne in Hi by exact Hne.
      rewrite Forall_forall in Hrows. apply Hrows.
      apply list_elem_of_lookup. eauto.
Qed.

Lemma grid_at_put_eq (b : Board) (p : Pos) (x : Group) :
  grid_shape b -> is_pos_valid p = true -> grid_at (grid_put b p x) p = x.
Proof.
  intros [Hlen Hrows] Hv. apply is_pos_valid_spec in Hv.
  unfold grid_at, grid_put. cbn [grid]. rewrite list_lookup_alter_eq.
  destruct (grid b !! Z.to_nat (row p)) as [r|] eqn:Hr.
  - cbn. rewrite list_lookup_insert_eq; [reflexivity|].
    rewrite Forall_forall in Hrows.
    assert (Hl : length r = Z.to_nat size)
      by (apply Hrows; apply list_elem_of_lookup; eauto).
    unfold Group in *. rewrite Hl. unfold size. lia.
  - apply lookup_ge_None in Hr. rewrite Hlen in Hr. unfold size in Hr. lia.
Qed.

Lemma grid_at_put_ne (b : Board) (p q : Pos) (x : Group) :
  is_pos_valid p = true -> is_pos_valid q = true -> p <> q ->
  grid_at (grid_put b p x) q = grid_at b q.
Proof.
  intros Hp Hq Hne. apply is_pos_valid_spec in Hp, Hq.
  unfold grid_at, grid_put. cbn [grid].
  destruct (decide (Z.to_nat (row p) = Z.to_nat (row q))) as [Heq | Hr].
  - rewrite Heq, list_lookup_alter_eq.
    destruct (grid b !! Z.to_nat (row q)) as [r|]; [|reflexivity]. cbn.
    rewrite list_lookup_insert_ne; [reflexivity|].
    intros Hc. apply Hne. destruct p, q. cbn in *. f_equal; lia.
  - rewrite list_lookup_alter_ne by exact Hr. reflexivity.
Qed.

(** Writing [x] to the cells [ps], as the loops over a group's stones do. *)
Lemma set_cells (x : Group) (ps : list Pos) (b0 : Board) (m : store) :
  (forall p, p ∈ ps -> is_pos_valid p = true) -> grid_shape b0 ->
  exists b1,
    for_each ps (fun p => setGroupPtr p x) (mkEnv b0 m) = (Ok tt, mkEnv b1 m)
    /\ activeGroups b1 = activeGroups b0
    /\ grid_shape b1
    /\ forall q, is_pos_valid q = true ->
         grid_at b1 q = if bool_decide (q ∈ ps) then x else grid_at b0 q.
Proof.
  revert b0. induction ps as [|p ps IH]; intros b0 Hv Hsh.
  - exists b0. repeat split; try assumption; try apply Hsh. 
  - assert (Hp : is_pos_valid p = true) by (apply Hv; apply elem_of_cons; auto).
    destruct (IH (grid_put b0 p x)) as (b1 & Hrun & Hag & Hsh1 & Hcells).
    { intros q Hq. apply Hv. apply elem_of_cons. auto. }
    { apply grid_put_shape. exact Hsh. }
    exists b1. split; [|split; [exact Hag|split; [exact Hsh1|]]].
    + cbn [for_each]. munfold. unfold setGroupPtr at 1. rewrite Hp.
      unfold modify. cbn [this mem]. exact Hrun.
    + intros q Hq. rewrite (Hcells q Hq).
      destruct (bool_decide (q ∈ ps)) eqn:Hin.
      * apply bool_decide_eq_true in Hin.
        rewrite bool_decide_eq_true_2 by (apply elem_of_cons; auto). reflexivity.
      * apply bool_decide_eq_false in Hin.
        destruct (decide (q = p)) as [-> | Hne].
        -- rewrite bool_decide_eq_true_2 by (apply elem_of_cons; auto).
           apply grid_at_put_eq; assumption.
        -- rewrite bool_decide_eq_false_2
             by (rewrite elem_of_cons; tauto).
           apply grid_at_put_ne; auto.
Qed.

Lemma copy_loop_cons (q : ptr) (todo : list ptr) (b : Board) (m : store)
    (og : _Group) :
  m !! q = Some og ->
  copy_loop (q :: todo) (mkEnv b m)
  = match for_each (elements (stones og))
            (fun p => setGroupPtr p (Some (length m))) (mkEnv b (m ++ [og])) with
    | (Ok _, e1) => copy_loop todo e1
    | (Throw w, e1) => (Throw w, e1)
    | (Undefined, e1) => (Undefined, e1)
    end.
Proof.
  intros Hog. unfold copy_loop. cbn [for_each]. munfold.
  unfold deref, alloc. cbn [mem this]. rewrite Hog. cbn [mem this].
  destruct (for_each _ _ _) as [[[]|w|] e1]; reflexivity.
Qed.

Lemma copy_loop_spec (h : store) (ags : list ptr) (todo : list ptr) :
  forall (objs : list _Group) (b0 : Board),
    (forall q, q ∈ todo -> on_grid_group h q) ->
    activeGroups b0 = ags -> grid_shape b0 ->
    cells_mirror (length h) objs b0 ->
    exists objs' b1,
      copy_loop todo (mkEnv b0 (h ++ objs)) = (Ok tt, mkEnv b1 (h ++ objs ++ objs'))
      /\ Forall2 (fun q g => h !! q = Some g) todo objs'
      /\ activeGroups b1 = ags /\ grid_shape b1
      /\ cells_mirror (length h) (objs ++ objs') b1.
Proof.
  induction todo as [|q todo IH]; intros objs b0 Hlive Hag Hsh Hcm.
  - exists [], b0. rewrite app_nil_r. repeat split; try assumption; try apply Hsh.
    constructor.
  - destruct (Hlive q) as (og & Hog & Hval); [apply elem_of_cons; auto|].
    destruct (set_cells (Some (length (h ++ objs))) (elements (stones og)) b0
                ((h ++ objs) ++ [og]) Hval Hsh)
      as (b1 & Hrun1 & Hag1 & Hsh1 & Hcells).
    destruct (IH (objs ++ [og]) b1) as (objs' & b2 & Hrun2 & Hall & Hag2 & Hsh2 & Hcm2).
    { intros q' Hq'. apply Hlive. apply elem_of_cons. auto. }
    { congruence. }
    { exact Hsh1. }
    { intros p Hp. rewrite (Hcells p Hp).
      destruct (bool_decide (p ∈ elements (stones og))) eqn:Hin.
      - apply bool_decide_eq_true in Hin. exists (length objs), og.
        split; [rewrite length_app; reflexivity|]. split; [|exact Hin].
        apply list_lookup_middle. reflexivity.
      - apply bool_decide_eq_false in Hin. specialize (Hcm p Hp).
        destruct (grid_at b0 p) as [q'|].
        + destruct Hcm as (k & g & Hq' & Hk & Hpg). exists k, g.
          split; [exact Hq'|]. split; [|exact Hpg].
          apply lookup_app_l_Some. exact Hk.
        + intros g Hg. apply elem_of_app in Hg as [Hg | Hg]; [auto|].
          apply list_elem_of_singleton in Hg as ->. exact Hin. }
    exists (og :: objs'), b2.
    split; [|split; [constructor; assumption|split; [exact Hag2|split; [exact Hsh2|]]]].
    + rewrite (copy_loop_cons q todo b0 (h ++ objs) og)
        by (apply lookup_app_l_Some; exact Hog).
      rewrite Hrun1.
      replace (h ++ objs ++ og :: objs') with (h ++ (objs ++ [og]) ++ objs')
        by (rewrite <- !app_assoc; reflexivity).
      replace ((h ++ objs) ++ [og]) with (h ++ objs ++ [og])
        by (rewrite <- app_assoc; reflexivity).
      exact Hrun2.
    + replace (objs ++ og :: objs') with ((objs ++ [og]) ++ objs')
        by (rewrite <- app_assoc; reflexivity).
      exact Hcm2.
Qed.

(** X19.  [Board::copy] on a board whose active groups are live objects
    with all stones on the grid: it returns a board, allocates one new
    object per active group (equal to the original, in the set's order)
    and changes no existing object; the copy's active set is the
    original's; every cell of the copy points to a new object that has the
    point among its stones, and is null only where no active group has a
    stone. *)
Theorem copy_spec (b : Board) (h : store) :
  (forall q, q ∈ activeGroups b -> on_grid_group h q) ->
  exists res gs,
    copy b h = (Ok res, h ++ gs)
    /\ Forall2 (fun q g => h !! q = Some g) (activeGroups b) gs
    /\ activeGroups res = activeGroups b
    /\ grid_shape res
    /\ cells_mirror (length h) gs res.
Proof.
  intros Hlive.
  destruct (copy_loop_spec h (activeGroups b) (activeGroups b) []
              (mkBoard (grid new_Board) (activeGroups b)) Hlive eq_refl)
    as (gs & b1 & Hrun & Hall & Hag & Hsh & Hcm).
  { apply grid_shape_new_Board. }
  { intros p Hp.
    change (grid_at (mkBoard (grid new_Board) (activeGroups b)) p)
      with (grid_at new_Board p).
    rewrite grid_at_new_Board. intros g Hg. apply elem_of_nil in Hg. contradiction. }
  exists b1, gs. rewrite app_nil_r in Hrun. cbn [app] in *.
  split; [|auto]. unfold copy, on_board. munfold. rewrite Hrun. reflexivity.
Qed.

(** ** [clear] *)

Lemma grid_at_cleared (b : Board) (p : Pos) :
  grid_at (mkBoard (map (map (fun _ => None)) (grid b)) (activeGroups b)) p = None.
Proof.
  unfold grid_at. cbn [grid].
  change (map (map (fun _ : Group => @None ptr)) (grid b))
    with ((fmap (M := list) (fmap (M := list) (fun _ : Group => @None ptr))) (grid b)).
  rewrite list_lookup_fmap.
  destruct (grid b !! Z.to_nat (row p)) as [r|]; [|reflexivity]. cbn.
  rewrite list_lookup_fmap. destruct (r !! Z.to_nat (col p)); reflexivity.
Qed.

(** X17.  [clear] is idempotent and keeps the grid 9x9; after [clear]
    every [place_stone] call returns [false] and changes nothing. *)
Theorem clear_then_place_stone (e : Env) (c : Color) (pos : Pos) :
  snd (clear (snd (clear e))) = snd (clear e)
  /\ place_stone c pos (snd (clear e)) = (Ok false, snd (clear e))
  /\ (grid_shape (this e) -> grid_shape (this (snd (clear e)))).
Proof.
  split; [|split].
  - unfold clear, modify. cbn [snd this mem grid activeGroups]. f_equal. f_equal.
    rewrite map_map. apply map_ext. intros r. rewrite map_map. reflexivity.
  - apply place_stone_guard. right. unfold clear, modify. cbn [snd this].
    apply grid_at_cleared.
  - intros [Hlen Hrows]. unfold clear, modify, grid_shape. cbn [snd this grid].
    split; [rewrite length_map; exact Hlen|].
    apply Forall_forall. intros r Hr.
    apply list_elem_of_In, in_map_iff in Hr as (r0 & <- & Hr0).
    rewrite length_map. rewrite Forall_forall in Hrows. apply Hrows.
    apply list_elem_of_In. exact Hr0.
Qed.

(** ** [isInAtari] *)

Lemma isInAtari_loop (t : Color) (h : store) (gs : list ptr) :
  (forall q, q ∈ gs -> is_Some (h !! q)) ->
  exists r,
    for_first gs (fun r =>
      deref r ≫= fun og =>
      if Color_eqb (color og) t && Nat.eqb (numLiberties og) 1
      then mret (Some true) else mret None) h = (Ok r, h)
    /\ (r = Some true \/ r = None)
    /\ (r = Some true <-> exists q, q ∈ gs /\ in_atari h t q).
Proof.
  induction gs as [|i gs IH]; intros Hlive.
  - exists None. split; [reflexivity|]. split; [auto|]. split; [discriminate|].
    intros (q & Hq & _). apply elem_of_nil in Hq. contradiction.
  - destruct (Hlive i) as [oi Hoi]; [apply elem_of_cons; auto|].
    cbn [for_first]. munfold. unfold deref. rewrite Hoi.
    destruct (Color_eqb (color oi) t && Nat.eqb (numLiberties oi) 1) eqn:Hc.
    + exists (Some true). split; [reflexivity|]. split; [auto|].
      split; [|reflexivity]. intros _. exists i. split; [apply elem_of_cons; auto|].
      apply andb_true_iff in Hc as [Hcol Hn].
      apply bool_decide_eq_true in Hcol. apply Nat.eqb_eq in Hn.
      exists oi. auto.
    + destruct IH as (r & Hrun & Hr & Hiff).
      { intros q Hq. apply Hlive. apply elem_of_cons. auto. }
      exists r. split; [exact Hrun|]. split; [exact Hr|].
      rewrite Hiff. split.
      * intros (q & Hq & Ha). exists q. split; [apply elem_of_cons; auto|exact Ha].
      * intros (q & Hq & Ha). apply elem_of_cons in Hq as [-> | Hq]; [|eauto].
        destruct Ha as (g & Hg & Hcol & Hn).
        assert (Some g = Some oi) as Heq by (rewrite <- Hg; exact Hoi).
        inversion Heq; subst g.
        apply andb_false_iff in Hc as [Hc | Hc].
        -- apply bool_decide_eq_false in Hc. contradiction.
        -- apply Nat.eqb_neq in Hc. contradiction.
Qed.

(** X20.  [isInAtari] on a board whose active groups are live objects
    leaves the store alone and answers [true] exactly when some active
    group of the colour has exactly one liberty. *)
Theorem isInAtari_spec (e : Board) (t : Color) (h : store) :
  (forall q, q ∈ activeGroups e -> is_Some (h !! q)) ->
  exists v,
    isInAtari e t h = (Ok v, h)
    /\ (v = true <-> exists q, q ∈ activeGroups e /\ in_atari h t q).
Proof.
  intros Hlive. destruct (isInAtari_loop t h (activeGroups e) Hlive)
    as (r & Hrun & Hr & Hiff).
  exists (default false r). unfold isInAtari. munfold. rewrite Hrun.
  split; [reflexivity|]. rewrite <- Hiff.
  destruct Hr as [-> | ->]; cbn; split; congruence.
Qed.

Lemma Color_not_spec (c t : Color) : c <> t <-> c = Color_not t.
Proof. destruct c, t; vm_compute; split; intros H; congruence. Qed.

Lemma Color_eqb_not (c t : Color) :
  Color_eqb c (Color_not t) = negb (Color_eqb c t).
Proof. destruct c, t; reflexivity. Qed.

(** ** [find_capture_moves] *)

Lemma capture_loop_spec
    (ko : Board -> Pos -> Color -> store -> result bool)
    (e : Board) (t : Color) (h : store) (gs : list ptr) (r : Positions) :
  (forall q, q ∈ gs -> is_Some (h !! q)) ->
  (forall q p, q ∈ gs -> atari_liberty h (Color_not t) q p ->
     exists v, ko e p t h = Ok v) ->
  ordered (elements r) ->
  exists r',
    capture_loop ko e t gs r h = (Ok r', h)
    /\ ordered (elements r')
    /\ forall p, p ∈ elements r' <->
         p ∈ elements r
         \/ exists q, q ∈ gs /\ atari_liberty h (Color_not t) q p
                      /\ ko e p t h = Ok false.
Proof.
  revert r. induction gs as [|i gs IH]; intros r Hlive Hans Hord.
  - exists r. split; [reflexivity|]. split; [exact Hord|]. intros p. split; [auto|].
    intros [H | (q & Hq & _)]; [exact H|]. apply elem_of_nil in Hq. contradiction.
  - destruct (Hlive i) as [oi Hoi]; [apply elem_of_cons; auto|].
    assert (Hlive' : forall q, q ∈ gs -> is_Some (h !! q)).
    { intros q Hq. apply Hlive. apply elem_of_cons. auto. }
    assert (Hans' : forall q p, q ∈ gs -> atari_liberty h (Color_not t) q p ->
                      exists v, ko e p t h = Ok v).
    { intros q p Hq. apply Hans. apply elem_of_cons. auto. }
    cbn [capture_loop]. unfold deref. munfold. rewrite Hoi.
    destruct (negb (Color_eqb (color oi) t) && Nat.eqb (numLiberties oi) 1) eqn:Hc.
    + apply andb_true_iff in Hc as [Hcol Hn].
      apply negb_true_iff, bool_decide_eq_false, Color_not_spec in Hcol.
      apply Nat.eqb_eq in Hn.
      unfold Bot.first.
      destruct (Positions.getAny (liberties oi)) as [curr|] eqn:Hany.
      2:{ unfold numLiberties, Positions.count in Hn. unfold Positions.getAny in Hany.
          destruct (elements (liberties oi)); discriminate. }
      assert (Hal : atari_liberty h (Color_not t) i curr) by (exists oi; auto).
      destruct (Hans i curr) as [v Hv]; [apply elem_of_cons; auto|exact Hal|].
      munfold. rewrite Hv.
      assert (Huniq : forall p, atari_liberty h (Color_not t) i p -> p = curr).
      { intros p (g & Hg & _ & _ & Hp).
        assert (Some g = Some oi) as Heq by (rewrite <- Hg; exact Hoi).
        inversion Heq; subst g. rewrite Hany in Hp. inversion Hp; reflexivity. }
      destruct v.
      * destruct (IH r Hlive' Hans' Hord) as (r' & Hrun & Hord' & Hr').
        exists r'. split; [exact Hrun|]. split; [exact Hord'|].
        intros p. rewrite Hr'. split.
        -- intros [H | (q & Hq & Hrest)]; [left; exact H|].
           right. exists q. split; [apply elem_of_cons; auto|exact Hrest].
        -- intros [H | (q & Hq & Ha & Hs)]; [left; exact H|].
           apply elem_of_cons in Hq as [-> | Hq].
           ++ rewrite (Huniq p Ha) in Hs. congruence.
           ++ right. exists q. auto.
      * destruct (IH (Positions.add r curr) Hlive' Hans') as (r' & Hrun & Hord' & Hr').
        { apply set_insert_ordered. exact Hord. }
        exists r'. split; [exact Hrun|]. split; [exact Hord'|].
        intros p. rewrite Hr'.
        cbn [Positions.add elements]. rewrite elem_of_set_insert. split.
        -- intros [[-> | H] | (q & Hq & Hrest)].
           ++ right. exists i. split; [apply elem_of_cons; auto|]. auto.
           ++ left; exact H.
           ++ right. exists q. split; [apply elem_of_cons; auto|exact Hrest].
        -- intros [H | (q & Hq & Ha & Hs)]; [left; right; exact H|].
           apply elem_of_cons in Hq as [-> | Hq].
           ++ left; left. exact (Huniq p Ha).
           ++ right. exists q. auto.
    + destruct (IH r Hlive' Hans' Hord) as (r' & Hrun & Hord' & Hr').
      exists r'. split; [exact Hrun|]. split; [exact Hord'|].
      intros p. rewrite Hr'. split.
      * intros [H | (q & Hq & Hrest)]; [left; exact H|].
        right. exists q. split; [apply elem_of_cons; auto|exact Hrest].
      * intros [H | (q & Hq & Ha & Hs)]; [left; exact H|].
        apply elem_of_cons in Hq as [-> | Hq]; [|right; exists q; auto].
        destruct Ha as (g & Hg & Hcol & Hn & _).
        assert (Some g = Some oi) as Heq by (rewrite <- Hg; exact Hoi).
        inversion Heq; subst g.
        apply andb_false_iff in Hc as [Hc | Hc].
        -- apply negb_false_iff, bool_decide_eq_true in Hc.
           apply Color_not_spec in Hcol. contradiction.
        -- apply Nat.eqb_neq in Hc. contradiction.
Qed.

(** X21.  [find_capture_moves] returns, without repetition and in the
    order of the positions, exactly the last liberties of the enemy groups
    in atari that [is_move_violates_ko] does not reject; the store is
    left alone.  The premises: the active groups are live objects and
    [is_move_violates_ko] answers at those liberties. *)
Theorem find_capture_moves_spec
    (ko : Board -> Pos -> Color -> store -> result bool)
    (e : Board) (t : Color) (h : store) :
  (forall q, q ∈ activeGroups e -> is_Some (h !! q)) ->
  (forall q p, q ∈ activeGroups e -> atari_liberty h (Color_not t) q p ->
     exists v, ko e p t h = Ok v) ->
  exists l,
    find_capture_moves ko e t h = (Ok l, h)
    /\ ordered l
    /\ forall p, p ∈ l <->
         exists q, q ∈ activeGroups e /\ atari_liberty h (Color_not t) q p
                   /\ ko e p t h = Ok false.
Proof.
  intros Hlive Hans.
  destruct (capture_loop_spec ko e t h (activeGroups e) Positions.empty Hlive Hans)
    as (r' & Hrun & Hord & Hr'); [constructor|].
  exists (elements r'). unfold find_capture_moves. munfold. rewrite Hrun.
  split; [reflexivity|]. split; [exact Hord|]. intros p. rewrite Hr'.
  cbn. rewrite elem_of_nil. tauto.
Qed.

(** ** [find_anti_capture_moves] when nothing is in atari *)

Lemma anti_capture_loop_quiet
    (self : Bot.t) (sc : Board -> Pos -> Color -> store -> result bool)
    (e : Board) (t : Color) (h : store) (gs : list ptr) (r : Positions) :
  fst (for_first gs (fun r =>
         deref r ≫= fun og =>
         if Color_eqb (color og) t && Nat.eqb (numLiberties og) 1
         then mret (Some true) else mret None) h) = Ok None ->
  Bot.anti_capture_loop self sc e t gs r h = (Ok (Some r), h).
Proof.
  induction gs as [|i gs IH]; [reflexivity|].
  cbn [for_first Bot.anti_capture_loop]. unfold deref. munfold.
  destruct (h !! i) as [oi|]; [|discriminate].
  destruct (Color_eqb (color oi) t && Nat.eqb (numLiberties oi) 1);
    [discriminate|].
  exact IH.
Qed.

Lemma isInAtari_false (e : Board) (t : Color) (h h' : store) :
  isInAtari e t h = (Ok false, h') ->
  fst (for_first (activeGroups e) (fun r =>
         deref r ≫= fun og =>
         if Color_eqb (color og) t && Nat.eqb (numLiberties og) 1
         then mret (Some true) else mret None) h) = Ok None.
Proof.
  unfold isInAtari.
  match goal with
  | |- context [for_first ?l ?f h] =>
      pose proof (for_first_avoids false f l) as Hav;
      unfold mbind at 1, M_mbind at 1, M_bind at 1;
      destruct (for_first l f h) as [[[[]|]|w|] h1] eqn:Hf
  end; try discriminate; [|reflexivity].
  exfalso. apply (Hav (fun x s => ltac:(
    unfold deref; munfold; destruct (s !! x) as [og|]; [|discriminate];
    destruct (_ && _); discriminate)) h).
  rewrite Hf. reflexivity.
Qed.

(** X22.  When no group of the colour is in atari,
    [find_anti_capture_moves] returns the empty array, whatever the
    strength profile, and leaves the store alone. *)
Theorem find_anti_capture_moves_quiet
    (self : Bot.t) (sc : Board -> Pos -> Color -> store -> result bool)
    (e : Board) (t : Color) (h h' : store) :
  isInAtari e t h = (Ok false, h') ->
  Bot.find_anti_capture_moves self sc e t h = (Ok (Bot.JsArray []), h).
Proof.
  intros H. unfold Bot.find_anti_capture_moves. munfold.
  rewrite (anti_capture_loop_quiet self sc e t h (activeGroups e) Positions.empty
             (isInAtari_false e t h h' H)).
  reflexivity.
Qed.

(** ** [find_ladder_move] with an enemy already in atari *)

Lemma enemy_in_atari_of_isInAtari (t : Color) (h : store) (gs : list ptr) :
  fst (for_first gs (fun r =>
         deref r ≫= fun og =>
         if Color_eqb (color og) (Color_not t) && Nat.eqb (numLiberties og) 1
         then mret (Some true) else mret None) h) = Ok (Some true) ->
  for_first gs (fun r =>
    deref r ≫= fun og =>
    if negb (Color_eqb (color og) t) && Nat.eqb (numLiberties og) 1
    then mret (Some tt) else mret None) h = (Ok (Some tt), h).
Proof.
  induction gs as [|i gs IH]; [discriminate|].
  cbn [for_first]. unfold deref. munfold.
  destruct (h !! i) as [oi|]; [|discriminate].
  rewrite Color_eqb_not.
  destruct (negb (Color_eqb (color oi) t) && Nat.eqb (numLiberties oi) 1);
    [reflexivity|].
  exact IH.
Qed.

Lemma isInAtari_true (e : Board) (t : Color) (h h' : store) :
  isInAtari e t h = (Ok true, h') ->
  fst (for_first (activeGroups e) (fun r =>
         deref r ≫= fun og =>
         if Color_eqb (color og) t && Nat.eqb (numLiberties og) 1
         then mret (Some true) else mret None) h) = Ok (Some true).
Proof.
  unfold isInAtari. unfold mbind at 1, M_mbind at 1, M_bind at 1.
  destruct (for_first _ _ h) as [[[[]|]|w|] h1]; cbn; intros H;
    inversion H; reflexivity.
Qed.

(** X24.  Within the depth bound, [find_ladder_move] answers [true] at
    once when an enemy group is already in atari: no copy is made and no
    move is tried. *)
Theorem find_ladder_move_enemy_atari
    (self : Bot.t) (valid : Board -> Pos -> Color -> store -> result bool)
    (fuel : nat) (e : Board) (t : Color) (r : Z) (i : bool) (h h' : store) :
  r <= Bot.depth_limit self i ->
  isInAtari e (Color_not t) h = (Ok true, h') ->
  Bot.find_ladder_move self valid (S fuel) e t r i h
  = (Ok (Some (Bot.LBool true)), h).
Proof.
  intros Hr Hat. cbn [Bot.find_ladder_move].
  assert (Hguard : (if i then r >? Bot.anti_ladder_depth self
                    else r >? Bot.ladder_depth self) = false).
  { unfold Bot.depth_limit in Hr. destruct i; rewrite Z.gtb_ltb; apply Z.ltb_ge; exact Hr. }
  rewrite Hguard. unfold Bot.enemy_in_atari.
  unfold mbind at 1, M_mbind at 1, M_bind at 1.
  rewrite (enemy_in_atari_of_isInAtari t h (activeGroups e)
             (isInAtari_true e (Color_not t) h h' Hat)).
  reflexivity.
Qed.

(** X25.  For every level the constructor sets [ladder_depth] and
    [anti_ladder_depth] to the same value, between 0 and 10, and a level
    that may resign also answers ladders nearby; so for every level eleven
    nested calls are enough for [find_ladder_move] from depth 1. *)
Theorem levels_bound_the_ladder
    (level : Bot.BotLevel) (c : Color) (b : Board)
    (valid : Board -> Pos -> Color -> store -> result bool)
    (e : Board) (t : Color) (i : bool) (s : store) :
  Bot.ladder_depth (Bot.make level c b) = Bot.anti_ladder_depth (Bot.make level c b)
  /\ 0 <= Bot.ladder_depth (Bot.make level c b) <= 10
  /\ (Bot.can_resign (Bot.make level c b) = true ->
      Bot.anti_ladder_nearest (Bot.make level c b) = true)
  /\ fst (Bot.find_ladder_move (Bot.make level c b) valid 11 e t 1 i s) <> Ok None.
Proof.
  split; [destruct level; reflexivity|].
  split; [destruct level; cbn; lia|].
  split; [destruct level; cbn; congruence|].
  apply find_ladder_move_enough. destruct level, i; cbn; lia.
Qed.

Lemma cell_color_spec (b : Board) (h : store) (p : Pos) :
  is_pos_valid p = true ->
  cell_color b p h
  = match stone_of b h p with
    | Some c => (Ok c, h)
    | None => (Undefined, h)
    end.
Proof.
  intros Hv. unfold cell_color, getGroupPtr, stone_of, deref. rewrite Hv. munfold.
  destruct (grid_at b p) as [q|]; [|reflexivity].
  destruct (h !! q) as [g|]; reflexivity.
Qed.

Section Eye.
Variables (b : Board) (h : store) (c : Color).

Lemma nloop_cons (p : Pos) (ps : list Pos) :
  for_first (p :: ps) (eye_neighbor_test b c) h
  = if is_pos_valid p then
      match stone_of b h p with
      | Some pc => if Color_eqb pc c then for_first ps (eye_neighbor_test b c) h
                   else (Ok (Some false), h)
      | None => (Undefined, h)
      end
    else for_first ps (eye_neighbor_test b c) h.
Proof.
  cbn [for_first]. unfold eye_neighbor_test. munfold.
  destruct (is_pos_valid p) eqn:Hv.
  - pose proof (cell_color_spec b h p Hv) as Hcc. munfold.
    destruct (cell_color b p h) as [r s'].
    destruct (stone_of b h p) as [pc|]; inversion Hcc; subst; [|reflexivity].
    destruct (Color_eqb pc c); cbn [negb].
    + destruct (for_first ps _ h) as [[[v|]|w|] s1]; reflexivity.
    + reflexivity.
  - destruct (for_first ps _ h) as [[[v|]|w|] s1]; reflexivity.
Qed.

Lemma eye_neighbors_loop (ps : list Pos) :
  (for_first ps (eye_neighbor_test b c) h = (Ok None, h)
   /\ forall p, p ∈ ps -> is_pos_valid p = true -> stone_of b h p = Some c)
  \/ ((exists r, for_first ps (eye_neighbor_test b c) h = (r, h) /\ r <> Ok None /\ r <> Ok (Some true))
      /\ ~ forall p, p ∈ ps -> is_pos_valid p = true -> stone_of b h p = Some c).
Proof.
  induction ps as [|p ps IH].
  - left. split; [reflexivity|]. intros p Hp. apply elem_of_nil in Hp. contradiction.
  - rewrite nloop_cons.
    destruct (is_pos_valid p) eqn:Hv.
    + destruct (stone_of b h p) as [pc|] eqn:Hst.
      * destruct (Color_eqb pc c) eqn:Hc.
        -- apply bool_decide_eq_true in Hc. subst pc.
           destruct IH as [[Hrun Hall] | [Hex Hnot]].
           ++ left. split; [exact Hrun|]. intros q Hq Hvq.
              apply elem_of_cons in Hq as [-> | Hq]; auto.
           ++ right. split; [exact Hex|]. intros Hall. apply Hnot.
              intros q Hq. apply Hall. apply elem_of_cons. auto.
        -- apply bool_decide_eq_false in Hc. right. split.
           ++ eexists. split; [reflexivity|]. split; discriminate.
           ++ intros Hall. apply Hc.
              specialize (Hall p (list_elem_of_here _ _) Hv). congruence.
      * right. split.
        -- eexists. split; [reflexivity|]. split; discriminate.
        -- intros Hall. specialize (Hall p (list_elem_of_here _ _) Hv). congruence.
    + destruct IH as [[Hrun Hall] | [Hex Hnot]].
      * left. split; [exact Hrun|]. intros q Hq Hvq.
        apply elem_of_cons in Hq as [-> | Hq]; [congruence|auto].
      * right. split; [exact Hex|]. intros Hall. apply Hnot.
        intros q Hq. apply Hall. apply elem_of_cons. auto.
Qed.


Lemma eye_corners_cons (p : Pos) (ps : list Pos) (k : EyeCount) :
  eye_corners b c (p :: ps) k h
  = if is_pos_valid p then
      match stone_of b h p with
      | Some pc =>
          if Color_eqb pc c
          then eye_corners b c ps
                 (mkEyeCount (num_corners k + 1) (side_corners k) (is_center_eye k)) h
          else eye_corners b c ps k h
      | None => (Undefined, h)
      end
    else eye_corners b c ps
           (mkEyeCount (num_corners k) (side_corners k + 1) false) h.
Proof.
  cbn [eye_corners]. munfold.
  destruct (is_pos_valid p) eqn:Hv; [|reflexivity].
  pose proof (cell_color_spec b h p Hv) as Hcc.
  destruct (cell_color b p h) as [r s'].
  destruct (stone_of b h p) as [pc|]; inversion Hcc; subst; [|reflexivity].
  destruct (Color_eqb pc c); reflexivity.
Qed.

Lemma eye_corners_loop (ps : list Pos) (k : EyeCount) :
  ((forall p, p ∈ ps -> is_pos_valid p = true -> is_Some (stone_of b h p))
   /\ eye_corners b c ps k h
      = (Ok (mkEyeCount (num_corners k + Z.of_nat (own_corners b h c ps))
                        (side_corners k + Z.of_nat (off_corners b ps))
                        (is_center_eye k && Nat.eqb (off_corners b ps) 0)), h))
  \/ ((exists r, eye_corners b c ps k h = (r, h) /\ forall k', r <> Ok k')
      /\ ~ forall p, p ∈ ps -> is_pos_valid p = true -> is_Some (stone_of b h p)).
Proof.
  revert k. induction ps as [|p ps IH]; intros k.
  - left. split; [intros p Hp; apply elem_of_nil in Hp; contradiction|].
    cbn. destruct k as [n s ce]. cbn. rewrite !Z.add_0_r, andb_true_r. reflexivity.
  - rewrite eye_corners_cons. unfold own_corners, off_corners.
    rewrite !filter_cons.
    assert (Hk : forall k0,
              (exists r, eye_corners b c ps k0 h = (r, h) /\ forall k', r <> Ok k')
              /\ ~ (forall q, q ∈ ps -> is_pos_valid q = true ->
                      is_Some (stone_of b h q)) ->
              (exists r, eye_corners b c ps k0 h = (r, h) /\ forall k', r <> Ok k')
              /\ ~ (forall q, q ∈ p :: ps -> is_pos_valid q = true ->
                      is_Some (stone_of b h q))).
    { intros k0 [Hex Hnot]. split; [exact Hex|]. intros Hall. apply Hnot.
      intros q Hq. apply Hall. apply elem_of_cons. auto. }
    destruct (is_pos_valid p) eqn:Hv.
    + destruct (decide (true = false)) as [Habs|_]; [discriminate|].
      destruct (stone_of b h p) as [pc|] eqn:Hst.
      * assert (Hall' : (forall q, q ∈ ps -> is_pos_valid q = true ->
                           is_Some (stone_of b h q)) ->
                        forall q, q ∈ p :: ps -> is_pos_valid q = true ->
                          is_Some (stone_of b h q)).
        { intros Hall q Hq Hvq. apply elem_of_cons in Hq as [-> | Hq]; [|auto].
          rewrite Hst. eauto. }
        destruct (Color_eqb pc c) eqn:Hc.
        -- apply bool_decide_eq_true in Hc. subst pc.
           destruct (decide (true = true /\ Some c = Some c)) as [_|Hn];
             [|exfalso; apply Hn; auto].
           destruct (IH (mkEyeCount (num_corners k + 1) (side_corners k)
                                    (is_center_eye k))) as [[Hall Hrun] | Hbad].
           ++ left. split; [auto|]. rewrite Hrun. cbn [num_corners side_corners
                is_center_eye length]. unfold own_corners, off_corners.
              do 2 f_equal. f_equal. lia.
           ++ right. apply Hk. exact Hbad.
        -- apply bool_decide_eq_false in Hc.
           destruct (decide (true = true /\ Some pc = Some c)) as [[_ Heq]|_];
             [exfalso; apply Hc; congruence|].
           destruct (IH k) as [[Hall Hrun] | Hbad].
           ++ left. split; [auto|]. rewrite Hrun. reflexivity.
           ++ right. apply Hk. exact Hbad.
      * right. split.
        -- eexists. split; [reflexivity|]. discriminate.
        -- intros Hall. specialize (Hall p (list_elem_of_here _ _) Hv).
           rewrite Hst in Hall. destruct Hall; discriminate.
    + destruct (decide (false = false)) as [_|Hn]; [|contradiction].
      destruct (decide (false = true /\ _)) as [[Habs _]|_]; [discriminate|].
      destruct (IH (mkEyeCount (num_corners k) (side_corners k + 1) false))
        as [[Hall Hrun] | Hbad].
      * left. split.
        { intros q Hq Hvq. apply elem_of_cons in Hq as [-> | Hq]; [congruence|auto]. }
        rewrite Hrun. cbn [num_corners side_corners is_center_eye length].
        unfold own_corners, off_corners. rewrite andb_false_r.
        do 2 f_equal. f_equal. lia.
      * right. apply Hk. exact Hbad.
Qed.
End Eye.

Lemma is_point_an_eye_eq (b : Board) (pos : Pos) (c : Color) (h : store) :
  is_point_an_eye b pos c h
  = if is_pos_valid pos then
      match grid_at b pos with
      | Some _ => (Ok false, h)
      | None =>
          match for_first (neighbors pos) (eye_neighbor_test b c) h with
          | (Ok (Some v), s) => (Ok v, s)
          | (Ok None, s) =>
              match eye_corners b c (corners pos) (mkEyeCount 0 0 true) s with
              | (Ok k, s') =>
                  (Ok (if is_center_eye k then 3 <=? num_corners k
                       else side_corners k + num_corners k =? 4), s')
              | (Throw w, s') => (Throw w, s')
              | (Undefined, s') => (Undefined, s')
              end
          | (Throw w, s) => (Throw w, s)
          | (Undefined, s) => (Undefined, s)
          end
      end
    else (Undefined, h).
Proof.
  unfold is_point_an_eye, getGroupPtr, eye_neighbors, eye_neighbor_test. munfold.
  destruct (is_pos_valid pos); [|reflexivity].
  destruct (grid_at b pos); [reflexivity|]. cbn [non_null].
  destruct (for_first _ _ h) as [[[v|]|w|] s]; reflexivity.
Qed.

(** X26.  [is_point_an_eye] never changes the store, and it answers [true]
    exactly when the point is on the grid and empty, every on-grid
    neighbour holds a stone of the colour, every on-grid corner holds a
    stone, and of the corners either all four are on the grid and at least
    three hold the colour, or some are off the grid and all the others
    hold the colour. *)
Theorem is_point_an_eye_true (b : Board) (pos : Pos) (c : Color) (h : store) :
  snd (is_point_an_eye b pos c h) = h
  /\ (is_point_an_eye b pos c h = (Ok true, h) <->
      is_pos_valid pos = true
      /\ grid_at b pos = None
      /\ (forall p, p ∈ neighbors pos -> is_pos_valid p = true ->
            stone_of b h p = Some c)
      /\ (forall p, p ∈ corners pos -> is_pos_valid p = true ->
            is_Some (stone_of b h p))
      /\ (if Nat.eqb (off_corners b (corners pos)) 0
          then (3 <= own_corners b h c (corners pos))%nat
          else (own_corners b h c (corners pos) + off_corners b (corners pos) = 4)%nat)).
Proof.
  rewrite is_point_an_eye_eq.
  destruct (is_pos_valid pos) eqn:Hv.
  2:{ split; [reflexivity|]. split; [discriminate|]. intros [H _]. discriminate. }
  destruct (grid_at b pos) as [q|] eqn:Hg.
  { split; [reflexivity|]. split; [discriminate|]. intros (_ & H & _). discriminate. }
  destruct (eye_neighbors_loop b h c (neighbors pos)) as [[Hrun Hall] | [(r & Hrun & Hr1 & Hr2) Hnot]].
  - rewrite Hrun.
    destruct (eye_corners_loop b h c (corners pos) (mkEyeCount 0 0 true))
      as [[Hocc Hc] | [(r & Hc & Hr) Hnot]].
    + rewrite Hc. cbn [num_corners side_corners is_center_eye andb fst snd].
      split; [reflexivity|].
      assert (Hlen : (own_corners b h c (corners pos) <= 4)%nat).
      { unfold own_corners. etransitivity; [apply length_filter|]. reflexivity. }
      destruct (Nat.eqb (off_corners b (corners pos)) 0) eqn:Hoff; cbn [andb].
      * split.
        -- intros H. injection H as H1. apply Z.leb_le in H1.
           split; [reflexivity|]. split; [reflexivity|]. split; [exact Hall|].
           split; [exact Hocc|]. lia.
        -- intros (_ & _ & _ & _ & H). do 2 f_equal. apply Z.leb_le. lia.
      * split.
        -- intros H. injection H as H1. apply Z.eqb_eq in H1.
           split; [reflexivity|]. split; [reflexivity|]. split; [exact Hall|].
           split; [exact Hocc|]. lia.
        -- intros (_ & _ & _ & _ & H). do 2 f_equal. apply Z.eqb_eq. lia.
    + rewrite Hc. split; [destruct r; reflexivity|]. split.
      * intros H. destruct r as [k'|w|]; try discriminate.
        exfalso. apply (Hr k'). reflexivity.
      * intros (_ & _ & _ & Hocc & _). contradiction.
  - rewrite Hrun. destruct r as [[v|]|w|];
      try (exfalso; apply Hr1; reflexivity);
      (split; [reflexivity|]); (split; [|intros (_ & _ & Hall & _); contradiction]);
      try discriminate.
    intros H. injection H as ->. exfalso. apply Hr2. reflexivity.
Qed.

(** X18.  [removeDeadGroup] of a live group whose stones are on the grid:
    the group leaves the active set (and only it), the cells of its stones
    become null, every other cell is unchanged, and no group object is
    touched. *)
Theorem removeDeadGroup_spec (g : ptr) (b : Board) (h : store) (og : _Group) :
  h !! g = Some og ->
  (forall p, p ∈ elements (stones og) -> is_pos_valid p = true) ->
  grid_shape b ->
  exists b',
    removeDeadGroup g (mkEnv b h) = (Ok tt, mkEnv b' h)
    /\ grid_shape b'
    /\ (forall q, q ∈ activeGroups b' <-> q ∈ activeGroups b /\ q <> g)
    /\ forall p, is_pos_valid p = true ->
         grid_at b' p = if Positions.has (stones og) p then None else grid_at b p.
Proof.
  intros Hog Hval Hsh.
  destruct (set_cells None (elements (stones og))
              (mkBoard (grid b) (set_erase Nat.ltb g (activeGroups b))) h Hval)
    as (b' & Hrun & Hag & Hsh' & Hcells).
  { exact Hsh. }
  exists b'. split; [|split; [exact Hsh'|split]].
  - unfold removeDeadGroup, set_activeGroups, deref. munfold. cbn [this mem].
    rewrite Hog. exact Hrun.
  - intros q. rewrite Hag. cbn [activeGroups]. apply elem_of_ptr_erase.
  - intros p Hp. rewrite (Hcells p Hp).
    destruct (Positions.has (stones og) p) eqn:Hhas.
    + apply has_elem_of in Hhas. rewrite bool_decide_eq_true_2; auto.
    + apply has_false_not_elem_of in Hhas. rewrite bool_decide_eq_false_2; auto.
Qed.

(** ** [copy] never touches an existing object *)

Lemma copy_loop_extends (h : store) (gs : list ptr) (e : Env) :
  (exists ext, mem e = h ++ ext) ->
  exists ext, mem (snd (copy_loop gs e)) = h ++ ext.
Proof.
  unfold copy_loop.
  apply (for_each_preserves (fun e => exists ext, mem e = h ++ ext)).
  intros group s Hs.
  apply bind_preserves.
  { unfold on_mem, deref. destruct (mem s !! group); exact Hs. }
  intros og s1 Hs1. apply bind_preserves.
  { unfold on_mem, alloc. cbn [snd mem]. destruct Hs1 as [ext ->].
    exists (ext ++ [og]). rewrite app_assoc. reflexivity. }
  intros cp s2 Hs2.
  apply (for_each_preserves (fun e => exists ext, mem e = h ++ ext)); [|exact Hs2].
  intros p s3 Hs3. unfold setGroupPtr. destruct (is_pos_valid p); exact Hs3.
Qed.

Lemma copy_extends (b : Board) (h : store) :
  exists ext, snd (copy b h) = h ++ ext.
Proof.
  pose proof (copy_loop_extends h (activeGroups b)
                (mkEnv (mkBoard (grid new_Board) (activeGroups b)) h)
                (ex_intro _ [] (eq_sym (app_nil_r h)))) as Hp.
  unfold copy, on_board. munfold.
  destruct (copy_loop _ _) as [[u|w|] e']; exact Hp.
Qed.

Lemma place_stone_own_object (c : Color) (pos : Pos) (e : Env) (q : ptr) (g : _Group) :
  mem e !! q = Some g -> color g = c ->
  mem (snd (place_stone c pos e)) !! q = Some g.
Proof.
  intros Hg Hc. destruct (place_stone_store_frame c pos e) as [_ Hfr].
  destruct (Hfr q g Hg) as (g' & Hg' & Hcol & Hst & [Hl | [Hne _]]);
    [|contradiction].
  assert (g' = g) as <- by (destruct g, g'; cbn in *; congruence). exact Hg'.
Qed.

Lemma commit_keeps_active (pos : Pos) (adj : Adjacent) (new_group : _Group)
    (q : ptr) (s : Env) :
  adj_friends adj = [] ->
  (forall x, x ∈ adj_enemies adj -> x <> q) ->
  q ∈ activeGroups (this s) ->
  post (for_each (adj_friends adj)
          (fun f => set_activeGroups (set_erase Nat.ltb f)) ≫= fun _ =>
        on_mem (alloc new_group) ≫= fun n =>
        set_activeGroups (set_insert Nat.ltb n) ≫= fun _ =>
        for_each (elements (stones new_group))
          (fun p => setGroupPtr p (Some n)) ≫= fun _ =>
        for_each (adj_enemies adj) (update_enemy pos) ≫= fun _ =>
        mret true) s
       (fun _ s' => q ∈ activeGroups (this s')).
Proof.
  intros Hnofr Hen Hq. rewrite Hnofr. cbn [for_each].
  apply post_bind. unfold post at 1. cbn.
  apply post_bind. unfold post at 1. unfold on_mem, alloc. cbn [fst snd this mem].
  apply post_bind. unfold post at 1. unfold set_activeGroups, modify.
  cbn [this mem grid activeGroups].
  apply post_bind.
  eapply post_weaken;
    [|apply (post_for_each (fun e => q ∈ activeGroups (this e)))].
  3:{ cbn. apply elem_of_ptr_insert. auto. }
  2:{ intros p _ s' Hs. apply post_of_snd. rewrite setGroupPtr_activeGroups. exact Hs. }
  intros u3 s3 Hs3. apply post_bind.
  eapply post_weaken;
    [|apply (post_for_each (fun e => q ∈ activeGroups (this e)))].
  - intros u4 s4 Hs4. exact Hs4.
  - intros x Hx s' Hs. apply post_of_snd.
    destruct (update_enemy_activeGroups pos x s') as [-> | ->]; [exact Hs|].
    apply elem_of_ptr_erase. split; [exact Hs|]. intros ->. eapply Hen; eauto.
  - exact Hs3.
Qed.

Lemma place_stone_keeps_own_active
    (c : Color) (pos : Pos) (e e' : Env) (v : bool) (q : ptr) (g : _Group) :
  place_stone c pos e = (Ok v, e') ->
  q ∈ activeGroups (this e) -> mem e !! q = Some g -> color g = c ->
  q ∈ activeGroups (this e').
Proof.
  intros Hrun Hq Hg Hc.
  revert Hrun. unfold place_stone. munfold.
  destruct (negb (is_pos_valid pos) || negb (non_null (grid_at (this e) pos)));
    [intros H; inversion H; subst; exact Hq|].
  destruct (classify c pos e) as [[adj|w|] e1] eqn:Hcl; try discriminate.
  pose proof (classify_state _ _ _ _ _ Hcl) as ->.
  destruct (classify_loop_spec _ _ _ _ _ _ Hcl) as (_ & _ & Hen).
  destruct (merge_friends _ _ _) as [[[]|w|] g0] eqn:Hm; try discriminate.
  apply merge_friends_Ok in Hm as [Hnofr ->].
  destruct (isDead _); [intros H; inversion H; subst; exact Hq|].
  pose proof (commit_keeps_active pos adj
                (singleton_Group c pos (newLiberties adj)) q e Hnofr) as Hk.
  unfold post in Hk. munfold. intros H. rewrite H in Hk. apply Hk; [|exact Hq].
  intros x Hx ->. apply Hen in Hx as [Hx | [_ (gx & Hgx & Hne)]].
  - cbn in Hx. apply elem_of_nil in Hx. exact Hx.
  - assert (Some gx = Some g) as Heq by (rewrite <- Hgx; exact Hg).
    inversion Heq; subst. contradiction.
Qed.

Lemma for_first_None_no_atari (t : Color) (h : store) (gs : list ptr) :
  fst (for_first gs (fun r =>
         deref r ≫= fun og =>
         if Color_eqb (color og) t && Nat.eqb (numLiberties og) 1
         then mret (Some true) else mret None) h) = Ok None ->
  forall q, q ∈ gs -> ~ in_atari h t q.
Proof.
  induction gs as [|i gs IH]; intros H q Hq.
  - apply elem_of_nil in Hq. contradiction.
  - revert H. cbn [for_first]. unfold deref. munfold.
    destruct (h !! i) as [oi|] eqn:Hoi; [|discriminate].
    destruct (Color_eqb (color oi) t && Nat.eqb (numLiberties oi) 1) eqn:Hc;
      [discriminate|].
    intros H. apply elem_of_cons in Hq as [-> | Hq]; [|apply IH; assumption].
    intros (g & Hg & Hcol & Hn).
    assert (Some g = Some oi) as Heq by (rewrite <- Hg; exact Hoi).
    inversion Heq; subst g.
    apply andb_false_iff in Hc as [Hc | Hc].
    + apply bool_decide_eq_false in Hc. contradiction.
    + apply Nat.eqb_neq in Hc. contradiction.
Qed.

Lemma isInAtari_false_no_atari (b : Board) (t : Color) (h h' : store) (q : ptr) :
  isInAtari b t h = (Ok false, h') -> q ∈ activeGroups b -> ~ in_atari h t q.
Proof.
  intros H. apply for_first_None_no_atari. eapply isInAtari_false. exact H.
Qed.

(** The defence of [find_anti_capture_moves] is tried on a copy, whose
    active groups are the original's objects: the colour is still seen in
    atari afterwards. *)
Lemma defence_still_in_atari (e : Board) (t : Color) (curr : Pos) (h : store)
    (q : ptr) :
  q ∈ activeGroups e -> in_atari h t q ->
  forall h', (copy e ≫= fun r' =>
              on_board r' (place_stone t curr) ≫= fun pr =>
              isInAtari (snd pr) t) h <> (Ok false, h').
Proof.
  intros Hq (g & Hg & Hcol & Hn) h'. munfold.
  destruct (copy e h) as [[res|w|] h1] eqn:Hcopy; try discriminate.
  pose proof (copy_activeGroups _ _ _ _ Hcopy) as Hag.
  destruct (copy_extends e h) as [ext Hext]. rewrite Hcopy in Hext. cbn in Hext.
  subst h1. unfold on_board.
  destruct (place_stone t curr (mkEnv res (h ++ ext))) as [[v|w|] e'] eqn:Hps;
    try discriminate.
  cbn [snd]. intros Hat.
  eapply isInAtari_false_no_atari; [exact Hat| |].
  - eapply (place_stone_keeps_own_active t curr _ e' v q g Hps).
    + cbn. rewrite Hag. exact Hq.
    + cbn. apply lookup_app_l_Some. exact Hg.
    + exact Hcol.
  - exists g. split; [|auto].
    pose proof (place_stone_own_object t curr (mkEnv res (h ++ ext)) q g) as Ho.
    rewrite Hps in Ho. apply Ho; [|exact Hcol].
    cbn. apply lookup_app_l_Some. exact Hg.
Qed.

Lemma anti_capture_loop_resigns
    (self : Bot.t) (sc : Board -> Pos -> Color -> store -> result bool)
    (e : Board) (t : Color) (h : store) (gs : list ptr) :
  Bot.can_resign self = true ->
  (forall q, q ∈ gs -> q ∈ activeGroups e) ->
  (exists q, q ∈ gs /\ in_atari h t q) ->
  forall r0 r' h', Bot.anti_capture_loop self sc e t gs r0 h <> (Ok (Some r'), h').
Proof.
  intros Hres. induction gs as [|i gs IH]; intros Hsub (q & Hq & Hat) r0 r' h'.
  - apply elem_of_nil in Hq. contradiction.
  - cbn [Bot.anti_capture_loop]. unfold deref.
    unfold mbind at 1, M_mbind at 1, M_bind at 1.
    destruct (h !! i) as [oi|] eqn:Hoi; [|discriminate].
    destruct (Color_eqb (color oi) t && Nat.eqb (numLiberties oi) 1) eqn:Hc.
    + apply andb_true_iff in Hc as [Hcol Hn].
      apply bool_decide_eq_true in Hcol. apply Nat.eqb_eq in Hn.
      unfold mbind at 1, M_mbind at 1, M_bind at 1.
      destruct (Bot.first (liberties oi) h) as [[curr|w|] h0] eqn:Hfirst;
        try discriminate.
      assert (h0 = h) as ->.
      { revert Hfirst. unfold Bot.first.
        destruct (Positions.getAny _); intros H; inversion H; reflexivity. }
      unfold mbind at 1, M_mbind at 1, M_bind at 1. unfold Bot.observe at 1.
      destruct (sc (Bot.board self) curr t h) as [[]|w|]; try discriminate.
      * rewrite Hres. discriminate.
      * rewrite Hres.
        pose proof (defence_still_in_atari e t curr h i) as Hd.
        assert (Hi : i ∈ activeGroups e) by (apply Hsub; apply elem_of_cons; auto).
        assert (Ha : in_atari h t i) by (exists oi; auto).
        specialize (Hd Hi Ha).
        revert Hd. munfold.
        destruct (copy e h) as [[res|w|] h1]; try discriminate.
        destruct (on_board res (place_stone t curr) h1) as [[pr|w|] h2];
          try discriminate.
        destruct (isInAtari (snd pr) t h2) as [[[]|w|] h3]; try discriminate.
        intros Hd. exfalso. eapply Hd. reflexivity.
    + apply IH.
      * intros x Hx. apply Hsub. apply elem_of_cons. auto.
      * exists q. split; [|exact Hat].
        apply elem_of_cons in Hq as [-> | Hq]; [|exact Hq]. exfalso.
        destruct Hat as (g & Hg & Hcol & Hn).
        assert (Some g = Some oi) as Heq by (rewrite <- Hg; exact Hoi).
        inversion Heq; subst g.
        apply andb_false_iff in Hc as [Hc | Hc].
        -- apply bool_decide_eq_false in Hc. contradiction.
        -- apply Nat.eqb_neq in Hc. contradiction.
Qed.

(** X23.  When the strength profile permits resignation and a group of
    the colour is in atari, [find_anti_capture_moves] never returns an
    array of moves: the defence is tried on a copy whose active groups are
    still the original's objects, so the colour is seen in atari again and
    the answer is [false] (or the call fails). *)
Theorem find_anti_capture_moves_resigns
    (self : Bot.t) (sc : Board -> Pos -> Color -> store -> result bool)
    (e : Board) (t : Color) (h : store) (q : ptr) :
  Bot.can_resign self = true ->
  q ∈ activeGroups e -> in_atari h t q ->
  forall l h', Bot.find_anti_capture_moves self sc e t h <> (Ok (Bot.JsArray l), h').
Proof.
  intros Hres Hq Hat l h'. unfold Bot.find_anti_capture_moves.
  unfold mbind at 1, M_mbind at 1, M_bind at 1.
  pose proof (anti_capture_loop_resigns self sc e t h (activeGroups e) Hres
                (fun x Hx => Hx) (ex_intro _ q (conj Hq Hat)) Positions.empty) as Hl.
  destruct (Bot.anti_capture_loop _ _ _ _ _ _ h) as [[[r|]|w|] h1];
    try discriminate.
  exfalso. eapply Hl. reflexivity.
Qed.

(** X16.  Starting from a fresh board, no sequence of [place_stone],
    [clear] and [copy] calls ever puts a stone on a board: every state
    reached is the fresh board with no group object, and every
    [place_stone] call on it returns [false]. *)
Theorem reachable_is_empty (e : Env) :
  reachable e ->
  e = mkEnv new_Board []
  /\ forall c pos, place_stone c pos e = (Ok false, e).
Proof.
  intros H. assert (He : e = mkEnv new_Board []).
  { induction H as [|c pos e H IH|e H IH|e res h' H IH Hcopy].
    - reflexivity.
    - subst e. rewrite place_stone_new_Board. reflexivity.
    - subst e. reflexivity.
    - subst e. vm_compute in Hcopy. inversion Hcopy; reflexivity. }
  split; [exact He|]. subst e. intros c pos. apply place_stone_new_Board.
Qed.

(** ** A neighbouring friend *)

Lemma classify_loop_total (c : Color) (ps : list Pos) (acc : Adjacent) (e : Env) :
  (forall p q, p ∈ ps -> is_pos_valid p = true -> grid_at (this e) p = Some q ->
     is_Some (mem e !! q)) ->
  exists adj, classify_loop c ps acc e = (Ok adj, e).
Proof.
  revert acc. induction ps as [|p ps IH]; intros acc Hlive.
  - exists acc. reflexivity.
  - cbn [classify_loop]. munfold.
    assert (Hstep : exists a, classify_step c p acc e = (Ok a, e)).
    { destruct e as [b h]. unfold classify_step, deref. munfold. cbn [this mem] in *.
      destruct (is_pos_valid p) eqn:Hv; [|eauto]. cbn [this mem].
      destruct (grid_at b p) as [q|] eqn:Hg; [|eauto]. cbn [this mem].
      destruct (Hlive p q) as [g Hq]; [apply elem_of_cons; auto|auto|auto|].
      destruct (h !! q) as [g'|] eqn:Hq'.
      - destruct (Color_eqb (color g') c); eauto.
      - discriminate Hq. }
    destruct Hstep as [a ->]. apply IH.
    intros p' q Hp'. apply Hlive. apply elem_of_cons. auto.
Qed.

(** X15.  On an occupied on-grid point with a neighbouring group of the
    placed colour (the neighbouring cells holding live objects),
    [place_stone] throws [std::invalid_argument] and leaves the board and
    the objects as they were. *)
Theorem place_stone_throws_beside_friend
    (c : Color) (pos : Pos) (e : Env) (p : Pos) (q : ptr) (g : _Group) :
  is_pos_valid pos = true -> non_null (grid_at (this e) pos) = true ->
  (forall p' q', p' ∈ neighbors pos -> is_pos_valid p' = true ->
     grid_at (this e) p' = Some q' -> is_Some (mem e !! q')) ->
  p ∈ neighbors pos -> is_pos_valid p = true ->
  grid_at (this e) p = Some q -> mem e !! q = Some g -> color g = c ->
  place_stone c pos e = (Throw "Cannot merge groups of different colors", e).
Proof.
  intros Hv Hocc Hlive Hp Hvp Hg Hq Hc.
  destruct (classify_loop_total c (neighbors pos)
              (mkAdjacent [] [] Positions.empty) e Hlive) as [adj Hcl].
  fold (classify c pos) in Hcl.
  destruct (classify_loop_spec _ _ _ _ _ _ Hcl) as (_ & Hfr & _).
  assert (Hin : q ∈ adj_friends adj).
  { apply Hfr. right. split; [exists p; auto|eauto]. }
  destruct (adj_friends adj) as [|f fs] eqn:Hfs;
    [apply elem_of_nil in Hin; contradiction|].
  assert (Hf : f ∈ f :: fs) by (apply elem_of_cons; auto).
  apply Hfr in Hf as [Hf | [_ (gf & Hgf & _)]];
    [cbn in Hf; apply elem_of_nil in Hf; contradiction|].
  eapply place_stone_friend_throws; eauto.
Qed.

(** ** The suicide rule *)

Lemma elem_of_all_positions (p : Pos) :
  is_pos_valid p = true -> p ∈ all_positions.
Proof.
  intros Hv. apply is_pos_valid_spec in Hv as [Hr Hc].
  unfold all_positions. apply list_elem_of_In, in_flat_map.
  exists (Z.to_nat (row p)). split; [apply in_seq; unfold size; lia|].
  apply in_map_iff. exists (Z.to_nat (col p)). split; [|apply in_seq; unfold size; lia].
  destruct p as [r k]. cbn in *. f_equal; lia.
Qed.

Lemma grid_consistent_at (e : Env) (p : Pos) (q : ptr) :
  grid_consistent e = true -> is_pos_valid p = true ->
  grid_at (this e) p = Some q ->
  exists g, mem e !! q = Some g /\ group_consistent (this e) g = true.
Proof.
  intros Hwf Hv Hq. unfold grid_consistent in Hwf.
  rewrite forallb_forall in Hwf.
  specialize (Hwf p (proj1 (list_elem_of_In _ _) (elem_of_all_positions p Hv))).
  rewrite Hq in Hwf. destruct (mem e !! q) as [g|]; [eauto|discriminate].
Qed.

Lemma group_consistent_spec (b : Board) (g : _Group) :
  group_consistent b g = true ->
  (exists l, l ∈ elements (liberties g))
  /\ (forall s, s ∈ elements (stones g) -> grid_at b s <> None)
  /\ (forall l, l ∈ elements (liberties g) -> grid_at b l = None).
Proof.
  unfold group_consistent. rewrite !andb_true_iff, !forallb_forall.
  intros [[Hd Hs] Hl]. split; [|split].
  - unfold isDead, numLiberties, Positions.count in Hd.
    destruct (elements (liberties g)) as [|l ls]; [discriminate|].
    exists l. apply elem_of_cons. auto.
  - intros s Hin. apply list_elem_of_In, Hs in Hin.
    apply andb_true_iff in Hin as [_ Hin].
    destruct (grid_at b s); [discriminate|discriminate].
  - intros l Hin. apply list_elem_of_In, Hl in Hin.
    apply andb_true_iff in Hin as [_ Hin].
    destruct (grid_at b l); [discriminate|reflexivity].
Qed.

Lemma elem_of_friends_beside (c : Color) (e : Env) (pos : Pos) (g : _Group) :
  g ∈ friends_beside c e pos <->
  exists p q, p ∈ neighbors pos /\ is_pos_valid p = true
              /\ grid_at (this e) p = Some q /\ mem e !! q = Some g
              /\ color g = c.
Proof.
  unfold friends_beside, groups_beside.
  rewrite list_elem_of_filter, list_elem_of_omap. split.
  - intros (Hc & p & Hp & Hg). destruct (is_pos_valid p) eqn:Hv; [|discriminate].
    destruct (grid_at (this e) p) as [q|] eqn:Hq; [|discriminate].
    cbn in Hg. exists p, q. auto.
  - intros (p & q & Hp & Hv & Hq & Hg & Hc). split; [exact Hc|].
    exists p. split; [exact Hp|]. rewrite Hv, Hq. exact Hg.
Qed.

Lemma merged_liberties_nil (c : Color) (e : Env) (pos : Pos) (l : Pos) :
  leaves_no_liberty c pos e = true ->
  l ∈ free_beside e pos
  \/ (exists g, g ∈ friends_beside c e pos /\ l ∈ elements (liberties g)) ->
  l ∈ merged_stones c e pos.
Proof.
  unfold leaves_no_liberty. intros Hn Hl.
  apply Nat.eqb_eq, length_zero_iff_nil in Hn.
  destruct (decide (l ∈ merged_stones c e pos)) as [Hin|Hout]; [exact Hin|].
  assert (H : l ∈ merged_liberties c e pos).
  { unfold merged_liberties. apply list_elem_of_filter. split; [exact Hout|].
    apply elem_of_app. destruct Hl as [Hl | (g & Hg & Hl)]; [left; exact Hl|].
    right. apply list_elem_of_In, in_concat.
    exists (elements (liberties g)). split; [|apply list_elem_of_In; exact Hl].
    apply in_map_iff. exists g. split; [reflexivity|apply list_elem_of_In; exact Hg]. }
  rewrite Hn in H. apply elem_of_nil in H. contradiction.
Qed.

(** On a consistent grid an empty point is no merged stone, unless it is
    [pos] itself. *)
Lemma empty_not_merged (c : Color) (e : Env) (pos : Pos) (l : Pos) :
  grid_consistent e = true ->
  grid_at (this e) l = None -> l ∈ merged_stones c e pos -> l = pos.
Proof.
  intros Hwf Hl Hin. unfold merged_stones in Hin.
  apply elem_of_cons in Hin as [Hin | Hin]; [exact Hin|].
  apply list_elem_of_In, in_concat in Hin as (ss & Hss & Hin).
  apply in_map_iff in Hss as (g & <- & Hg).
  apply list_elem_of_In, elem_of_friends_beside in Hg
    as (p & q & Hp & Hv & Hq & Hg & Hc).
  destruct (grid_consistent_at e p q Hwf Hv Hq) as (g' & Hg' & Hcons).
  assert (g' = g) as -> by congruence.
  apply group_consistent_spec in Hcons as (_ & Hst & _).
  apply list_elem_of_In, Hst in Hin. contradiction.
Qed.

Lemma not_elem_of_neighbors (p : Pos) : p ∉ neighbors p.
Proof. rewrite elem_of_neighbors. lia. Qed.

(** Without a friend beside [pos], a placement that leaves no liberty has
    found no empty neighbour. *)
Lemma no_friend_no_liberty
    (c : Color) (pos : Pos) (e e1 : Env) (adj : Adjacent) :
  classify c pos e = (Ok adj, e1) -> adj_friends adj = [] ->
  leaves_no_liberty c pos e = true ->
  isDead (singleton_Group c pos (newLiberties adj)) = true.
Proof.
  intros Hcl Hnofr Hs.
  destruct (classify_loop_spec _ _ _ _ _ _ Hcl) as (Hlib & Hfr & _).
  unfold isDead, numLiberties, Positions.count. cbn [liberties singleton_Group].
  destruct (elements (newLiberties adj)) as [|l ls] eqn:Hls; [reflexivity|].
  exfalso.
  assert (Hl : l ∈ l :: ls) by (apply elem_of_cons; auto).
  apply Hlib in Hl as [Hl | (Hl & Hvl & Hel)];
    [cbn in Hl; apply elem_of_nil in Hl; exact Hl|].
  assert (Hin : l ∈ merged_stones c e pos).
  { apply merged_liberties_nil; [exact Hs|]. left.
    apply list_elem_of_filter. auto. }
  unfold merged_stones in Hin. apply elem_of_cons in Hin as [-> | Hin];
    [exact (not_elem_of_neighbors pos Hl)|].
  apply list_elem_of_In, in_concat in Hin as (ss & Hss & _).
  apply in_map_iff in Hss as (g & _ & Hg).
  apply list_elem_of_In, elem_of_friends_beside in Hg
    as (p & q & Hp & Hv & Hq & Hg & Hc).
  assert (Hq' : q ∈ adj_friends adj).
  { apply Hfr. right. split; [exists p; auto|eauto]. }
  rewrite Hnofr in Hq'. apply elem_of_nil in Hq'. exact Hq'.
Qed.

(** On a consistent grid a placement on a stone beside a friend always
    leaves a liberty: the friend has one on an empty point. *)
Lemma friend_keeps_liberty
    (c : Color) (pos p : Pos) (e : Env) (q q0 : ptr) (g : _Group) :
  grid_consistent e = true ->
  grid_at (this e) pos = Some q0 ->
  p ∈ neighbors pos -> is_pos_valid p = true ->
  grid_at (this e) p = Some q -> mem e !! q = Some g -> color g = c ->
  leaves_no_liberty c pos e = false.
Proof.
  intros Hwf Hocc Hp Hvp Hq Hg Hc.
  destruct (leaves_no_liberty c pos e) eqn:Hs; [exfalso|reflexivity].
  destruct (grid_consistent_at e p q Hwf Hvp Hq) as (g' & Hg' & Hcons).
  assert (g' = g) as -> by congruence.
  apply group_consistent_spec in Hcons as ([l Hl] & _ & Hfree).
  assert (l = pos) as ->.
  { apply (empty_not_merged c e pos l Hwf (Hfree l Hl)).
    apply merged_liberties_nil; [exact Hs|]. right. exists g.
    split; [|exact Hl]. apply elem_of_friends_beside. exists p, q. auto. }
  specialize (Hfree pos Hl). congruence.
Qed.

(** C6.  If a stone of colour [c] on [pos] would leave the group it forms
    with all its friends without a liberty, [place_stone] leaves the board
    and every group object exactly as they were, on every board, whether
    or not the stone would capture; and on a board whose grid is
    consistent with its groups the call returns [false].  On such a board
    the point is empty, or it holds a stone with no friend beside it and
    the suicide check of line 215 turns the stone down. *)
Theorem place_stone_suicide_unchanged (c : Color) (pos : Pos) (e : Env) :
  leaves_no_liberty c pos e = true ->
  snd (place_stone c pos e) = e
  /\ (grid_consistent e = true -> place_stone c pos e = (Ok false, e)).
Proof.
  intros Hs. split.
  - unfold place_stone. munfold.
    destruct (negb (is_pos_valid pos) || negb (non_null (grid_at (this e) pos)));
      [reflexivity|].
    pose proof (classify_loop_state c (neighbors pos)
                  (mkAdjacent [] [] Positions.empty) e) as Hst.
    fold (classify c pos) in Hst.
    destruct (classify c pos e) as [[adj|w|] e1] eqn:Hcl; simpl in Hst; subst e1;
      try reflexivity.
    destruct (merge_friends _ _ _) as [[[]|w|] g] eqn:Hm; try reflexivity.
    apply merge_friends_Ok in Hm as [Hnofr ->].
    rewrite (no_friend_no_liberty c pos e e adj Hcl Hnofr Hs). reflexivity.
  - intros Hwf.
    destruct (is_pos_valid pos) eqn:Hv; [|apply place_stone_guard; auto].
    destruct (grid_at (this e) pos) as [q0|] eqn:Hocc;
      [|apply place_stone_guard; auto].
    destruct (classify_loop_total c (neighbors pos)
                (mkAdjacent [] [] Positions.empty) e) as [adj Hcl].
    { intros p q _ Hvp Hq.
      destruct (grid_consistent_at e p q Hwf Hvp Hq) as (g & -> & _). eauto. }
    fold (classify c pos) in Hcl.
    destruct (adj_friends adj) as [|f fs] eqn:Hfs.
    + apply (place_stone_dead_group c pos e e adj
               (singleton_Group c pos (newLiberties adj)) Hcl);
        [rewrite Hfs; reflexivity|].
      exact (no_friend_no_liberty c pos e e adj Hcl Hfs Hs).
    + exfalso.
      destruct (classify_loop_spec _ _ _ _ _ _ Hcl) as (_ & Hfr & _).
      assert (Hf : f ∈ adj_friends adj)
        by (rewrite Hfs; apply elem_of_cons; auto).
      apply Hfr in Hf as [Hf | [(p & Hp & Hvp & Hq) (g & Hg & Hc)]];
        [cbn in Hf; apply elem_of_nil in Hf; exact Hf|].
      rewrite (friend_keeps_liberty c pos p e f q0 g Hwf Hocc Hp Hvp Hq Hg Hc)
        in Hs.
      discriminate.
Qed.

(** ** Instances *)

(** The black stone on (0,1) has the corner as its last liberty: black on
    the corner is suicide beside a friend.  In the white corner, black on
    the occupied point (0,0) has white stones on both neighbours. *)
Lemma place_stone_suicide_unchanged_witness :
  (leaves_no_liberty BLACK (mkPos 0 0) suicide_corner = true
   /\ grid_consistent suicide_corner = true
   /\ length (friends_beside BLACK suicide_corner (mkPos 0 0)) = 1%nat
   /\ place_stone BLACK (mkPos 0 0) suicide_corner = (Ok false, suicide_corner))
  /\ (leaves_no_liberty BLACK (mkPos 0 0) Fixtures.white_corner = true
      /\ grid_at (this Fixtures.white_corner) (mkPos 0 0) = Some 0%nat
      /\ place_stone BLACK (mkPos 0 0) Fixtures.white_corner
         = (Ok false, Fixtures.white_corner)).
Proof.
  split.
  - split; [vm_compute; reflexivity|]. split; [vm_compute; reflexivity|].
    split; [vm_compute; reflexivity|].
    apply (place_stone_suicide_unchanged BLACK (mkPos 0 0) suicide_corner);
      vm_compute; reflexivity.
  - split; [vm_compute; reflexivity|]. split; [reflexivity|].
    apply (place_stone_suicide_unchanged BLACK (mkPos 0 0) Fixtures.white_corner);
      vm_compute; reflexivity.
Defined.

(** A corner of the board is far from the ends of the range of [int]. *)
Lemma Pos_adjacency_witness :
  Pos_within 1 (mkPos 0 8)
  /\ (mkPos 1 8 ∈ neighbors (mkPos 0 8) <-> mkPos 0 8 ∈ neighbors (mkPos 1 8)).
Proof.
  assert (H0 : Pos_within 1 (mkPos 0 8))
    by (unfold Pos_within, INT_MIN, INT_MAX; cbn [row col]; lia).
  assert (H1 : Pos_within 1 (mkPos 1 8))
    by (unfold Pos_within, INT_MIN, INT_MAX; cbn [row col]; lia).
  split; [exact H0|].
  exact (proj1 (proj2 (proj2 (proj2 (Pos_adjacency (mkPos 0 8) (mkPos 1 8) H0))))
           H1).
Defined.

Lemma locality_spec_witness :
  Pos_within 1 (mkPos 0 8) /\ length (locality (mkPos 0 8)) = 8%nat.
Proof.
  assert (H0 : Pos_within 1 (mkPos 0 8))
    by (unfold Pos_within, INT_MIN, INT_MAX; cbn [row col]; lia).
  split; [exact H0|].
  exact (proj2 (proj2 (proj2 (proj2 (locality_spec (mkPos 0 8) (mkPos 0 8) H0))))).
Defined.

Lemma locality2_spec_witness :
  Pos_within 2 (mkPos 0 8) /\ length (locality2 (mkPos 0 8)) = 24%nat.
Proof.
  assert (H0 : Pos_within 2 (mkPos 0 8))
    by (unfold Pos_within, INT_MIN, INT_MAX; cbn [row col]; lia).
  split; [exact H0|].
  exact (proj2 (proj2 (proj2 (locality2_spec (mkPos 0 8) (mkPos 0 8) H0)))).
Defined.

(** White is placed on its own stone on (0,1), beside the black stone on
    (0,0): the black group is still active afterwards, and unchanged. *)
Lemma place_stone_frame_witness :
  fst (place_stone WHITE (mkPos 0 1) Fixtures.black_atari) = Ok true
  /\ exists g',
       mem (snd (place_stone WHITE (mkPos 0 1) Fixtures.black_atari)) !! 0%nat
       = Some g'
       /\ color g' = BLACK
       /\ stones g' = Positions.of_range [mkPos 0 0].
Proof.
  split; [vm_compute; reflexivity|].
  destruct (place_stone_frame WHITE (mkPos 0 1) Fixtures.black_atari 0%nat
              (Fixtures.group BLACK [(0, 0)] [(1, 0)]))
    as (g' & Hg' & Hcol & Hst & _).
  - vm_compute. reflexivity.
  - left. vm_compute. apply list_elem_of_here.
  - exists g'. split; [exact Hg'|]. split; [exact Hcol|exact Hst].
Defined.

Lemma ordered_two_points : ordered (elements Samples.two_points).
Proof. repeat constructor. Qed.

Lemma Positions_add_spec_witness :
  ordered (elements Samples.two_points)
  /\ Positions.count (Positions.add Samples.two_points (mkPos 1 1)) = 3%nat.
Proof.
  split; [exact ordered_two_points|].
  rewrite (proj2 (proj2 (proj2
    (Positions_add_spec Samples.two_points (mkPos 1 1) ordered_two_points)))).
  reflexivity.
Defined.

Lemma Positions_remove_spec_witness :
  ordered (elements Samples.two_points)
  /\ Positions.count (snd (Positions.remove Samples.two_points (mkPos 0 1))) = 1%nat.
Proof.
  split; [exact ordered_two_points|].
  rewrite (proj2 (proj2 (proj2 (proj2
    (Positions_remove_spec Samples.two_points (mkPos 0 1) ordered_two_points))))).
  reflexivity.
Defined.

Lemma Positions_getAny_least_witness :
  ordered (elements Samples.two_points)
  /\ Positions.getAny Samples.two_points = Some (mkPos 0 1)
  /\ Positions.has Samples.two_points (mkPos 0 1) = true.
Proof.
  split; [exact ordered_two_points|]. split; [reflexivity|].
  exact (proj1 (Positions_getAny_least Samples.two_points (mkPos 0 1)
                  ordered_two_points eq_refl)).
Defined.

Lemma Positions_union_spec_witness :
  ordered (elements Samples.two_points)
  /\ Positions_plus Samples.two_points Samples.other_points
     = Positions.add_all Samples.two_points Samples.other_points.
Proof.
  split; [exact ordered_two_points|].
  exact (proj2 (proj2 (Positions_union_spec Samples.two_points Samples.other_points
                         ordered_two_points))).
Defined.

Lemma Positions_remove_all_spec_witness :
  ordered (elements Samples.two_points)
  /\ ordered (elements (Positions.remove_all Samples.two_points [mkPos 2 3; mkPos 5 5])).
Proof.
  split; [exact ordered_two_points|].
  exact (proj1 (Positions_remove_all_spec Samples.two_points [mkPos 2 3; mkPos 5 5]
                  ordered_two_points)).
Defined.

Lemma place_stone_failure_unchanged_witness :
  place_stone BLACK (mkPos 0 0) Fixtures.black_pair
  = (Throw "Cannot merge groups of different colors",
     snd (place_stone BLACK (mkPos 0 0) Fixtures.black_pair))
  /\ snd (place_stone BLACK (mkPos 0 0) Fixtures.black_pair) = Fixtures.black_pair.
Proof.
  assert (H : place_stone BLACK (mkPos 0 0) Fixtures.black_pair
              = (Throw "Cannot merge groups of different colors",
                 snd (place_stone BLACK (mkPos 0 0) Fixtures.black_pair)))
    by (vm_compute; reflexivity).
  split; [exact H|].
  apply (place_stone_failure_unchanged BLACK (mkPos 0 0) Fixtures.black_pair _ _ H).
  right. eexists. reflexivity.
Defined.

Lemma place_stone_success_witness :
  place_stone WHITE (mkPos 4 4) Fixtures.lone_stone
  = (Ok true, snd (place_stone WHITE (mkPos 4 4) Fixtures.lone_stone))
  /\ is_pos_valid (mkPos 4 4) = true.
Proof.
  assert (H : place_stone WHITE (mkPos 4 4) Fixtures.lone_stone
              = (Ok true, snd (place_stone WHITE (mkPos 4 4) Fixtures.lone_stone)))
    by (vm_compute; reflexivity).
  split; [exact H|].
  exact (proj1 (place_stone_success WHITE (mkPos 4 4) Fixtures.lone_stone _ H)).
Defined.

Lemma place_stone_throws_beside_friend_witness :
  place_stone BLACK (mkPos 0 0) Fixtures.black_pair
  = (Throw "Cannot merge groups of different colors", Fixtures.black_pair).
Proof.
  apply (place_stone_throws_beside_friend BLACK (mkPos 0 0) Fixtures.black_pair
           (mkPos 0 1) 0%nat
           (Fixtures.group BLACK [(0, 0); (0, 1)] [(1, 0); (1, 1); (0, 2)]));
    try (vm_compute; reflexivity).
  - intros p' q' Hp' Hv Hg. unfold neighbors in Hp'. cbn [row col] in Hp'.
    repeat (apply elem_of_cons in Hp' as [-> | Hp']; [vm_compute in Hv, Hg;
      try discriminate; inversion Hg; subst; eexists; reflexivity|]).
    apply elem_of_nil in Hp'. contradiction.
  - unfold neighbors. cbn [row col]. apply elem_of_cons. right.
    apply elem_of_cons. left. reflexivity.
Defined.

Lemma reachable_is_empty_witness :
  reachable (snd (place_stone BLACK (mkPos 4 4) (mkEnv new_Board [])))
  /\ snd (place_stone BLACK (mkPos 4 4) (mkEnv new_Board [])) = mkEnv new_Board [].
Proof.
  assert (H : reachable (snd (place_stone BLACK (mkPos 4 4) (mkEnv new_Board []))))
    by (apply reach_place_stone, reach_new).
  split; [exact H|]. exact (proj1 (reachable_is_empty _ H)).
Defined.

Lemma grid_shape_env_of_white_corner : grid_shape (this Fixtures.white_corner).
Proof. split; [reflexivity|]. repeat constructor. Qed.

Lemma removeDeadGroup_spec_witness :
  mem Fixtures.white_corner !! 0%nat
  = Some (Fixtures.group WHITE [(0, 0); (0, 1); (1, 0)] [(0, 2); (1, 1); (2, 0)])
  /\ exists b',
       removeDeadGroup 0%nat Fixtures.white_corner
       = (Ok tt, mkEnv b' (mem Fixtures.white_corner))
       /\ grid_at b' (mkPos 0 1) = None.
Proof.
  split; [reflexivity|].
  destruct (removeDeadGroup_spec 0%nat (this Fixtures.white_corner)
              (mem Fixtures.white_corner)
              (Fixtures.group WHITE [(0, 0); (0, 1); (1, 0)] [(0, 2); (1, 1); (2, 0)])
              eq_refl) as (b' & Hrun & _ & _ & Hcells).
  - intros p Hp. vm_compute in Hp.
    repeat (apply elem_of_cons in Hp as [-> | Hp]; [reflexivity|]).
    apply elem_of_nil in Hp. contradiction.
  - exact grid_shape_env_of_white_corner.
  - exists b'. split; [exact Hrun|]. rewrite (Hcells (mkPos 0 1) eq_refl). reflexivity.
Defined.

Lemma copy_spec_witness :
  on_grid_group (mem Fixtures.lone_stone) 0%nat
  /\ exists res gs,
       copy (this Fixtures.lone_stone) (mem Fixtures.lone_stone)
       = (Ok res, mem Fixtures.lone_stone ++ gs)
       /\ activeGroups res = activeGroups (this Fixtures.lone_stone).
Proof.
  assert (H : on_grid_group (mem Fixtures.lone_stone) 0%nat).
  { eexists. split; [reflexivity|]. intros p Hp. vm_compute in Hp.
    apply elem_of_cons in Hp as [-> | Hp]; [reflexivity|].
    apply elem_of_nil in Hp. contradiction. }
  split; [exact H|].
  destruct (copy_spec (this Fixtures.lone_stone) (mem Fixtures.lone_stone))
    as (res & gs & Hrun & _ & Hag & _).
  - intros q Hq. change (activeGroups (this Fixtures.lone_stone)) with [0%nat] in Hq.
    apply elem_of_cons in Hq as [-> | Hq]; [exact H|].
    apply elem_of_nil in Hq. contradiction.
  - exists res, gs. auto.
Defined.

Lemma live_black_atari :
  forall q, q ∈ activeGroups (this Fixtures.black_atari) ->
            is_Some (mem Fixtures.black_atari !! q).
Proof.
  intros q Hq. change (activeGroups (this Fixtures.black_atari)) with [0%nat; 1%nat] in Hq.
  apply elem_of_cons in Hq as [-> | Hq]; [eexists; reflexivity|].
  apply elem_of_cons in Hq as [-> | Hq]; [eexists; reflexivity|].
  apply elem_of_nil in Hq. contradiction.
Qed.

Lemma isInAtari_spec_witness :
  (forall q, q ∈ activeGroups (this Fixtures.black_atari) ->
             is_Some (mem Fixtures.black_atari !! q))
  /\ exists v, isInAtari (this Fixtures.black_atari) BLACK (mem Fixtures.black_atari)
               = (Ok v, mem Fixtures.black_atari).
Proof.
  split; [exact live_black_atari|].
  destruct (isInAtari_spec (this Fixtures.black_atari) BLACK
              (mem Fixtures.black_atari) live_black_atari) as (v & Hrun & _).
  exists v. exact Hrun.
Defined.

Lemma find_capture_moves_spec_witness :
  (forall q, q ∈ activeGroups (this Fixtures.black_atari) ->
             is_Some (mem Fixtures.black_atari !! q))
  /\ exists l,
       find_capture_moves (fun _ _ _ _ => Ok false) (this Fixtures.black_atari) WHITE
         (mem Fixtures.black_atari) = (Ok l, mem Fixtures.black_atari)
       /\ ordered l.
Proof.
  split; [exact live_black_atari|].
  destruct (find_capture_moves_spec (fun _ _ _ _ => Ok false)
              (this Fixtures.black_atari) WHITE (mem Fixtures.black_atari)
              live_black_atari) as (l & Hrun & Hord & _).
  - intros q p _ _. exists false. reflexivity.
  - exists l. auto.
Defined.

Lemma find_anti_capture_moves_quiet_witness :
  isInAtari (this Fixtures.lone_stone) BLACK (mem Fixtures.lone_stone)
  = (Ok false, mem Fixtures.lone_stone)
  /\ Bot.find_anti_capture_moves
       (Bot.make Bot.HARD BLACK (this Fixtures.lone_stone)) simulated_self_capture
       (this Fixtures.lone_stone) BLACK (mem Fixtures.lone_stone)
     = (Ok (Bot.JsArray []), mem Fixtures.lone_stone).
Proof.
  assert (H : isInAtari (this Fixtures.lone_stone) BLACK (mem Fixtures.lone_stone)
              = (Ok false, mem Fixtures.lone_stone)) by (vm_compute; reflexivity).
  split; [exact H|].
  exact (find_anti_capture_moves_quiet _ _ _ _ _ _ H).
Defined.

Lemma find_anti_capture_moves_resigns_witness :
  Bot.can_resign (Bot.make Bot.HARD BLACK (this Fixtures.black_atari)) = true
  /\ in_atari (mem Fixtures.black_atari) BLACK 0%nat
  /\ Bot.find_anti_capture_moves
       (Bot.make Bot.HARD BLACK (this Fixtures.black_atari))
       (fun _ _ _ _ => Ok false)
       (this Fixtures.black_atari) BLACK (mem Fixtures.black_atari)
     <> (Ok (Bot.JsArray [mkPos 1 0]), mem Fixtures.black_atari).
Proof.
  assert (Ha : in_atari (mem Fixtures.black_atari) BLACK 0%nat).
  { eexists. split; [reflexivity|]. split; reflexivity. }
  split; [reflexivity|]. split; [exact Ha|].
  apply (find_anti_capture_moves_resigns
           (Bot.make Bot.HARD BLACK (this Fixtures.black_atari))
           (fun _ _ _ _ => Ok false)
           (this Fixtures.black_atari) BLACK (mem Fixtures.black_atari) 0%nat
           eq_refl); [|exact Ha].
  apply elem_of_cons. left. reflexivity.
Defined.

Lemma find_ladder_move_enemy_atari_witness :
  1 <= Bot.depth_limit (Bot.make Bot.EASY WHITE (this Fixtures.black_atari)) false
  /\ Bot.find_ladder_move (Bot.make Bot.EASY WHITE (this Fixtures.black_atari))
       simulated_valid_move 1 (this Fixtures.black_atari) WHITE 1 false
       (mem Fixtures.black_atari)
     = (Ok (Some (Bot.LBool true)), mem Fixtures.black_atari).
Proof.
  assert (H : 1 <= Bot.depth_limit
                     (Bot.make Bot.EASY WHITE (this Fixtures.black_atari)) false)
    by (vm_compute; discriminate).
  split; [exact H|].
  apply (find_ladder_move_enemy_atari _ simulated_valid_move 0
           (this Fixtures.black_atari) WHITE 1 false (mem Fixtures.black_atari)
           (mem Fixtures.black_atari) H).
  vm_compute. reflexivity.
Defined.
